(** * Mode-driven transform animation core and timed mode orchestrator

    Shallow embedding of
      - [src/components/VoxelTree.tsx]  (the [useFrame] loop over the voxels),
      - [src/components/Scene.tsx]      ([AnimatedOrnament]'s [useFrame], the
        [Scene] orchestration [useEffect], the golden-spiral ornament
        generator).

    Number model.  A JavaScript number is idealised the way the
    specification's data model does ("3 reals"): arithmetic is exact.  The
    per-tick code only uses [+ - * min <], so it is embedded over [Q] and
    stays executable; equality of coordinates is [Qeq] (the same rational
    number).  The generator calls [Math.PI], [Math.sqrt], [Math.cos] and
    [Math.sin]; it is embedded over [R].  Rounding of binary64 arithmetic is
    outside the model.

    three.js.  [THREE.MathUtils.lerp], [Vector3.lerp], [Vector3.setScalar]
    are embedded from their library definitions.  [Quaternion.slerp] starts
    with the two early returns [if (t === 0) return this; if (t === 1) return
    this.copy(qb);]; what it computes for every other [t] (a formula built on
    [sqrt], [atan2] and [sin]) and [Quaternion.setFromEuler] are taken as
    parameters of the development. *)

From Stdlib Require Import QArith Qminmax Qabs Qround.
From Stdlib Require Import Reals Machin Qreals Psatz Lia.
From Stdlib Require Import List Bool Arith PeanoNat FinFun.
Import ListNotations.

Local Open Scope Q_scope.

(** ** [types.ts]: [export type AppMode = 'INITIAL' | 'SCATTERED' | 'TREE'] *)

Inductive AppMode : Type := INITIAL | SCATTERED | TREE.

Definition AppMode_eqb (a b : AppMode) : bool :=
  match a, b with
  | INITIAL, INITIAL | SCATTERED, SCATTERED | TREE, TREE => true
  | _, _ => false
  end.

(** ** three.js values used by the per-tick code *)

Record Vector3 : Type := mkVector3 { vx : Q; vy : Q; vz : Q }.

Record Quaternion : Type := mkQuaternion { qx : Q; qy : Q; qz : Q; qw : Q }.

Record Euler : Type := mkEuler { ex : Q; ey : Q; ez : Q }.

(** [THREE.Object3D] restricted to the three fields the code touches: the
    shared [dummy] of [VoxelTree] and the [groupRef.current] of an ornament. *)
Record Object3D : Type := mkObject3D
  { position : Vector3; quaternion : Quaternion; scale : Vector3 }.

(** [THREE.MathUtils.lerp(x, y, t)  =  (1 - t) * x + t * y] *)
Definition lerp (x y t : Q) : Q := (1 - t) * x + t * y.

(** [Vector3.lerp(v, alpha)]: [this.x += (v.x - this.x) * alpha], etc. *)
Definition Vector3_lerp (this v : Vector3) (alpha : Q) : Vector3 :=
  {| vx := vx this + (vx v - vx this) * alpha;
     vy := vy this + (vy v - vy this) * alpha;
     vz := vz this + (vz v - vz this) * alpha |}.

(** [Vector3.setScalar(s)] *)
Definition setScalar (s : Q) : Vector3 := mkVector3 s s s.

(** Coordinate-wise equality of rational vectors. *)
Definition Vector3_eq (p q : Vector3) : Prop :=
  vx p == vx q /\ vy p == vy q /\ vz p == vz q.

Section Rotations.

(** What [Quaternion.slerp] returns when [t] is neither 0 nor 1, and
    [Quaternion.setFromEuler]. *)
Variable slerp_between : Quaternion -> Quaternion -> Q -> Quaternion.
Variable setFromEuler : Euler -> Quaternion.

Definition slerp (this qb : Quaternion) (t : Q) : Quaternion :=
  if Qeq_bool t 0 then this
  else if Qeq_bool t 1 then qb
  else slerp_between this qb t.

(** ** [VoxelTree.tsx] *)

(** One entry of [instancesData]. *)
Record InstanceData : Type := mkInstanceData
  { treePos : Vector3; scatterPos : Vector3; initialPos : Vector3;
    treeRot : Quaternion; initialRot : Quaternion; scatterRot : Quaternion }.

(** [currentPositions[i]] and [currentQuaternions[i]]: the mutable state of
    voxel [i]. *)
Record VoxelCurrent : Type := mkVoxelCurrent
  { currentPosition : Vector3; currentQuaternion : Quaternion }.

(** [const step = Math.min(1, delta * 2.5)] *)
Definition voxel_step (delta : Q) : Q := Qmin 1 (delta * 2.5).

Definition voxel_targetPos (mode : AppMode) (d : InstanceData) : Vector3 :=
  match mode with
  | SCATTERED => scatterPos d
  | INITIAL => initialPos d
  | TREE => treePos d
  end.

Definition voxel_targetRot (mode : AppMode) (d : InstanceData) : Quaternion :=
  match mode with
  | SCATTERED => scatterRot d
  | INITIAL => initialRot d
  | TREE => treeRot d
  end.

(** [mode === 'INITIAL' ? 0.2 : (mode === 'TREE' ? 1 : 0.8)] *)
Definition voxel_targetScale (mode : AppMode) : Q :=
  match mode with
  | INITIAL => 0.2
  | TREE => 1
  | SCATTERED => 0.8
  end.

(** The position update of the loop body, lines 158-168.  The three
    assignments of the fountain branch are kept in source order; each reads
    the coordinate it overwrites. *)
Definition voxel_move (mode : AppMode) (step : Q) (targetPos : Vector3)
    (cur : Vector3) : Vector3 :=
  match mode with
  | SCATTERED =>
      if Qlt_le_dec (vy cur) (-2) then
        let cur1 := mkVector3 (lerp (vx cur) 0 (step * 0.5)) (vy cur) (vz cur) in
        let cur2 := mkVector3 (vx cur1) (vy cur1) (lerp (vz cur1) 0 (step * 0.5)) in
        mkVector3 (vx cur2) (lerp (vy cur2) (vy targetPos) step) (vz cur2)
      else Vector3_lerp cur targetPos step
  | _ => Vector3_lerp cur targetPos step
  end.

(** One iteration of [for (let i = 0; i < voxels.length; i++)]: the new
    mutable state of voxel [i] and the [dummy] whose matrix is stored with
    [setMatrixAt(i, dummy.matrix)].  The incoming [dummy] is the one left by
    the previous iteration: every field is overwritten. *)
Definition voxel_iteration (mode : AppMode) (step : Q) (d : InstanceData)
    (cur : VoxelCurrent) (dummy : Object3D) : VoxelCurrent * Object3D :=
  let targetPos := voxel_targetPos mode d in
  let targetRot := voxel_targetRot mode d in
  let pos := voxel_move mode step targetPos (currentPosition cur) in
  let quat := slerp (currentQuaternion cur) targetRot step in
  let dummy1 := mkObject3D (position dummy) quat (scale dummy) in
  let targetScale := voxel_targetScale mode in
  let dummy2 := mkObject3D pos (quaternion dummy1) (scale dummy1) in
  let dummy3 := mkObject3D (position dummy2) (quaternion dummy2) (setScalar targetScale) in
  (mkVoxelCurrent pos quat, dummy3).

(** The loop: [data] and [curs] have the length of [voxels] by construction
    (both are [map]s of it).  The result is the new mutable state, the
    instance matrices written this frame, and the final [dummy]. *)
Fixpoint voxel_loop (mode : AppMode) (step : Q) (data : list InstanceData)
    (curs : list VoxelCurrent) (dummy : Object3D)
    : list VoxelCurrent * list Object3D * Object3D :=
  match data, curs with
  | d :: data', cur :: curs' =>
      let '(cur', dummy') := voxel_iteration mode step d cur dummy in
      let '(rest, mats, dummy'') := voxel_loop mode step data' curs' dummy' in
      (cur' :: rest, dummy' :: mats, dummy'')
  | _, _ => ([], [], dummy)
  end.

(** The state [useFrame] works on: the two arrays, the shared [dummy], and
    [meshRef.current] ([None] while the ref is [null]) holding the instance
    matrices. *)
Record VoxelTreeState : Type := mkVoxelTreeState
  { currents : list VoxelCurrent;
    dummy : Object3D;
    meshRef : option (list Object3D) }.

Definition VoxelTree_useFrame (mode : AppMode) (data : list InstanceData)
    (delta : Q) (s : VoxelTreeState) : VoxelTreeState :=
  match meshRef s with
  | None => s
  | Some _ =>
      let step := voxel_step delta in
      let '(curs, mats, dm) := voxel_loop mode step data (currents s) (dummy s) in
      mkVoxelTreeState curs dm (Some mats)
  end.

(** ** [Scene.tsx]: [AnimatedOrnament] *)

Inductive OrnamentType : Type :=
  | camera | gift | star | snowman | topper | snowflake | goldTree
  | redBulb | yellowBulb.

Record OrnamentConfig : Type := mkOrnamentConfig
  { id : nat;
    type : OrnamentType;
    o_treePos : Vector3;
    o_treeRot : Euler;
    o_scatterPos : Vector3;
    o_scatterRot : Euler;
    o_initialPos : Vector3;
    o_scale : Q }.

(** [const step = Math.min(1, delta * 3)] *)
Definition ornament_step (delta : Q) : Q := Qmin 1 (delta * 3).

Definition ornament_targetPos (mode : AppMode) (config : OrnamentConfig) : Vector3 :=
  match mode with
  | INITIAL => o_initialPos config
  | SCATTERED => o_scatterPos config
  | TREE => o_treePos config
  end.

Definition ornament_targetRot (mode : AppMode) (config : OrnamentConfig) : Euler :=
  match mode with
  | INITIAL => o_scatterRot config
  | SCATTERED => o_scatterRot config
  | TREE => o_treeRot config
  end.

Definition ornament_targetScale (mode : AppMode) (config : OrnamentConfig) : Q :=
  match mode with
  | INITIAL => 0.2
  | SCATTERED => o_scale config
  | TREE => o_scale config
  end.

(** Lines 92-106; the threshold of the ornaments is [-1]. *)
Definition ornament_move (mode : AppMode) (step : Q) (targetPos : Vector3)
    (cur : Vector3) : Vector3 :=
  match mode with
  | SCATTERED =>
      if Qlt_le_dec (vy cur) (-1) then
        let currentX := vx cur in
        let currentZ := vz cur in
        let cur1 := mkVector3 (lerp currentX 0 (step * 0.5)) (vy cur) (vz cur) in
        let cur2 := mkVector3 (vx cur1) (vy cur1) (lerp currentZ 0 (step * 0.5)) in
        mkVector3 (vx cur2) (lerp (vy cur2) (vy targetPos) step) (vz cur2)
      else Vector3_lerp cur targetPos step
  | _ => Vector3_lerp cur targetPos step
  end.

(** The body of the ornament's [useFrame] once [groupRef.current] is set. *)
Definition ornament_update (mode : AppMode) (config : OrnamentConfig)
    (delta : Q) (group : Object3D) : Object3D :=
  let step := ornament_step delta in
  let targetPos := ornament_targetPos mode config in
  let targetRot := ornament_targetRot mode config in
  let targetScale := ornament_targetScale mode config in
  let pos := ornament_move mode step targetPos (position group) in
  let curQ := quaternion group in
  let targetQ := setFromEuler targetRot in
  let quat := slerp curQ targetQ step in
  let currentScale := vx (scale group) in
  let newScale := lerp currentScale targetScale step in
  mkObject3D pos quat (setScalar newScale).

(** [useFrame((state, delta) => { if (!groupRef.current) return; ... })] *)
Definition AnimatedOrnament_useFrame (mode : AppMode) (config : OrnamentConfig)
    (delta : Q) (groupRef : option Object3D) : option Object3D :=
  match groupRef with
  | None => None
  | Some group => Some (ornament_update mode config delta group)
  end.

(** The configuration pushed first by the generator (lines 196-205): the
    topper, whose three positions lie on the vertical axis.  Its
    [scatterRot] is drawn at random and is an input here. *)
Definition topper_ornament (scatterRot : Euler) : OrnamentConfig :=
  mkOrnamentConfig 0 topper (mkVector3 0 9.8 0) (mkEuler 0 0 0)
    (mkVector3 0 15 0) scatterRot (mkVector3 0 (-5) 0) 1.

(** A run of frames: the mode and the delta of each, oldest first. *)
Definition ornament_run (config : OrnamentConfig) (frames : list (AppMode * Q))
    (group : Object3D) : Object3D :=
  fold_left (fun g f => ornament_update (fst f) config (snd f) g) frames group.

Definition voxel_tick (mode : AppMode) (d : InstanceData) (delta : Q)
    (cur : VoxelCurrent) (dm : Object3D) : VoxelCurrent * Object3D :=
  voxel_iteration mode (voxel_step delta) d cur dm.

Definition voxel_run (d : InstanceData) (frames : list (AppMode * Q))
    (st : VoxelCurrent * Object3D) : VoxelCurrent * Object3D :=
  fold_left (fun s f => voxel_tick (fst f) d (snd f) (fst s) (snd s)) frames st.

End Rotations.

(** ** Concrete inputs for the examples

    Any function can stand for the two three.js parameters; the examples
    use the simplest ones.  [sample_voxel] sits inside the box (Y = -5), off
    the axis, as [initialPos] puts it; [sample_group] likewise. *)

Definition sample_between (q qb : Quaternion) (t : Q) : Quaternion := q.

Definition sample_setFromEuler (e : Euler) : Quaternion := mkQuaternion 0 0 0 1.

Definition identityQ : Quaternion := mkQuaternion 0 0 0 1.

Definition sample_instance : InstanceData :=
  mkInstanceData (mkVector3 3 1 2) (mkVector3 10 15 10) (mkVector3 1 (-5) 1)
    identityQ identityQ identityQ.

Definition sample_voxel : VoxelCurrent := mkVoxelCurrent (mkVector3 1 (-5) 1) identityQ.

(** The [dummy] as [useLayoutEffect] leaves it: scale 0.2. *)
Definition sample_dummy : Object3D :=
  mkObject3D (mkVector3 1 (-5) 1) identityQ (setScalar 0.2).

Definition sample_config : OrnamentConfig :=
  mkOrnamentConfig 7 gift (mkVector3 3 1 2) (mkEuler 0 0 0)
    (mkVector3 10 15 10) (mkEuler 0 0 0) (mkVector3 1 (-5) 1) 0.8.

Definition sample_group : Object3D :=
  mkObject3D (mkVector3 1 (-5) 1) identityQ (setScalar 0.2).

(** The topper resting at its [initialPos], on the axis. *)
Definition topper_group : Object3D :=
  mkObject3D (mkVector3 0 (-5) 0) identityQ (setScalar 0.2).

Local Close Scope Q_scope.

(** ** [Scene.tsx]: the orchestration state and its [useEffect]

    React and the browser are modelled as far as the effect depends on them:
    - the component state is the prop [mode], the two [useState] cells, and
      the dependency array [[mode, internalMode]] of the last effect run;
    - [setTimeout] appends a timer to the browser's pending timers and
      returns its handle, [clearTimeout] removes the timer with that handle
      (if any), a timer may fire once the clock has reached its due time;
    - after every state change React re-renders; when the dependency array
      differs from the one of the last run it calls the cleanup of the last
      run and the effect again.
    Time is in milliseconds. *)

(** The two arrow functions given to [setTimeout]; the second one closes
    over the [mode] of the render that scheduled it. *)
Inductive Callback : Type :=
  | CloseLid
  | SetInternalMode (m : AppMode).

Record Timer : Type := mkTimer
  { handle : nat; due : nat; callback : Callback }.

Record SceneState : Type := mkSceneState
  { mode : AppMode;
    internalMode : AppMode;
    isBoxOpen : bool;
    lastDeps : option (AppMode * AppMode);
    timeout : option nat;
    timers : list Timer;
    nextHandle : nat;
    now : nat }.

Definition setInternalMode (m : AppMode) (s : SceneState) : SceneState :=
  mkSceneState (mode s) m (isBoxOpen s) (lastDeps s) (timeout s) (timers s)
    (nextHandle s) (now s).

Definition setIsBoxOpen (b : bool) (s : SceneState) : SceneState :=
  mkSceneState (mode s) (internalMode s) b (lastDeps s) (timeout s) (timers s)
    (nextHandle s) (now s).

Definition setModeProp (m : AppMode) (s : SceneState) : SceneState :=
  mkSceneState m (internalMode s) (isBoxOpen s) (lastDeps s) (timeout s)
    (timers s) (nextHandle s) (now s).

(** [timeout = setTimeout(cb, delay)] *)
Definition setTimeout (cb : Callback) (delay : nat) (s : SceneState) : SceneState :=
  mkSceneState (mode s) (internalMode s) (isBoxOpen s) (lastDeps s)
    (Some (nextHandle s))
    (timers s ++ [mkTimer (nextHandle s) (now s + delay) cb])
    (S (nextHandle s)) (now s).

(** [clearTimeout(timeout)]; [timeout] is [undefined] when the last run
    scheduled nothing. *)
Definition clearTimeout (h : option nat) (s : SceneState) : SceneState :=
  match h with
  | None => s
  | Some i =>
      mkSceneState (mode s) (internalMode s) (isBoxOpen s) (lastDeps s)
        (timeout s)
        (filter (fun t => negb (Nat.eqb (handle t) i)) (timers s))
        (nextHandle s) (now s)
  end.

(** The body of the effect, run in a render whose [mode] and [internalMode]
    are the ones of [s]; [let timeout] starts undefined. *)
Definition effect (s : SceneState) : SceneState :=
  let m := mode s in
  let im := internalMode s in
  let s0 := mkSceneState (mode s) (internalMode s) (isBoxOpen s) (lastDeps s)
              None (timers s) (nextHandle s) (now s) in
  match m with
  | INITIAL =>
      let s1 := setInternalMode INITIAL s0 in
      setTimeout CloseLid 500 s1
  | _ =>
      let s1 := setIsBoxOpen true s0 in
      match im with
      | INITIAL => setTimeout (SetInternalMode m) 350 s1
      | _ => setInternalMode m s1
      end
  end.

Definition deps_eqb (a : option (AppMode * AppMode)) (m im : AppMode) : bool :=
  match a with
  | None => false
  | Some (m', im') => AppMode_eqb m' m && AppMode_eqb im' im
  end.

Definition recordDeps (m im : AppMode) (s : SceneState) : SceneState :=
  mkSceneState (mode s) (internalMode s) (isBoxOpen s) (Some (m, im))
    (timeout s) (timers s) (nextHandle s) (now s).

(** Render and flush effects: while the dependencies differ from the last
    run's, clean up, run the effect, render again.  [fuel] bounds the number
    of effect runs. *)
Fixpoint commit (fuel : nat) (s : SceneState) : SceneState :=
  match fuel with
  | O => s
  | S k =>
      if deps_eqb (lastDeps s) (mode s) (internalMode s) then s
      else
        let m := mode s in
        let im := internalMode s in
        commit k (recordDeps m im (effect (clearTimeout (timeout s) s)))
  end.

(** Two effect runs always reach a render whose dependencies are unchanged
    ([commit_settles]); the third unit of fuel observes it. *)
Definition render (s : SceneState) : SceneState := commit 3 s.

Definition settled (s : SceneState) : Prop :=
  lastDeps s = Some (mode s, internalMode s).

Definition runCallback (cb : Callback) (s : SceneState) : SceneState :=
  match cb with
  | CloseLid => setIsBoxOpen false s
  | SetInternalMode m => setInternalMode m s
  end.

Definition removeTimer (i : nat) (s : SceneState) : SceneState :=
  mkSceneState (mode s) (internalMode s) (isBoxOpen s) (lastDeps s) (timeout s)
    (filter (fun t => negb (Nat.eqb (handle t) i)) (timers s))
    (nextHandle s) (now s).

Definition elapse (d : nat) (s : SceneState) : SceneState :=
  mkSceneState (mode s) (internalMode s) (isBoxOpen s) (lastDeps s) (timeout s)
    (timers s) (nextHandle s) (now s + d).

(** What can happen to a mounted [Scene]: the parent passes a new [mode],
    time passes, or the browser fires the pending timer with handle [i]
    (possible only at or after its due time). *)
Inductive Event : Type :=
  | SetMode (m : AppMode)
  | Elapse (d : nat)
  | Fire (i : nat).

Definition fire (i : nat) (s : SceneState) : SceneState :=
  match find (fun t => Nat.eqb (handle t) i) (timers s) with
  | Some t =>
      if Nat.leb (due t) (now s)
      then render (runCallback (callback t) (removeTimer i s))
      else s
  | None => s
  end.

Definition step (e : Event) (s : SceneState) : SceneState :=
  match e with
  | SetMode m => render (setModeProp m s)
  | Elapse d => elapse d s
  | Fire i => fire i s
  end.

Definition run (tr : list Event) (s : SceneState) : SceneState :=
  fold_left (fun s e => step e s) tr s.

(** [App]'s [useState<AppMode>('INITIAL')], [Scene]'s two [useState]
    initial values, no effect run yet, no timer. *)
Definition unmounted : SceneState :=
  mkSceneState INITIAL INITIAL false None None [] 1 0.

(** Session start: the first render, whose effect runs once. *)
Definition session_start : SceneState := render unmounted.

(** A browser that fires every timer in the millisecond it falls due:
    one millisecond passes, then the timers pending at that moment are
    offered to [fire] in scheduling order. *)
Definition millisecond (s : SceneState) : SceneState :=
  let s1 := elapse 1 s in
  fold_left (fun s t => fire (handle t) s) (timers s1) s1.

Definition advance (d : nat) (s : SceneState) : SceneState :=
  Nat.iter d millisecond s.

(** ** [Scene.tsx]: the ornament generator ([useMemo], lines 177-281)

    The part of each configuration that places the ornament on the tree.
    [Math.random()] is an input: [typeDraw i] is the draw that selects the
    type in iteration [i].  The scatter and initial targets and the scale
    come from further, independent draws and do not enter the tree
    placement. *)

Local Open Scope R_scope.

Record Vector3R : Type := mkVector3R { rx : R; ry : R; rz : R }.

Record EulerR : Type := mkEulerR { rex : R; rey : R; rez : R }.

Record TreeConfig : Type := mkTreeConfig
  { c_id : nat; c_type : OrnamentType; c_treePos : Vector3R; c_treeRot : EulerR }.

Definition types : list OrnamentType :=
  [ camera; camera; camera; camera; camera; camera;
    gift; gift; gift; gift;
    snowman; snowman; snowman;
    star; star;
    snowflake; snowflake;
    goldTree; goldTree;
    redBulb; redBulb; redBulb;
    yellowBulb; yellowBulb; yellowBulb ].

Definition count : nat := 90.

(** [Math.PI * (3 - Math.sqrt(5))] *)
Definition goldenAngle : R := PI * (3 - sqrt 5).

Definition topperConfig : TreeConfig :=
  mkTreeConfig 0 topper (mkVector3R 0 (98 / 10) 0) (mkEulerR 0 0 0).

Definition hProgress (i : nat) : R := INR i / INR count.

Definition placement_y (i : nat) : R := -5 + hProgress i * 12.

Definition normalizedH (i : nat) : R := (placement_y i + 6) / 16.

Definition coneRadius (i : nat) : R := (68 / 10) * (1 - Rmax 0 (normalizedH i)).

Definition radius (i : nat) : R := coneRadius i + 6 / 10.

Definition theta (i : nat) : R := INR i * goldenAngle.

Definition decoration_treePos (i : nat) : Vector3R :=
  mkVector3R (radius i * cos (theta i)) (placement_y i) (radius i * sin (theta i)).

Definition is_flat_type (ty : OrnamentType) : bool :=
  match ty with
  | star | snowflake | goldTree => true
  | _ => false
  end.

Definition is_bulb (ty : OrnamentType) : bool :=
  match ty with
  | redBulb | yellowBulb => true
  | _ => false
  end.

(** [new THREE.Euler(0, -theta, 0)], then [treeRot.y += Math.PI / 2] and
    [treeRot.x -= Math.PI / 4] for the types concerned. *)
Definition decoration_treeRot (i : nat) (ty : OrnamentType) : EulerR :=
  let rot0 := mkEulerR 0 (- theta i) 0 in
  let rot1 := if is_flat_type ty
              then mkEulerR (rex rot0) (rey rot0 + PI / 2) (rez rot0)
              else rot0 in
  if is_bulb ty
  then mkEulerR (rex rot1 - PI / 4) (rey rot1) (rez rot1)
  else rot1.

(** [types[Math.floor(u * types.length)]] for a draw [u] in [[0, 1)]. *)
Definition pickType (u : R) : OrnamentType :=
  nth (Z.to_nat (Int_part (u * INR (length types)))) types camera.

Definition decoration (i : nat) (u : R) : TreeConfig :=
  let ty := pickType u in
  mkTreeConfig i ty (decoration_treePos i) (decoration_treeRot i ty).

(** [configs]: the topper, then [for (let i = 1; i < count; i++)]. *)
Definition ornaments (typeDraw : nat -> R) : list TreeConfig :=
  topperConfig :: map (fun i => decoration i (typeDraw i)) (seq 1 (count - 1)).

(** Distance of a rational point from the vertical axis. *)
Definition horizontal_distance (p : Vector3) : R :=
  sqrt (Q2R (vx p * vx p + vz p * vz p)).

Local Close Scope R_scope.

(** ** The states the orchestrator can be in

    Four shapes, up to handles and clock: lid shut and nothing pending;
    items sent home and the lid-closing timer pending; lid open and the
    timer that releases the items pending; open. *)

Definition st_closed (h : option nat) (nh nw : nat) : SceneState :=
  mkSceneState INITIAL INITIAL false (Some (INITIAL, INITIAL)) h [] nh nw.

Definition st_closing (lid : bool) (h du nh nw : nat) : SceneState :=
  mkSceneState INITIAL INITIAL lid (Some (INITIAL, INITIAL)) (Some h)
    [mkTimer h du CloseLid] nh nw.

Definition st_opening (m : AppMode) (h du nh nw : nat) : SceneState :=
  mkSceneState m INITIAL true (Some (m, INITIAL)) (Some h)
    [mkTimer h du (SetInternalMode m)] nh nw.

Definition st_open (m : AppMode) (h : option nat) (nh nw : nat) : SceneState :=
  mkSceneState m m true (Some (m, m)) h [] nh nw.

Inductive orchestrated : SceneState -> Prop :=
  | orch_closed : forall h nh nw, orchestrated (st_closed h nh nw)
  | orch_closing : forall lid h du nh nw, orchestrated (st_closing lid h du nh nw)
  | orch_opening : forall m h du nh nw,
      m <> INITIAL -> orchestrated (st_opening m h du nh nw)
  | orch_open : forall m h nh nw,
      m <> INITIAL -> orchestrated (st_open m h nh nw).

(** The callback the latest effect run leaves pending for a requested
    mode. *)
Definition pending_for (m : AppMode) : Callback :=
  match m with
  | INITIAL => CloseLid
  | _ => SetInternalMode m
  end.

(** No pending release of the items falls due before [limit]. *)
Definition release_not_before (limit : nat) (s : SceneState) : Prop :=
  forall t m, In t (timers s) -> callback t = SetInternalMode m -> limit <= due t.

(** No pending closing of the lid falls due before [limit]. *)
Definition closing_not_before (limit : nat) (s : SceneState) : Prop :=
  forall t, In t (timers s) -> callback t = CloseLid -> limit <= due t.

(** Items stay in the box: from [t0] on, as long as the clock is below
    [t0 + 350], [internalMode] is INITIAL and every pending release is due
    at [t0 + 350] or later. *)
Definition release_window (t0 : nat) (s : SceneState) : Prop :=
  orchestrated s /\ internalMode s = INITIAL /\ t0 <= now s /\
  release_not_before (t0 + 350) s.

(** The lid stays open: from [t0] on, as long as the clock is below
    [t0 + 500], the lid is open and every pending lid-closing is due at
    [t0 + 500] or later. *)
Definition closing_window (t0 : nat) (s : SceneState) : Prop :=
  orchestrated s /\ isBoxOpen s = true /\ t0 <= now s /\
  closing_not_before (t0 + 500) s.

(** * Further code of the same files

    The rest of what the files compute: the voxel generator and the start
    state of [VoxelTree.tsx], the remaining fields of the ornament generator
    of [Scene.tsx], and the three animated helpers of [Ornaments.tsx] (the
    lid of [IntroGiftBox], [ConfettiExplosion], [FairyLights]) with the
    vertex list of [FacetedStarGeometry].  Every [Math.random()] is an input
    of the model; the properties hold for every value of the draws, or for
    every draw in [[0, 1)] where they say so. *)

(** ** More vocabulary for the orchestrator *)

(** Every pending timer falls due within 500 ms. *)
Definition timely (s : SceneState) : Prop :=
  forall t, In t (timers s) -> due t <= now s + 500.

(** Every pending timer has a handle the browser has already given out. *)
Definition handles_given (s : SceneState) : Prop :=
  forall t, In t (timers s) -> handle t < nextHandle s.

(** Nothing pending, the items where the request wants them, the lid open
    exactly when the request is not INITIAL. *)
Definition at_rest (s : SceneState) : Prop :=
  timers s = [] /\ internalMode s = mode s /\
  isBoxOpen s = negb (AppMode_eqb (mode s) INITIAL).

Local Open Scope Q_scope.

(** ** [VoxelTree.tsx]: the voxel generator (lines 17-68) *)

(** The colours a voxel can get: the four entries of [colors] and the
    literal ['#2A2A2A'] of the trunk. *)
Inductive VoxelColor : Type :=
  | DeepForest | ForestGreen | SageGreen | LightFern | Trunk2A2A2A.

(** [VoxelData]; [color] is [None] where JavaScript would store
    [undefined] (an index outside [colors]). *)
Record VoxelData : Type := mkVoxelData
  { v_position : Z * Z * Z; v_color : option VoxelColor }.

Definition colors : list VoxelColor := [DeepForest; ForestGreen; SageGreen; LightFern].

Definition treeHeight : Z := 16.

Definition maxRadius : Q := 6.5.

Definition radiusAtHeight (y : Z) : Q :=
  maxRadius * (1 - inject_Z y / inject_Z treeHeight).

(** [Math.ceil(radiusAtHeight)] *)
Definition scanRange (y : Z) : Z := Qceiling (radiusAtHeight y).

(** [Math.sqrt(n) <= q] for an integer [n >= 0], decided on the squares
    ([sqrt_le_spec] relates it to the real square root). *)
Definition sqrt_le (n : Z) (q : Q) : bool :=
  Qle_bool 0 q && Qle_bool (inject_Z n) (q * q).

(** The three draws a grid cell may consume: the noise of the radius, the
    random skip, the colour. *)
Record CellDraws : Type := mkCellDraws
  { noiseDraw : Q; skipDraw : Q; colorDraw : Q }.

(** The body of the innermost loop: what the cell [(x, y, z)] pushes. *)
Definition voxel_cell (dr : CellDraws) (y x z : Z) : list VoxelData :=
  let dist2 := (x * x + z * z)%Z in
  let noise := (noiseDraw dr - 0.5) * 1.5 in
  if sqrt_le dist2 (radiusAtHeight y + noise) && negb (sqrt_le dist2 0.5) then
    if negb (Qle_bool (skipDraw dr) 0.15) then
      [mkVoxelData (x, (y - 6)%Z, z)
         (nth_error colors (Z.to_nat (Qfloor (colorDraw dr * inject_Z (Z.of_nat (length colors))))))]
    else []
  else if sqrt_le dist2 0.5 && (y <? 3)%Z then
    [mkVoxelData (x, (y - 6)%Z, z) (Some Trunk2A2A2A)]
  else [].

(** [for (let k = lo; k <= hi; k++)] *)
Definition Zrange (lo hi : Z) : list Z :=
  map (fun k => (lo + Z.of_nat k)%Z) (seq 0 (Z.to_nat (hi - lo + 1))).

(** The generator; [draws y x z] are the draws consumed in cell
    [(x, y, z)]. *)
Definition voxels (draws : Z -> Z -> Z -> CellDraws) : list VoxelData :=
  flat_map (fun y =>
    let scan := scanRange y in
    flat_map (fun x =>
      flat_map (fun z => voxel_cell (draws y x z) y x z) (Zrange (- scan) scan))
      (Zrange (- scan) scan))
    (Zrange 0 (treeHeight - 1)).

(** ** [VoxelTree.tsx]: [instancesData] and the start state (lines 71-134) *)

(** [initialPos], lines 88-92. *)
Definition voxel_initialPos (u1 u2 u3 : Q) : Vector3 :=
  mkVector3 ((u1 - 0.5) * 2.8) (-5.5 + u2 * 3) ((u3 - 0.5) * 2.8).

(** [new THREE.Vector3(...v.position)] *)
Definition Vector3_of_position (p : Z * Z * Z) : Vector3 :=
  let '(x, y, z) := p in mkVector3 (inject_Z x) (inject_Z y) (inject_Z z).

(** One entry of [instancesData].  The scatter position and the two random
    orientations are built with [sin], [cos] and [acos]; they are inputs
    here.  [treeRot] is [new THREE.Quaternion()], the identity. *)
Definition instance_of (v : VoxelData) (scatter : Vector3)
    (initialR scatterR : Quaternion) (u1 u2 u3 : Q) : InstanceData :=
  mkInstanceData (Vector3_of_position (v_position v)) scatter
    (voxel_initialPos u1 u2 u3) identityQ initialR scatterR.

(** [currentPositions[i]] and [currentQuaternions[i]] as created: clones of
    [initialPos] and [initialRot]. *)
Definition voxel_start (d : InstanceData) : VoxelCurrent :=
  mkVoxelCurrent (initialPos d) (initialRot d).

(** ** [Scene.tsx]: the other fields of a decoration (lines 256-266) *)

Definition ornament_initialPos (u1 u2 u3 : Q) : Vector3 :=
  mkVector3 ((u1 - 0.5) * 2.5) (-5.5 + u2 * 2.5) ((u3 - 0.5) * 2.5).

Definition is_camera (ty : OrnamentType) : bool :=
  match ty with
  | camera => true
  | _ => false
  end.

(** [let scale = 0.6 + Math.random() * 0.4], then the two overrides. *)
Definition decoration_scale (ty : OrnamentType) (u : Q) : Q :=
  let scale0 := 0.6 + u * 0.4 in
  let scale1 := if is_bulb ty then 0.8 else scale0 in
  if is_camera ty then 1.1 else scale1.

(** Frames that all run in the same mode. *)
Definition frames_in (mode : AppMode) (deltas : list Q) : list (AppMode * Q) :=
  map (fun delta => (mode, delta)) deltas.

(** What is left of an offset after frames with factors
    [min(1, delta * rate) * weight]. *)
Definition remaining (rate weight : Q) (deltas : list Q) : Q :=
  fold_right (fun delta acc => (1 - Qmin 1 (delta * rate) * weight) * acc) 1 deltas.

(** ** [Ornaments.tsx]: the lid of [IntroGiftBox] (lines 297-314) *)

(** The three coordinates of [lidRef.current] the frame callback writes. *)
Record LidState : Type := mkLidState
  { lid_rotation_x : Q; lid_position_y : Q; lid_position_z : Q }.

Definition boxSize : Q := 3.5.

Definition lidHeight : Q := 0.8.

(** The lid as mounted: [position={[0, boxSize/2 + lidHeight/2 - 0.1, 0]}],
    no rotation. *)
Definition lid_mounted : LidState :=
  mkLidState 0 (boxSize / 2 + lidHeight / 2 - 0.1) 0.

Section Lid.

(** [Math.PI], a binary64 constant. *)
Variable Math_PI : Q.

Definition lid_targetRotation (isOpen : bool) : Q :=
  if isOpen then - Math_PI / 1.8 else 0.

Definition lid_targetY (isOpen : bool) : Q :=
  if isOpen then 2 else boxSize / 2 + lidHeight / 2 - 0.1.

Definition lid_targetZ (isOpen : bool) : Q :=
  if isOpen then -2 else 0.

(** The factor [delta * 3] is passed to [lerp] as it is. *)
Definition IntroGiftBox_useFrame (isOpen : bool) (delta : Q)
    (lidRef : option LidState) : option LidState :=
  match lidRef with
  | None => None
  | Some lid =>
      let rx := lerp (lid_rotation_x lid) (lid_targetRotation isOpen) (delta * 3) in
      let py := lerp (lid_position_y lid) (lid_targetY isOpen) (delta * 3) in
      let pz := lerp (lid_position_z lid) (lid_targetZ isOpen) (delta * 3) in
      Some (mkLidState rx py pz)
  end.

Definition lid_run (isOpen : bool) (deltas : list Q) (lidRef : option LidState)
    : option LidState :=
  fold_left (fun l delta => IntroGiftBox_useFrame isOpen delta l) deltas lidRef.

End Lid.

(** What is left of an offset after frames whose factor [delta * rate] is
    not clamped. *)
Definition unclamped (rate : Q) (deltas : list Q) : Q :=
  fold_right (fun delta acc => (1 - delta * rate) * acc) 1 deltas.

(** ** [Ornaments.tsx]: [ConfettiExplosion] (lines 183-239) *)

(** [ConfettiData] without its colour, which the frame callback does not
    read. *)
Record Confetti : Type := mkConfetti
  { k_position : Vector3; k_velocity : Vector3; k_rotation : Euler;
    k_rotationSpeed : Vector3; k_scale : Q }.

(** What [dummy] holds when its matrix is stored for a particle. *)
Record ConfettiMatrix : Type := mkConfettiMatrix
  { m_position : Vector3; m_rotation : Euler; m_scale : Vector3 }.

(** [Vector3.addScaledVector(v, s)] *)
Definition addScaledVector (this v : Vector3) (s : Q) : Vector3 :=
  mkVector3 (vx this + vx v * s) (vy this + vy v * s) (vz this + vz v * s).

(** [Vector3.multiplyScalar(s)] *)
Definition multiplyScalar (this : Vector3) (s : Q) : Vector3 :=
  mkVector3 (vx this * s) (vy this * s) (vz this * s).

(** The body of [particles.forEach]: the particle after the frame and the
    [dummy] whose matrix is stored.  [dummy] is filled before the floor
    test. *)
Definition confetti_update (delta : Q) (p : Confetti) : Confetti * ConfettiMatrix :=
  let pos1 := addScaledVector (k_position p) (k_velocity p) (delta * 15) in
  let vel1 := mkVector3 (vx (k_velocity p)) (vy (k_velocity p) - delta * 2)
                (vz (k_velocity p)) in
  let vel2 := multiplyScalar vel1 0.98 in
  let rs := k_rotationSpeed p in
  let rot1 := mkEuler (ex (k_rotation p) + vx rs * delta * 5)
                (ey (k_rotation p) + vy rs * delta * 5)
                (ez (k_rotation p) + vz rs * delta * 5) in
  let shown := mkConfettiMatrix pos1 rot1 (setScalar (k_scale p)) in
  if Qlt_le_dec (vy pos1) (-7) then
    let vel3 := mkVector3 (vx vel2) 0 (vz vel2) in
    let vel4 := mkVector3 0 (vy vel3) (vz vel3) in
    let vel5 := mkVector3 (vx vel4) (vy vel4) 0 in
    let pos2 := mkVector3 (vx pos1) (-7) (vz pos1) in
    (mkConfetti pos2 vel5 rot1 rs (k_scale p), shown)
  else (mkConfetti pos1 vel2 rot1 rs (k_scale p), shown).

(** [if (!meshRef.current || !active) return;], else every particle is
    updated and its matrix stored. *)
Definition ConfettiExplosion_useFrame (active : bool) (delta : Q)
    (meshRef : option (list ConfettiMatrix)) (particles : list Confetti)
    : list Confetti * option (list ConfettiMatrix) :=
  match meshRef with
  | None => (particles, None)
  | Some mats =>
      if active
      then (map (fun p => fst (confetti_update delta p)) particles,
            Some (map (fun p => snd (confetti_update delta p)) particles))
      else (particles, Some mats)
  end.

(** A particle through frames in which the explosion is active and
    mounted. *)
Definition confetti_run (deltas : list Q) (p : Confetti) : Confetti :=
  fold_left (fun q delta => fst (confetti_update delta q)) deltas p.

(** The particle as generated (lines 192-207) from its draws, numbered in
    the order the source makes them; draw 11 picks the colour, which is
    left out. *)
Definition confetti_particle (u : nat -> Q) (Math_PI : Q) : Confetti :=
  mkConfetti
    (mkVector3 ((u 0%nat - 0.5) * 2) (-5 + (u 1%nat - 0.5) * 1) ((u 2%nat - 0.5) * 2))
    (mkVector3 ((u 3%nat - 0.5) * 0.8) (u 4%nat * 1.5 + 0.5) ((u 5%nat - 0.5) * 0.8))
    (mkEuler (u 6%nat * Math_PI) (u 7%nat * Math_PI) 0)
    (mkVector3 (u 8%nat - 0.5) (u 9%nat - 0.5) (u 10%nat - 0.5))
    (u 12%nat * 0.5 + 0.2).

(** ** [Scene.tsx]: how the pieces are wired (lines 340-356)

    [Scene] passes [internalMode] to [VoxelTree] and to every
    [AnimatedOrnament], and [isBoxOpen] to [IntroGiftBox].  A world is the
    orchestration state together with one voxel, one ornament and the lid;
    a frame runs the three [useFrame] bodies with the props of the current
    render. *)

Record World : Type := mkWorld
  { w_scene : SceneState;
    w_voxel : VoxelCurrent * Object3D;
    w_ornament : Object3D;
    w_lid : option LidState }.

Inductive WorldEvent : Type :=
  | Browser (e : Event)
  | Frame (delta : Q).

Section Wiring.

Variable slerp_between : Quaternion -> Quaternion -> Q -> Quaternion.
Variable setFromEuler : Euler -> Quaternion.
Variable Math_PI : Q.
Variable d : InstanceData.
Variable config : OrnamentConfig.

Definition world_step (ev : WorldEvent) (w : World) : World :=
  match ev with
  | Browser e => mkWorld (step e (w_scene w)) (w_voxel w) (w_ornament w) (w_lid w)
  | Frame delta =>
      let m := internalMode (w_scene w) in
      mkWorld (w_scene w)
        (voxel_tick slerp_between m d delta (fst (w_voxel w)) (snd (w_voxel w)))
        (ornament_update slerp_between setFromEuler m config delta (w_ornament w))
        (IntroGiftBox_useFrame Math_PI (isBoxOpen (w_scene w)) delta (w_lid w))
  end.

Definition world_run (evs : list WorldEvent) (w : World) : World :=
  fold_left (fun w ev => world_step ev w) evs w.

End Wiring.

(** The items rest in the box: the voxel and the ornament are on their
    INITIAL targets. *)
Definition items_at_rest (d : InstanceData) (config : OrnamentConfig) (w : World) : Prop :=
  Vector3_eq (currentPosition (fst (w_voxel w))) (initialPos d) /\
  Vector3_eq (position (w_ornament w)) (o_initialPos config).

(** No event of the list is a request. *)
Definition no_request (evs : list WorldEvent) : Prop :=
  forall m, ~ In (Browser (SetMode m)) evs.

(** The deltas of the frames of a list of events, in order. *)
Definition frame_deltas (evs : list WorldEvent) : list Q :=
  flat_map (fun ev => match ev with
                      | Browser _ => []
                      | Frame delta => [delta]
                      end) evs.

(** ** More concrete inputs for the examples *)

(** An instance and a configuration whose scatter target is below the
    rim. *)
Definition sunk_instance : InstanceData :=
  mkInstanceData (mkVector3 3 1 2) (mkVector3 10 (-15) 10) (mkVector3 1 (-5) 1)
    identityQ identityQ identityQ.

Definition sunk_config : OrnamentConfig :=
  mkOrnamentConfig 7 gift (mkVector3 3 1 2) (mkEuler 0 0 0)
    (mkVector3 10 (-15) 10) (mkEuler 0 0 0) (mkVector3 1 (-5) 1) 0.8.

(** A voxel and a group above the rim. *)
Definition raised_voxel : VoxelCurrent := mkVoxelCurrent (mkVector3 1 0 1) identityQ.

Definition raised_group : Object3D :=
  mkObject3D (mkVector3 1 0 1) identityQ (setScalar 1).

(** A decoration generated with all draws at 1/2, and its group resting at
    the initial position. *)
Definition drawn_config : OrnamentConfig :=
  mkOrnamentConfig 7 gift (mkVector3 3 1 2) (mkEuler 0 0 0)
    (mkVector3 10 15 10) (mkEuler 0 0 0)
    (ornament_initialPos (1 # 2) (1 # 2) (1 # 2)) (decoration_scale gift (1 # 2)).

Definition drawn_group : Object3D :=
  mkObject3D (ornament_initialPos (1 # 2) (1 # 2) (1 # 2)) identityQ (setScalar 1).

Definition sample_tree : VoxelTreeState :=
  mkVoxelTreeState [sample_voxel; raised_voxel] sample_dummy
    (Some [sample_dummy; sample_dummy]).

Definition sample_draws (y x z : Z) : CellDraws := mkCellDraws 0.5 0.5 0.5.

(** A confetti particle just above the floor, falling. *)
Definition sample_confetti : Confetti :=
  mkConfetti (mkVector3 0 (-6.9) 0) (mkVector3 1 (-1) 0) (mkEuler 0 0 0)
    (mkVector3 0.1 0.1 0.1) 0.5.

Local Close Scope Q_scope.

Local Open Scope R_scope.

(** ** [Scene.tsx]: the type of a decoration (line 230)

    [types[Math.floor(Math.random() * types.length)]] as JavaScript
    evaluates it for any number [u] in place of the draw: an index below 0
    or past the end of the array gives [undefined], here [None]. *)
Definition types_at (u : R) : option OrnamentType :=
  let k := Int_part (u * INR (length types)) in
  if (k <? 0)%Z then None else nth_error types (Z.to_nat k).

(** ** The scatter position (VoxelTree.tsx 76-83, Scene.tsx 241-248)

    Both generators use the same formula; [uR], [uTheta], [uPhi] are the
    draws of the radius, the longitude and the latitude. *)
Definition scatterPos_of (uR uTheta uPhi : R) : Vector3R :=
  let sR := 12 + uR * 10 in
  let sTheta := uTheta * PI * 2 in
  let sPhi := acos (uPhi * 2 - 1) in
  mkVector3R (sR * sin sPhi * cos sTheta) (sR * sin sPhi * sin sTheta)
             (sR * cos sPhi).

(** ** [Ornaments.tsx]: [FairyLights] (lines 80-118) *)

Record FairyParticle : Type := mkFairyParticle
  { f_position : Vector3R; f_speed : R; f_offset : R }.

(** One generated particle (lines 87-95) from its five draws. *)
Definition fairy_particle (u1 u2 u3 u4 u5 : R) : FairyParticle :=
  mkFairyParticle
    (mkVector3R ((u1 - 5 / 10) * 15) (-2 + u2 * 14) ((u3 - 5 / 10) * 15))
    (u4 * (5 / 10) + 2 / 10) (u5 * 100).

(** The position and the scale given to [dummy] for a particle at elapsed
    time [time]. *)
Definition fairy_shown (time : R) (p : FairyParticle) : Vector3R * R :=
  let y := ry (f_position p) + sin (time * f_speed p + f_offset p) * (5 / 10) in
  let x := rx (f_position p) + cos (time * f_speed p * (5 / 10) + f_offset p) * (3 / 10) in
  let z := rz (f_position p) + sin (time * f_speed p * (3 / 10) + f_offset p) * (3 / 10) in
  let scale := 6 / 10 + sin (time * 2 + f_offset p) * (2 / 10) in
  (mkVector3R x y z, scale).

Definition FairyLights_useFrame (active : bool) (time : R)
    (meshRef : option (list (Vector3R * R))) (particles : list FairyParticle)
    : option (list (Vector3R * R)) :=
  match meshRef with
  | None => None
  | Some mats => if active then Some (map (fairy_shown time) particles) else Some mats
  end.

(** ** [Ornaments.tsx]: the vertices of [FacetedStarGeometry] (lines 140-173) *)

Definition numPoints : nat := 5.

Definition star_angle (i : nat) : R := INR i / INR numPoints * PI * 2.

(** The twelve vertices (four triangles) pushed for point [i]. *)
Definition star_point (outerRadius innerRadius depth : R) (i : nat) : list Vector3R :=
  let angle := star_angle i in
  let nextAngle := star_angle (i + 1) in
  let halfAngle := angle + (nextAngle - angle) / 2 in
  let ox1 := sin angle * outerRadius in
  let oy1 := cos angle * outerRadius in
  let ix := sin halfAngle * innerRadius in
  let iy := cos halfAngle * innerRadius in
  let ox2 := sin nextAngle * outerRadius in
  let oy2 := cos nextAngle * outerRadius in
  [ mkVector3R 0 0 depth; mkVector3R ox1 oy1 0; mkVector3R ix iy 0;
    mkVector3R 0 0 depth; mkVector3R ix iy 0; mkVector3R ox2 oy2 0;
    mkVector3R 0 0 (- depth); mkVector3R ix iy 0; mkVector3R ox1 oy1 0;
    mkVector3R 0 0 (- depth); mkVector3R ox2 oy2 0; mkVector3R ix iy 0 ].

Definition star_vertices (outerRadius innerRadius depth : R) : list Vector3R :=
  flat_map (star_point outerRadius innerRadius depth) (seq 0 numPoints).

Local Close Scope R_scope.

(** * Properties of the interpolators *)

Local Open Scope Q_scope.

Lemma lerp_at_0 (x y t : Q) : t == 0 -> lerp x y t == x.
Proof. intros H. unfold lerp. rewrite H. ring. Qed.

Lemma lerp_at_1 (x y t : Q) : t == 1 -> lerp x y t == y.
Proof. intros H. unfold lerp. rewrite H. ring. Qed.

Lemma Vector3_lerp_is_lerp (p v : Vector3) (t : Q) :
  vx (Vector3_lerp p v t) == lerp (vx p) (vx v) t /\
  vy (Vector3_lerp p v t) == lerp (vy p) (vy v) t /\
  vz (Vector3_lerp p v t) == lerp (vz p) (vz v) t.
Proof. unfold lerp; simpl; repeat split; ring. Qed.

Lemma Vector3_lerp_at_0 (p v : Vector3) (t : Q) :
  t == 0 -> Vector3_eq (Vector3_lerp p v t) p.
Proof. intros H. unfold Vector3_eq; simpl. rewrite H. repeat split; ring. Qed.

Lemma Vector3_lerp_at_1 (p v : Vector3) (t : Q) :
  t == 1 -> Vector3_eq (Vector3_lerp p v t) v.
Proof. intros H. unfold Vector3_eq; simpl. rewrite H. repeat split; ring. Qed.

Lemma Qmin_1_range (x : Q) : 0 <= x -> 0 <= Qmin 1 x <= 1.
Proof.
  intros Hx. split.
  - apply Q.min_glb; [discriminate | exact Hx].
  - apply Q.le_min_l.
Qed.

Lemma Qmin_1_clamped (x : Q) : 1 <= x -> Qmin 1 x == 1.
Proof. intros Hx. apply Q.min_l. exact Hx. Qed.

(** [Math.min(1, x)] returns its first argument when [1 <= x]. *)
Lemma Qmin_1_is_1 (x : Q) : 1 <= x -> Qmin 1 x = 1.
Proof.
  intros Hx. unfold Qmin, GenericMinMax.gmin.
  destruct (1 ?= x) eqn:E; try reflexivity.
  exfalso. apply Qle_alt in Hx. apply Hx. exact E.
Qed.

Lemma Qmin_1_pos (x : Q) : 0 < x -> 0 < Qmin 1 x.
Proof.
  intros Hx. destruct (Q.min_spec 1 x) as [[_ E] | [_ E]]; rewrite E.
  - reflexivity.
  - exact Hx.
Qed.

Lemma voxel_step_range (delta : Q) : 0 <= delta -> 0 <= voxel_step delta <= 1.
Proof. intros H. apply Qmin_1_range. lra. Qed.

Lemma ornament_step_range (delta : Q) : 0 <= delta -> 0 <= ornament_step delta <= 1.
Proof. intros H. apply Qmin_1_range. lra. Qed.

Lemma voxel_step_clamped (delta : Q) : 1 / 2.5 <= delta -> voxel_step delta == 1.
Proof.
  intros H. apply Qmin_1_clamped.
  assert (E : 1 / 2.5 == 2 # 5) by reflexivity. rewrite E in H. lra.
Qed.

Lemma ornament_step_clamped (delta : Q) : 1 / 3 <= delta -> ornament_step delta == 1.
Proof.
  intros H. apply Qmin_1_clamped.
  assert (E : 1 / 3 == 1 # 3) by reflexivity. rewrite E in H. lra.
Qed.

Lemma voxel_step_0 : voxel_step 0 == 0.
Proof. reflexivity. Qed.

Lemma ornament_step_0 : ornament_step 0 == 0.
Proof. reflexivity. Qed.

Section RotationFacts.

Variable slerp_between : Quaternion -> Quaternion -> Q -> Quaternion.
Variable setFromEuler : Euler -> Quaternion.

Local Abbreviation slerp' := (slerp slerp_between).
Local Abbreviation voxel_tick' := (voxel_tick slerp_between).
Local Abbreviation voxel_run' := (voxel_run slerp_between).
Local Abbreviation ornament_update' := (ornament_update slerp_between setFromEuler).
Local Abbreviation ornament_run' := (ornament_run slerp_between setFromEuler).

Lemma slerp_at_0 (q qb : Quaternion) (t : Q) : t == 0 -> slerp' q qb t = q.
Proof.
  intros H. unfold slerp.
  apply Qeq_bool_iff in H. rewrite H. reflexivity.
Qed.

Lemma slerp_at_1 (q qb : Quaternion) (t : Q) : t == 1 -> slerp' q qb t = qb.
Proof.
  intros H. unfold slerp.
  destruct (Qeq_bool t 0) eqn:E0.
  - apply Qeq_bool_iff in E0. rewrite E0 in H. discriminate H.
  - apply Qeq_bool_iff in H. rewrite H. reflexivity.
Qed.

(** The position part of one voxel iteration, by cases on what the source
    tests. *)
Lemma voxel_move_fountain (step : Q) (target cur : Vector3) :
  vy cur < -2 ->
  vx (voxel_move SCATTERED step target cur) == lerp (vx cur) 0 (step * 0.5) /\
  vy (voxel_move SCATTERED step target cur) == lerp (vy cur) (vy target) step /\
  vz (voxel_move SCATTERED step target cur) == lerp (vz cur) 0 (step * 0.5).
Proof.
  intros Hy. unfold voxel_move.
  destruct (Qlt_le_dec (vy cur) (-2)) as [_ | Hge].
  - simpl. repeat split; reflexivity.
  - exfalso. apply (Qlt_not_le _ _ Hy Hge).
Qed.

Lemma voxel_move_standard (m : AppMode) (step : Q) (target cur : Vector3) :
  ~ (m = SCATTERED /\ vy cur < -2) ->
  voxel_move m step target cur = Vector3_lerp cur target step.
Proof.
  intros Hn. unfold voxel_move. destruct m; try reflexivity.
  destruct (Qlt_le_dec (vy cur) (-2)) as [Hlt | _]; [ | reflexivity].
  exfalso. apply Hn. split; [reflexivity | exact Hlt].
Qed.

Lemma ornament_move_fountain (step : Q) (target cur : Vector3) :
  vy cur < -1 ->
  vx (ornament_move SCATTERED step target cur) == lerp (vx cur) 0 (step * 0.5) /\
  vy (ornament_move SCATTERED step target cur) == lerp (vy cur) (vy target) step /\
  vz (ornament_move SCATTERED step target cur) == lerp (vz cur) 0 (step * 0.5).
Proof.
  intros Hy. unfold ornament_move.
  destruct (Qlt_le_dec (vy cur) (-1)) as [_ | Hge].
  - simpl. repeat split; reflexivity.
  - exfalso. apply (Qlt_not_le _ _ Hy Hge).
Qed.

Lemma ornament_move_standard (m : AppMode) (step : Q) (target cur : Vector3) :
  ~ (m = SCATTERED /\ vy cur < -1) ->
  ornament_move m step target cur = Vector3_lerp cur target step.
Proof.
  intros Hn. unfold ornament_move. destruct m; try reflexivity.
  destruct (Qlt_le_dec (vy cur) (-1)) as [Hlt | _]; [ | reflexivity].
  exfalso. apply Hn. split; [reflexivity | exact Hlt].
Qed.

Lemma voxel_tick_position (m : AppMode) (d : InstanceData) (delta : Q)
    (cur : VoxelCurrent) (dm : Object3D) :
  currentPosition (fst (voxel_tick' m d delta cur dm)) =
  voxel_move m (voxel_step delta) (voxel_targetPos m d) (currentPosition cur).
Proof. reflexivity. Qed.

Lemma voxel_tick_dummy_position (m : AppMode) (d : InstanceData) (delta : Q)
    (cur : VoxelCurrent) (dm : Object3D) :
  position (snd (voxel_tick' m d delta cur dm)) =
  currentPosition (fst (voxel_tick' m d delta cur dm)).
Proof. reflexivity. Qed.

Lemma ornament_update_position (m : AppMode) (config : OrnamentConfig)
    (delta : Q) (g : Object3D) :
  position (ornament_update' m config delta g) =
  ornament_move m (ornament_step delta) (ornament_targetPos m config) (position g).
Proof. reflexivity. Qed.

(** C1.  At every tick of every run, whatever the frames before it were,
    the fountain override is taken exactly when the mode is SCATTERED and
    the current Y is below the rim threshold ([-2] for a voxel, [-1] for an
    ornament): then X and Z are lerped toward 0 with factor [step * 0.5] and
    Y toward the SCATTERED target's Y with factor [step]; in every other
    case the three coordinates are lerped toward the selected target with
    factor [step].  The case is decided by the current position alone. *)
Theorem C1_fountain_override_each_tick :
  forall (d : InstanceData) (config : OrnamentConfig)
         (vhistory ohistory : list (AppMode * Q))
         (v0 : VoxelCurrent * Object3D) (g0 : Object3D)
         (m : AppMode) (delta : Q),
    let v := voxel_run' d vhistory v0 in
    let p := currentPosition (fst v) in
    let p' := currentPosition (fst (voxel_tick' m d delta (fst v) (snd v))) in
    let g := ornament_run' config ohistory g0 in
    let o := position g in
    let o' := position (ornament_update' m config delta g) in
    ((m = SCATTERED /\ vy p < -2) ->
       vx p' == lerp (vx p) 0 (voxel_step delta * 0.5) /\
       vz p' == lerp (vz p) 0 (voxel_step delta * 0.5) /\
       vy p' == lerp (vy p) (vy (scatterPos d)) (voxel_step delta)) /\
    (~ (m = SCATTERED /\ vy p < -2) ->
       vx p' == lerp (vx p) (vx (voxel_targetPos m d)) (voxel_step delta) /\
       vy p' == lerp (vy p) (vy (voxel_targetPos m d)) (voxel_step delta) /\
       vz p' == lerp (vz p) (vz (voxel_targetPos m d)) (voxel_step delta)) /\
    ((m = SCATTERED /\ vy o < -1) ->
       vx o' == lerp (vx o) 0 (ornament_step delta * 0.5) /\
       vz o' == lerp (vz o) 0 (ornament_step delta * 0.5) /\
       vy o' == lerp (vy o) (vy (o_scatterPos config)) (ornament_step delta)) /\
    (~ (m = SCATTERED /\ vy o < -1) ->
       vx o' == lerp (vx o) (vx (ornament_targetPos m config)) (ornament_step delta) /\
       vy o' == lerp (vy o) (vy (ornament_targetPos m config)) (ornament_step delta) /\
       vz o' == lerp (vz o) (vz (ornament_targetPos m config)) (ornament_step delta)).
Proof.
  intros d config vhistory ohistory v0 g0 m delta v p p' g o o'.
  subst p' o'. rewrite voxel_tick_position, ornament_update_position.
  fold p o. repeat split.
  - destruct H as [-> Hy].
    apply (voxel_move_fountain (voxel_step delta) (scatterPos d) p Hy).
  - destruct H as [-> Hy].
    apply (voxel_move_fountain (voxel_step delta) (scatterPos d) p Hy).
  - destruct H as [-> Hy].
    apply (voxel_move_fountain (voxel_step delta) (scatterPos d) p Hy).
  - rewrite (voxel_move_standard _ _ _ _ H). apply Vector3_lerp_is_lerp.
  - rewrite (voxel_move_standard _ _ _ _ H). apply Vector3_lerp_is_lerp.
  - rewrite (voxel_move_standard _ _ _ _ H). apply Vector3_lerp_is_lerp.
  - destruct H as [-> Hy].
    apply (ornament_move_fountain (ornament_step delta) (o_scatterPos config) o Hy).
  - destruct H as [-> Hy].
    apply (ornament_move_fountain (ornament_step delta) (o_scatterPos config) o Hy).
  - destruct H as [-> Hy].
    apply (ornament_move_fountain (ornament_step delta) (o_scatterPos config) o Hy).
  - rewrite (ornament_move_standard _ _ _ _ H). apply Vector3_lerp_is_lerp.
  - rewrite (ornament_move_standard _ _ _ _ H). apply Vector3_lerp_is_lerp.
  - rewrite (ornament_move_standard _ _ _ _ H). apply Vector3_lerp_is_lerp.
Qed.


Lemma voxel_tick_scale (m : AppMode) (d : InstanceData) (delta : Q)
    (cur : VoxelCurrent) (dm : Object3D) :
  scale (snd (voxel_tick' m d delta cur dm)) = setScalar (voxel_targetScale m).
Proof. reflexivity. Qed.

Lemma ornament_update_scale (m : AppMode) (config : OrnamentConfig)
    (delta : Q) (g : Object3D) :
  scale (ornament_update' m config delta g) =
  setScalar (lerp (vx (scale g)) (ornament_targetScale m config) (ornament_step delta)).
Proof. reflexivity. Qed.

(** C2, as the code has it.  The scale target follows the mode (voxels:
    INITIAL 0.2, SCATTERED 0.8, TREE 1; ornaments: INITIAL 0.2, otherwise
    the base scale of the configuration).  At every tick of every run an
    ornament's scale is lerped from its current value toward the target with
    factor [step]; a voxel's displayed scale is set to the target itself,
    independently of the scale displayed before and of [step]. *)
Theorem C2_scale_targets_and_update :
  forall (d : InstanceData) (config : OrnamentConfig)
         (vhistory ohistory : list (AppMode * Q))
         (v0 : VoxelCurrent * Object3D) (g0 : Object3D)
         (m : AppMode) (delta : Q),
    let v := voxel_run' d vhistory v0 in
    let g := ornament_run' config ohistory g0 in
    voxel_targetScale INITIAL = 0.2 /\
    voxel_targetScale SCATTERED = 0.8 /\
    voxel_targetScale TREE = 1 /\
    ornament_targetScale INITIAL config = 0.2 /\
    ornament_targetScale SCATTERED config = o_scale config /\
    ornament_targetScale TREE config = o_scale config /\
    scale (ornament_update' m config delta g) =
      setScalar (lerp (vx (scale g)) (ornament_targetScale m config)
                      (ornament_step delta)) /\
    scale (snd (voxel_tick' m d delta (fst v) (snd v))) =
      setScalar (voxel_targetScale m).
Proof.
  intros. repeat split.
Qed.

(** C3, as the code has it.  For [delta >= 0] the factor is
    [min(1, delta * rate)] and lies in [[0, 1]].  For [delta >= 1 / rate] it
    is 1, and one tick puts the orientation (and an ornament's scale) on the
    target.  When the fountain override is not taken the position is
    [Vector3.lerp] with factor 1: each coordinate becomes
    [x + (v - x) * 1] for the target's [v].  In exact arithmetic, and only
    there, that is the target: the [Vector3_eq] below is an equality of
    rational numbers, and binary64 can leave [x + (v - x) * 1] one rounding
    error away from [v].  When the override is taken only Y lands on the
    target's Y while X and Z are halved. *)
Theorem C3_step_clamp :
  forall (d : InstanceData) (config : OrnamentConfig) (m : AppMode)
         (delta : Q) (cur : VoxelCurrent) (dm g : Object3D),
    0 <= delta ->
    let cur' := fst (voxel_tick' m d delta cur dm) in
    let g' := ornament_update' m config delta g in
    (voxel_step delta = Qmin 1 (delta * 2.5) /\ 0 <= voxel_step delta <= 1) /\
    (ornament_step delta = Qmin 1 (delta * 3) /\ 0 <= ornament_step delta <= 1) /\
    (1 / 2.5 <= delta ->
       voxel_step delta == 1 /\
       currentQuaternion cur' = voxel_targetRot m d /\
       (~ (m = SCATTERED /\ vy (currentPosition cur) < -2) ->
          currentPosition cur'
            = Vector3_lerp (currentPosition cur) (voxel_targetPos m d) 1 /\
          Vector3_eq (currentPosition cur') (voxel_targetPos m d)) /\
       ((m = SCATTERED /\ vy (currentPosition cur) < -2) ->
          vy (currentPosition cur') == vy (voxel_targetPos m d) /\
          vx (currentPosition cur') == vx (currentPosition cur) * 0.5 /\
          vz (currentPosition cur') == vz (currentPosition cur) * 0.5)) /\
    (1 / 3 <= delta ->
       ornament_step delta == 1 /\
       quaternion g' = setFromEuler (ornament_targetRot m config) /\
       Vector3_eq (scale g') (setScalar (ornament_targetScale m config)) /\
       (~ (m = SCATTERED /\ vy (position g) < -1) ->
          position g' = Vector3_lerp (position g) (ornament_targetPos m config) 1 /\
          Vector3_eq (position g') (ornament_targetPos m config)) /\
       ((m = SCATTERED /\ vy (position g) < -1) ->
          vy (position g') == vy (ornament_targetPos m config) /\
          vx (position g') == vx (position g) * 0.5 /\
          vz (position g') == vz (position g) * 0.5)).
Proof.
  intros d config m delta cur dm g Hd cur' g'.
  split; [split; [reflexivity | apply voxel_step_range; exact Hd] | ].
  split; [split; [reflexivity | apply ornament_step_range; exact Hd] | ].
  split.
  - intros Hbig. pose proof (voxel_step_clamped delta Hbig) as H1.
    split; [exact H1 | ]. split; [ | split].
    + subst cur'. simpl. apply slerp_at_1. exact H1.
    + intros Hn. subst cur'. rewrite voxel_tick_position.
      rewrite (voxel_move_standard _ _ _ _ Hn). split.
      * unfold voxel_step. rewrite Qmin_1_is_1; [reflexivity | ].
        assert (E : 1 / 2.5 == 2 # 5) by reflexivity. rewrite E in Hbig. lra.
      * apply Vector3_lerp_at_1. exact H1.
    + intros [-> Hy]. subst cur'. rewrite voxel_tick_position.
      destruct (voxel_move_fountain (voxel_step delta)
                  (voxel_targetPos SCATTERED d) (currentPosition cur) Hy)
        as (Ex & Ey & Ez).
      rewrite Ex, Ey, Ez. unfold lerp. rewrite H1. repeat split; ring.
  - intros Hbig. pose proof (ornament_step_clamped delta Hbig) as H1.
    split; [exact H1 | ]. split; [ | split; [ | split]].
    + subst g'. simpl. apply slerp_at_1. exact H1.
    + subst g'. rewrite ornament_update_scale.
      unfold Vector3_eq, setScalar; simpl.
      repeat split; apply lerp_at_1; exact H1.
    + intros Hn. subst g'. rewrite ornament_update_position.
      rewrite (ornament_move_standard _ _ _ _ Hn). split.
      * unfold ornament_step. rewrite Qmin_1_is_1; [reflexivity | ].
        assert (E : 1 / 3 == 1 # 3) by reflexivity. rewrite E in Hbig. lra.
      * apply Vector3_lerp_at_1. exact H1.
    + intros [-> Hy]. subst g'. rewrite ornament_update_position.
      destruct (ornament_move_fountain (ornament_step delta)
                  (ornament_targetPos SCATTERED config) (position g) Hy)
        as (Ex & Ey & Ez).
      rewrite Ex, Ey, Ez. unfold lerp. rewrite H1. repeat split; ring.
Qed.

Lemma voxel_move_at_0 (m : AppMode) (step : Q) (target p : Vector3) :
  step == 0 -> Vector3_eq (voxel_move m step target p) p.
Proof.
  intros H0. unfold voxel_move.
  destruct m; try (apply Vector3_lerp_at_0; exact H0).
  destruct (Qlt_le_dec (vy p) (-2)).
  - unfold Vector3_eq; simpl. repeat split; apply lerp_at_0; rewrite H0; reflexivity.
  - apply Vector3_lerp_at_0; exact H0.
Qed.

Lemma ornament_move_at_0 (m : AppMode) (step : Q) (target p : Vector3) :
  step == 0 -> Vector3_eq (ornament_move m step target p) p.
Proof.
  intros H0. unfold ornament_move.
  destruct m; try (apply Vector3_lerp_at_0; exact H0).
  destruct (Qlt_le_dec (vy p) (-1)).
  - unfold Vector3_eq; simpl. repeat split; apply lerp_at_0; rewrite H0; reflexivity.
  - apply Vector3_lerp_at_0; exact H0.
Qed.

(** C10.  A tick with [delta = 0] changes nothing of an object's mutable
    state, in every mode and at every position (so in the fountain branch
    and in the standard one): a voxel keeps its position and orientation,
    an ornament keeps its position, its orientation and its current scale
    (the [scale.x] the code reads; the three scale components are set to
    it). *)
Theorem C10_zero_delta_is_identity :
  forall (d : InstanceData) (config : OrnamentConfig) (m : AppMode)
         (cur : VoxelCurrent) (dm g : Object3D),
    let cur' := fst (voxel_tick' m d 0 cur dm) in
    let g' := ornament_update' m config 0 g in
    Vector3_eq (currentPosition cur') (currentPosition cur) /\
    currentQuaternion cur' = currentQuaternion cur /\
    Vector3_eq (position g') (position g) /\
    quaternion g' = quaternion g /\
    vx (scale g') == vx (scale g) /\
    Vector3_eq (scale g') (setScalar (vx (scale g))).
Proof.
  intros d config m cur dm g cur' g'.
  split; [ | split; [ | split; [ | split; [ | split]]]].
  - subst cur'. rewrite voxel_tick_position.
    apply voxel_move_at_0. exact voxel_step_0.
  - subst cur'. simpl. apply slerp_at_0. reflexivity.
  - subst g'. rewrite ornament_update_position.
    apply ornament_move_at_0. exact ornament_step_0.
  - subst g'. simpl. apply slerp_at_0. reflexivity.
  - subst g'. rewrite ornament_update_scale. simpl. apply lerp_at_0. reflexivity.
  - subst g'. rewrite ornament_update_scale.
    unfold Vector3_eq, setScalar; simpl.
    repeat split; apply lerp_at_0; reflexivity.
Qed.

(** *** From one object to the whole frame *)

(** Entry [i] of the arrays after the loop is the loop body applied to
    entry [i] before it; the matrix written for voxel [i] carries the new
    position and orientation and the target scale. *)
Lemma voxel_loop_nth (m : AppMode) (step : Q) :
  forall (data : list InstanceData) (curs : list VoxelCurrent) (dm : Object3D)
         (i : nat) (d : InstanceData) (cur : VoxelCurrent),
    nth_error data i = Some d -> nth_error curs i = Some cur ->
    let pos := voxel_move m step (voxel_targetPos m d) (currentPosition cur) in
    let quat := slerp' (currentQuaternion cur) (voxel_targetRot m d) step in
    nth_error (fst (fst (voxel_loop slerp_between m step data curs dm))) i
      = Some (mkVoxelCurrent pos quat) /\
    nth_error (snd (fst (voxel_loop slerp_between m step data curs dm))) i
      = Some (mkObject3D pos quat (setScalar (voxel_targetScale m))).
Proof.
  induction data as [ | d0 data IH]; intros curs dm i d cur Hd Hc.
  - destruct i; discriminate Hd.
  - destruct curs as [ | cur0 curs]; [destruct i; discriminate Hc | ].
    simpl voxel_loop.
    destruct (voxel_loop slerp_between m step data curs
                (snd (voxel_iteration slerp_between m step d0 cur0 dm)))
      as [[rest mats] dm''] eqn:E.
    unfold voxel_iteration in *. simpl in E. simpl. rewrite E. simpl.
    destruct i as [ | i].
    + injection Hd as <-. injection Hc as <-. split; reflexivity.
    + simpl in Hd, Hc.
      match type of E with
      | voxel_loop _ _ _ _ _ ?dm' = _ => specialize (IH curs dm' i d cur Hd Hc)
      end.
      rewrite E in IH. exact IH.
Qed.

Lemma VoxelTree_useFrame_not_ready (m : AppMode) (data : list InstanceData)
    (delta : Q) (s : VoxelTreeState) :
  meshRef s = None -> VoxelTree_useFrame slerp_between m data delta s = s.
Proof. intros H. unfold VoxelTree_useFrame. rewrite H. reflexivity. Qed.

Lemma VoxelTree_useFrame_nth (m : AppMode) (data : list InstanceData)
    (delta : Q) (s : VoxelTreeState) (i : nat) (d : InstanceData)
    (cur : VoxelCurrent) :
  meshRef s <> None ->
  nth_error data i = Some d -> nth_error (currents s) i = Some cur ->
  nth_error (currents (VoxelTree_useFrame slerp_between m data delta s)) i
    = Some (fst (voxel_tick' m d delta cur (dummy s))).
Proof.
  intros Hr Hd Hc. unfold VoxelTree_useFrame.
  destruct (meshRef s) as [mats0 | ]; [ | contradiction].
  destruct (voxel_loop_nth m (voxel_step delta) data (currents s) (dummy s)
              i d cur Hd Hc) as [Hn _].
  destruct (voxel_loop slerp_between m (voxel_step delta) data (currents s) (dummy s))
    as [[curs mats] dm'].
  simpl in *. exact Hn.
Qed.

Lemma AnimatedOrnament_useFrame_ready (m : AppMode) (config : OrnamentConfig)
    (delta : Q) (g : Object3D) :
  AnimatedOrnament_useFrame slerp_between setFromEuler m config delta (Some g)
    = Some (ornament_update' m config delta g).
Proof. reflexivity. Qed.

Lemma AnimatedOrnament_useFrame_not_ready (m : AppMode) (config : OrnamentConfig)
    (delta : Q) :
  AnimatedOrnament_useFrame slerp_between setFromEuler m config delta None = None.
Proof. reflexivity. Qed.

(** *** Distance from the vertical axis *)

Lemma horizontal_distance_scaled (k : Q) (p p' : Vector3) :
  0 <= k -> vx p' == k * vx p -> vz p' == k * vz p ->
  horizontal_distance p' = (Q2R k * horizontal_distance p)%R.
Proof.
  intros Hk Ex Ez. unfold horizontal_distance.
  assert (E : vx p' * vx p' + vz p' * vz p' == (k * k) * (vx p * vx p + vz p * vz p)).
  { rewrite Ex, Ez. ring. }
  rewrite (Qeq_eqR _ _ E), Q2R_mult, Q2R_mult.
  assert (Hk' : (0 <= Q2R k)%R).
  { rewrite <- RMicromega.Q2R_0. apply Qle_Rle. exact Hk. }
  assert (Hr : (0 <= Q2R (vx p * vx p + vz p * vz p))%R).
  { rewrite <- RMicromega.Q2R_0. apply Qle_Rle. nra. }
  rewrite sqrt_mult; [ | nra | exact Hr].
  rewrite sqrt_square; [reflexivity | exact Hk'].
Qed.

Lemma horizontal_distance_nonneg (p : Vector3) : (0 <= horizontal_distance p)%R.
Proof. apply sqrt_pos. Qed.

Lemma horizontal_distance_pos (p : Vector3) :
  ~ (vx p == 0 /\ vz p == 0) -> (0 < horizontal_distance p)%R.
Proof.
  intros Hn. unfold horizontal_distance. apply sqrt_lt_R0.
  rewrite <- RMicromega.Q2R_0. apply Qlt_Rlt.
  destruct (Qeq_dec (vx p) 0) as [Hx | Hx].
  - destruct (Qeq_dec (vz p) 0) as [Hz | Hz].
    + exfalso. apply Hn. split; assumption.
    + assert (0 < vz p * vz p) by (destruct (Q_dec (vz p) 0) as [[H|H]|H]; [nra | nra | contradiction]).
      nra.
  - assert (0 < vx p * vx p) by (destruct (Q_dec (vx p) 0) as [[H|H]|H]; [nra | nra | contradiction]).
    nra.
Qed.

Lemma horizontal_distance_on_axis (p : Vector3) :
  vx p == 0 -> vz p == 0 -> horizontal_distance p = 0%R.
Proof.
  intros Hx Hz. unfold horizontal_distance.
  assert (E : vx p * vx p + vz p * vz p == 0) by (rewrite Hx, Hz; ring).
  rewrite (Qeq_eqR _ _ E), RMicromega.Q2R_0. apply sqrt_0.
Qed.

(** What one fountain tick does to the distance, for a factor [step] in
    [(0, 1]]. *)
Lemma fountain_distance (step : Q) (p p' : Vector3) :
  0 < step -> step <= 1 ->
  vx p' == lerp (vx p) 0 (step * 0.5) ->
  vz p' == lerp (vz p) 0 (step * 0.5) ->
  horizontal_distance p' = (Q2R (1 - step * 0.5) * horizontal_distance p)%R /\
  (horizontal_distance p' <= horizontal_distance p)%R /\
  (~ (vx p == 0 /\ vz p == 0) -> (horizontal_distance p' < horizontal_distance p)%R) /\
  ((vx p == 0 /\ vz p == 0) -> horizontal_distance p' = horizontal_distance p).
Proof.
  intros H0 H1 Ex Ez.
  assert (Hk0 : 0 <= 1 - step * 0.5) by lra.
  assert (E : horizontal_distance p' = (Q2R (1 - step * 0.5) * horizontal_distance p)%R).
  { apply horizontal_distance_scaled; [exact Hk0 | | ].
    - rewrite Ex. unfold lerp. ring.
    - rewrite Ez. unfold lerp. ring. }
  assert (Hk1 : (Q2R (1 - step * 0.5) < 1)%R).
  { rewrite <- RMicromega.Q2R_1. apply Qlt_Rlt. lra. }
  assert (Hk0' : (0 <= Q2R (1 - step * 0.5))%R).
  { rewrite <- RMicromega.Q2R_0. apply Qle_Rle. exact Hk0. }
  pose proof (horizontal_distance_nonneg p) as Hp.
  split; [exact E | ]. split; [rewrite E; nra | ]. split.
  - intros Hn. pose proof (horizontal_distance_pos p Hn). rewrite E. nra.
  - intros [Hx Hz]. rewrite E, (horizontal_distance_on_axis p Hx Hz). ring.
Qed.

(** C8, as the code has it.  With the mode SCATTERED, the current Y below
    the threshold and [delta > 0], one tick multiplies the distance from the
    vertical axis by [1 - step / 2], a factor in [[1/2, 1)], whatever the
    SCATTERED target is: the distance never grows, it strictly decreases
    when the object is off the axis, and an object on the axis (X = Z = 0)
    stays on it at distance 0. *)
Theorem C8_fountain_damps_horizontal_distance :
  forall (d : InstanceData) (config : OrnamentConfig) (delta : Q)
         (cur : VoxelCurrent) (dm g : Object3D),
    0 < delta ->
    let p := currentPosition cur in
    let p' := currentPosition (fst (voxel_tick' SCATTERED d delta cur dm)) in
    let o := position g in
    let o' := position (ornament_update' SCATTERED config delta g) in
    (vy p < -2 ->
       horizontal_distance p' =
         (Q2R (1 - voxel_step delta * 0.5) * horizontal_distance p)%R /\
       (horizontal_distance p' <= horizontal_distance p)%R /\
       (~ (vx p == 0 /\ vz p == 0) ->
          (horizontal_distance p' < horizontal_distance p)%R) /\
       ((vx p == 0 /\ vz p == 0) ->
          horizontal_distance p' = horizontal_distance p)) /\
    (vy o < -1 ->
       horizontal_distance o' =
         (Q2R (1 - ornament_step delta * 0.5) * horizontal_distance o)%R /\
       (horizontal_distance o' <= horizontal_distance o)%R /\
       (~ (vx o == 0 /\ vz o == 0) ->
          (horizontal_distance o' < horizontal_distance o)%R) /\
       ((vx o == 0 /\ vz o == 0) ->
          horizontal_distance o' = horizontal_distance o)).
Proof.
  intros d config delta cur dm g Hd p p' o o'. split.
  - intros Hy. subst p'. rewrite voxel_tick_position. fold p.
    destruct (voxel_move_fountain (voxel_step delta)
                (voxel_targetPos SCATTERED d) p Hy) as (Ex & _ & Ez).
    apply fountain_distance; try assumption.
    + apply Qmin_1_pos. lra.
    + apply Q.le_min_l.
  - intros Hy. subst o'. rewrite ornament_update_position. fold o.
    destruct (ornament_move_fountain (ornament_step delta)
                (ornament_targetPos SCATTERED config) o Hy) as (Ex & _ & Ez).
    apply fountain_distance; try assumption.
    + apply Qmin_1_pos. lra.
    + apply Q.le_min_l.
Qed.

End RotationFacts.

(** *** Examples on concrete inputs *)

Example voxel_fountain_tick :
  Vector3_eq
    (currentPosition (fst (voxel_tick sample_between SCATTERED sample_instance
                             (1 # 10) sample_voxel sample_dummy)))
    (mkVector3 (7 # 8) 0 (7 # 8)).
Proof. vm_compute. repeat split. Qed.

Example ornament_standard_tick :
  Vector3_eq
    (position (ornament_update sample_between sample_setFromEuler TREE sample_config
                 (1 # 10) sample_group))
    (mkVector3 (16 # 10) (-32 # 10) (13 # 10)).
Proof. vm_compute. repeat split. Qed.

Lemma C1_fountain_override_witness :
  let p' := currentPosition
              (fst (voxel_tick sample_between SCATTERED sample_instance (1 # 10)
                      sample_voxel sample_dummy)) in
  let o' := position (ornament_update sample_between sample_setFromEuler TREE
                        sample_config (1 # 10) sample_group) in
  (vx p' == lerp 1 0 (voxel_step (1 # 10) * 0.5) /\
   vz p' == lerp 1 0 (voxel_step (1 # 10) * 0.5) /\
   vy p' == lerp (-5) 15 (voxel_step (1 # 10))) /\
  (vx o' == lerp 1 3 (ornament_step (1 # 10)) /\
   vy o' == lerp (-5) 1 (ornament_step (1 # 10)) /\
   vz o' == lerp 1 2 (ornament_step (1 # 10))).
Proof.
  split.
  - destruct (C1_fountain_override_each_tick sample_between sample_setFromEuler
                sample_instance sample_config [] [] (sample_voxel, sample_dummy)
                sample_group SCATTERED (1 # 10)) as (Hf & _).
    apply Hf. split; reflexivity.
  - destruct (C1_fountain_override_each_tick sample_between sample_setFromEuler
                sample_instance sample_config [] [] (sample_voxel, sample_dummy)
                sample_group TREE (1 # 10)) as (_ & _ & _ & Hs).
    apply Hs. intros [H _]. discriminate H.
Defined.

(** C2 fails on the voxels: after a frame in INITIAL the voxel is displayed
    at scale 0.2; the next frame, in TREE with [step = 1/40], displays it at
    scale 1, not at [lerp 0.2 1 (1/40) = 0.22]. *)
Lemma C2_counterexample_voxel_scale_is_set :
  let before := voxel_tick sample_between INITIAL sample_instance (1 # 60)
                  sample_voxel sample_dummy in
  let after := voxel_tick sample_between TREE sample_instance (1 # 100)
                 (fst before) (snd before) in
  vx (scale (snd before)) == 0.2 /\
  vx (scale (snd after)) == 1 /\
  ~ (vx (scale (snd after))
       == lerp (vx (scale (snd before))) (voxel_targetScale TREE)
               (voxel_step (1 # 100))).
Proof.
  vm_compute. repeat split; intros H; discriminate H.
Qed.

Lemma C3_step_clamp_witness :
  (voxel_step 1 == 1 /\
   Vector3_eq
     (currentPosition (fst (voxel_tick sample_between TREE sample_instance 1
                              sample_voxel sample_dummy)))
     (mkVector3 3 1 2)) /\
  (ornament_step 1 == 1 /\
   vy (position (ornament_update sample_between sample_setFromEuler SCATTERED
                   sample_config 1 sample_group)) == 15 /\
   vx (position (ornament_update sample_between sample_setFromEuler SCATTERED
                   sample_config 1 sample_group)) == 1 * 0.5).
Proof.
  assert (H0 : 0 <= 1) by discriminate.
  split.
  - destruct (C3_step_clamp sample_between sample_setFromEuler sample_instance
                sample_config TREE 1 sample_voxel sample_dummy sample_group H0)
      as (_ & _ & Hv & _).
    assert (Hb : 1 / 2.5 <= 1) by discriminate.
    destruct (Hv Hb) as (H1 & _ & Hstd & _).
    split; [exact H1 | ]. apply Hstd. intros [H _]. discriminate H.
  - destruct (C3_step_clamp sample_between sample_setFromEuler sample_instance
                sample_config SCATTERED 1 sample_voxel sample_dummy sample_group H0)
      as (_ & _ & _ & Ho).
    assert (Hb : 1 / 3 <= 1) by discriminate.
    destruct (Ho Hb) as (H1 & _ & _ & _ & Hf).
    split; [exact H1 | ].
    assert (Hc : SCATTERED = SCATTERED /\ vy (position sample_group) < -1)
      by (split; reflexivity).
    destruct (Hf Hc) as (Ey & Ex & _). split; assumption.
Defined.

(** C3 fails in the fountain branch: with [delta = 1 >= 1/3] (step 1) an
    ornament at (1, -5, 1) whose SCATTERED target is (10, 15, 10) moves to
    (1/2, 15, 1/2); a voxel with [delta = 1 >= 1/2.5] does the same. *)
Lemma C3_counterexample_fountain_does_not_snap :
  (1 / 3 <= 1 /\
   ~ Vector3_eq
       (position (ornament_update sample_between sample_setFromEuler SCATTERED
                    sample_config 1 sample_group))
       (ornament_targetPos SCATTERED sample_config)) /\
  (1 / 2.5 <= 1 /\
   ~ Vector3_eq
       (currentPosition (fst (voxel_tick sample_between SCATTERED sample_instance 1
                                sample_voxel sample_dummy)))
       (voxel_targetPos SCATTERED sample_instance)).
Proof.
  split; (split; [discriminate | ]); intros [Hx _]; vm_compute in Hx; discriminate Hx.
Qed.

Lemma C8_fountain_damps_witness :
  (horizontal_distance
     (currentPosition (fst (voxel_tick sample_between SCATTERED sample_instance
                              (1 # 60) sample_voxel sample_dummy)))
   < horizontal_distance (currentPosition sample_voxel))%R.
Proof.
  assert (H0 : 0 < 1 # 60) by reflexivity.
  destruct (C8_fountain_damps_horizontal_distance sample_between sample_setFromEuler
              sample_instance sample_config (1 # 60) sample_voxel sample_dummy
              sample_group H0) as (Hv & _).
  assert (Hy : vy (currentPosition sample_voxel) < -2) by reflexivity.
  destruct (Hv Hy) as (_ & _ & Hlt & _).
  apply Hlt. intros [Hx _]. discriminate Hx.
Defined.

(** C8 fails on the axis: the topper at its [initialPos] (0, -5, 0), in
    SCATTERED with [delta = 1/60 > 0], is below the threshold and keeps the
    distance 0. *)
Lemma C8_counterexample_topper_on_axis :
  let cfg := topper_ornament (mkEuler 0.5 0.5 0.5) in
  let o' := position (ornament_update sample_between sample_setFromEuler SCATTERED
                        cfg (1 # 60) topper_group) in
  vy (position topper_group) < -1 /\ 0 < 1 # 60 /\
  ~ (horizontal_distance o' < horizontal_distance (position topper_group))%R.
Proof.
  intros cfg o'. split; [reflexivity | ]. split; [reflexivity | ].
  assert (E : horizontal_distance o' = horizontal_distance (position topper_group)).
  { unfold horizontal_distance. apply f_equal. apply Qeq_eqR. reflexivity. }
  rewrite E. apply Rlt_irrefl.
Qed.

(** * Properties of the orchestrator *)

Local Close Scope Q_scope.

Lemma commit_settles (s : SceneState) : settled (render s).
Proof.
  destruct s as [m im b ld to ts nh nw].
  destruct m, im, ld as [[[] []] | ], to; reflexivity.
Qed.

Lemma render_now (s : SceneState) : now (render s) = now s.
Proof.
  destruct s as [m im b ld to ts nh nw].
  destruct m, im, ld as [[[] []] | ], to; reflexivity.
Qed.

Lemma render_mode (s : SceneState) : mode (render s) = mode s.
Proof.
  destruct s as [m im b ld to ts nh nw].
  destruct m, im, ld as [[[] []] | ], to; reflexivity.
Qed.

Lemma deps_eqb_settled (s : SceneState) :
  deps_eqb (lastDeps s) (mode s) (internalMode s) = true <-> settled s.
Proof.
  unfold settled, deps_eqb. destruct (lastDeps s) as [[m im] | ].
  - destruct m, im, (mode s), (internalMode s); simpl; split; intros H;
      try reflexivity; try discriminate H.
  - split; intros H; discriminate H.
Qed.

Lemma commit_of_settled (k : nat) (s : SceneState) : settled s -> commit k s = s.
Proof.
  intros H. destruct k as [ | k]; [reflexivity | ].
  simpl. apply deps_eqb_settled in H. rewrite H. reflexivity.
Qed.

Lemma commit_add (a b : nat) (s : SceneState) :
  commit (a + b) s = commit b (commit a s).
Proof.
  revert s. induction a as [ | a IH]; intros s; [reflexivity | ].
  simpl. destruct (deps_eqb (lastDeps s) (mode s) (internalMode s)) eqn:E.
  - apply deps_eqb_settled in E. symmetry. apply commit_of_settled. exact E.
  - apply IH.
Qed.

(** More fuel changes nothing: the third render already finds the
    dependencies unchanged. *)
Lemma commit_enough_fuel (k : nat) (s : SceneState) : commit (3 + k) s = render s.
Proof.
  rewrite commit_add. apply commit_of_settled. apply commit_settles.
Qed.

Lemma session_start_shape : session_start = st_closing false 1 500 2 0.
Proof. reflexivity. Qed.

Ltac orch_compute :=
  unfold step, fire, millisecond, render, runCallback, setIsBoxOpen,
    setInternalMode, removeTimer, st_closed, st_closing, st_opening, st_open;
  cbn; repeat (rewrite Nat.eqb_refl; cbn).

(** *** What a new [mode] does, shape by shape *)

Lemma setmode_same (s : SceneState) :
  orchestrated s -> step (SetMode (mode s)) s = s.
Proof.
  intros H. destruct H as [h nh nw | lid h du nh nw | m h du nh nw Hm | m h nh nw Hm];
    try destruct m; try contradiction; reflexivity.
Qed.

Lemma setmode_release (m : AppMode) (s : SceneState) :
  orchestrated s -> m <> INITIAL -> mode s <> m -> internalMode s = INITIAL ->
  step (SetMode m) s =
  st_opening m (nextHandle s) (now s + 350) (S (nextHandle s)) (now s).
Proof.
  intros H Hm Hch Him.
  destruct H as [h nh nw | lid h du nh nw | m0 h du nh nw Hm0 | m0 h nh nw Hm0].
  - destruct m; [contradiction | | ]; destruct h; orch_compute; reflexivity.
  - destruct m; [contradiction | | ]; orch_compute; reflexivity.
  - destruct m0, m; try contradiction; orch_compute; reflexivity.
  - simpl in Him. contradiction.
Qed.

Lemma setmode_direct (m : AppMode) (s : SceneState) :
  orchestrated s -> m <> INITIAL -> mode s <> m -> internalMode s <> INITIAL ->
  step (SetMode m) s = st_open m None (nextHandle s) (now s).
Proof.
  intros H Hm Hch Him.
  destruct H as [h nh nw | lid h du nh nw | m0 h du nh nw Hm0 | m0 h nh nw Hm0];
    try (simpl in Him; contradiction).
  destruct m0, m; try contradiction; destruct h; orch_compute; reflexivity.
Qed.

Lemma setmode_initial (s : SceneState) :
  orchestrated s -> mode s <> INITIAL ->
  exists h nh, step (SetMode INITIAL) s = st_closing true h (now s + 500) nh (now s).
Proof.
  intros H Hm.
  destruct H as [h nh nw | lid h du nh nw | m0 h du nh nw Hm0 | m0 h nh nw Hm0];
    try (simpl in Hm; contradiction).
  - exists nh, (S nh). destruct m0; try contradiction; orch_compute; reflexivity.
  - exists (S nh), (S (S nh)).
    destruct m0; try contradiction; destruct h; orch_compute; reflexivity.
Qed.

(** *** What a firing timer does *)

Lemma find_single (i : nat) (t : Timer) :
  find (fun t' => Nat.eqb (handle t') i) [t] =
  if Nat.eqb (handle t) i then Some t else None.
Proof. reflexivity. Qed.

Lemma removeTimer_single (m im : AppMode) (b : bool) ld h' (h du : nat) cb nh nw :
  removeTimer h (mkSceneState m im b ld h' [mkTimer h du cb] nh nw) =
  mkSceneState m im b ld h' [] nh nw.
Proof. unfold removeTimer. simpl. rewrite Nat.eqb_refl. reflexivity. Qed.

Lemma fire_closing (lid : bool) (i h du nh nw : nat) :
  fire i (st_closing lid h du nh nw) =
  if Nat.eqb h i && Nat.leb du nw then st_closed (Some h) nh nw
  else st_closing lid h du nh nw.
Proof.
  unfold fire, st_closing, st_closed. unfold timers at 1. rewrite find_single.
  unfold handle at 1.
  destruct (Nat.eqb h i) eqn:E; [ | reflexivity].
  apply Nat.eqb_eq in E. subst i.
  unfold due, now, callback.
  destruct (Nat.leb du nw); [ | reflexivity].
  rewrite removeTimer_single. reflexivity.
Qed.

Lemma fire_opening (m : AppMode) (i h du nh nw : nat) :
  m <> INITIAL ->
  fire i (st_opening m h du nh nw) =
  if Nat.eqb h i && Nat.leb du nw then st_open m None nh nw
  else st_opening m h du nh nw.
Proof.
  intros Hm. unfold fire, st_opening, st_open. unfold timers at 1. rewrite find_single.
  unfold handle at 1.
  destruct (Nat.eqb h i) eqn:E; [ | reflexivity].
  apply Nat.eqb_eq in E. subst i.
  unfold due, now, callback.
  destruct (Nat.leb du nw); [ | reflexivity].
  rewrite removeTimer_single.
  destruct m; [contradiction | reflexivity | reflexivity].
Qed.

Lemma fire_no_timer (i : nat) (s : SceneState) : timers s = [] -> fire i s = s.
Proof. intros H. unfold fire. rewrite H. reflexivity. Qed.

(** *** The shapes are closed under every event *)

Lemma step_orchestrated (e : Event) (s : SceneState) :
  orchestrated s -> orchestrated (step e s).
Proof.
  intros H. destruct e as [m | d | i].
  - destruct (AppMode_eqb (mode s) m) eqn:E.
    + assert (mode s = m) by (destruct (mode s), m; try discriminate; reflexivity).
      subst m. rewrite (setmode_same s H). exact H.
    + assert (Hch : mode s <> m) by (intros Heq; rewrite Heq in E; destruct m; discriminate E).
      destruct m.
      * destruct (setmode_initial s H Hch) as (h & nh & ->). constructor.
      * destruct H as [h nh nw | lid h du nh nw | m0 h du nh nw Hm0 | m0 h nh nw Hm0].
        -- rewrite setmode_release; try constructor; try discriminate; auto.
        -- rewrite setmode_release; try constructor; try discriminate; auto.
        -- rewrite setmode_release; try constructor; try discriminate; auto.
        -- rewrite setmode_direct; try constructor; try discriminate; auto.
      * destruct H as [h nh nw | lid h du nh nw | m0 h du nh nw Hm0 | m0 h nh nw Hm0].
        -- rewrite setmode_release; try constructor; try discriminate; auto.
        -- rewrite setmode_release; try constructor; try discriminate; auto.
        -- rewrite setmode_release; try constructor; try discriminate; auto.
        -- rewrite setmode_direct; try constructor; try discriminate; auto.
  - destruct H; constructor; assumption.
  - destruct H as [h nh nw | lid h du nh nw | m0 h du nh nw Hm0 | m0 h nh nw Hm0].
    + simpl. rewrite fire_no_timer by reflexivity. constructor.
    + simpl. rewrite fire_closing.
      destruct (Nat.eqb h i && Nat.leb du nw); constructor.
    + simpl. rewrite (fire_opening _ _ _ _ _ _ Hm0).
      destruct (Nat.eqb h i && Nat.leb du nw); constructor; assumption.
    + simpl. rewrite fire_no_timer by reflexivity. constructor. assumption.
Qed.

Lemma run_cons (e : Event) (tr : list Event) (s : SceneState) :
  run (e :: tr) s = run tr (step e s).
Proof. reflexivity. Qed.

Lemma run_orchestrated (tr : list Event) (s : SceneState) :
  orchestrated s -> orchestrated (run tr s).
Proof.
  revert s. induction tr as [ | e tr IH]; intros s H; [exact H | ].
  rewrite run_cons. apply IH. apply step_orchestrated. exact H.
Qed.

Lemma reachable_orchestrated (tr : list Event) : orchestrated (run tr session_start).
Proof.
  apply run_orchestrated. rewrite session_start_shape. constructor.
Qed.

(** *** The clock only moves forward *)

Lemma step_now_mono (e : Event) (s : SceneState) : now s <= now (step e s).
Proof.
  destruct e as [m | d | i]; simpl.
  - rewrite render_now. simpl. lia.
  - lia.
  - unfold fire. destruct (find _ (timers s)) as [t | ]; [ | lia].
    destruct (Nat.leb (due t) (now s)); [ | lia].
    rewrite render_now. destruct (callback t); simpl; lia.
Qed.

Lemma run_now_mono (tr : list Event) (s : SceneState) : now s <= now (run tr s).
Proof.
  revert s. induction tr as [ | e tr IH]; intros s; [simpl; lia | ].
  rewrite run_cons.
  specialize (IH (step e s)). pose proof (step_now_mono e s). lia.
Qed.

(** An invariant that every event occurring before [limit] preserves holds
    along every run that ends before [limit]. *)
Lemma run_before (P : SceneState -> Prop) (limit : nat) :
  (forall e s, P s -> now (step e s) < limit -> P (step e s)) ->
  forall tr s, P s -> now (run tr s) < limit -> P (run tr s).
Proof.
  intros Hstep tr. induction tr as [ | e tr IH]; intros s HP Hlim; [exact HP | ].
  rewrite run_cons in *. apply IH; [ | exact Hlim].
  apply Hstep; [exact HP | ].
  pose proof (run_now_mono tr (step e s)) as Hm. lia.
Qed.

(** *** Windows in which a timer cannot have fired *)

Lemma release_window_step (t0 : nat) (e : Event) (s : SceneState) :
  release_window t0 s -> now (step e s) < t0 + 350 -> release_window t0 (step e s).
Proof.
  intros (Ho & Him & Ht & Hrel) Hlim.
  pose proof (step_now_mono e s) as Hmono.
  pose proof (step_orchestrated e s Ho) as Ho'.
  split; [exact Ho' | ].
  destruct e as [m | d | i].
  - destruct (AppMode_eqb (mode s) m) eqn:E.
    + assert (mode s = m) by (destruct (mode s), m; try discriminate; reflexivity).
      subst m. rewrite (setmode_same s Ho). repeat split; assumption.
    + assert (Hch : mode s <> m) by (intros Heq; rewrite Heq in E; destruct m; discriminate E).
      destruct m.
      * destruct Ho as [h nh nw | lid h du nh nw | m0 h du nh nw Hm0 | m0 h nh nw Hm0];
          try (simpl in Hch; contradiction); try (simpl in Him; contradiction).
        destruct (setmode_initial _ (orch_opening m0 h du nh nw Hm0) Hm0) as (h' & nh' & E').
        rewrite E'. simpl in *. repeat split; try lia.
        intros t m [<- | []] Hcb. discriminate Hcb.
      * rewrite setmode_release; try assumption; try discriminate.
        simpl. repeat split; try lia.
        intros t m [<- | []] Hcb. simpl. lia.
      * rewrite setmode_release; try assumption; try discriminate.
        simpl. repeat split; try lia.
        intros t m [<- | []] Hcb. simpl. lia.
  - simpl in *. destruct s; simpl in *. repeat split; try assumption; lia.
  - simpl in *.
    destruct Ho as [h nh nw | lid h du nh nw | m0 h du nh nw Hm0 | m0 h nh nw Hm0].
    + rewrite fire_no_timer by reflexivity. repeat split; assumption.
    + rewrite fire_closing. destruct (Nat.eqb h i && Nat.leb du nw).
      * simpl in *. repeat split; try assumption. intros t m [].
      * repeat split; assumption.
    + rewrite (fire_opening _ _ _ _ _ _ Hm0).
      destruct (Nat.eqb h i && Nat.leb du nw) eqn:E.
      * exfalso. apply andb_prop in E. destruct E as [_ E].
        apply Nat.leb_le in E.
        assert (t0 + 350 <= du).
        { apply (Hrel (mkTimer h du (SetInternalMode m0)) m0); [left | ]; reflexivity. }
        rewrite (fire_opening _ _ _ _ _ _ Hm0) in Hlim. 
        destruct (Nat.eqb h i && Nat.leb du nw); simpl in Hlim; lia.
      * repeat split; assumption.
    + simpl in Him. contradiction.
Qed.

Lemma release_window_run (t0 : nat) (tr : list Event) (s : SceneState) :
  release_window t0 s -> now (run tr s) < t0 + 350 -> internalMode (run tr s) = INITIAL.
Proof.
  intros Hw Hlim.
  apply (run_before (release_window t0) (t0 + 350)
           (fun e s' => release_window_step t0 e s') tr s Hw Hlim).
Qed.

Lemma closing_window_step (t0 : nat) (e : Event) (s : SceneState) :
  closing_window t0 s -> now (step e s) < t0 + 500 -> closing_window t0 (step e s).
Proof.
  intros (Ho & Hlid & Ht & Hcl) Hlim.
  pose proof (step_now_mono e s) as Hmono.
  pose proof (step_orchestrated e s Ho) as Ho'.
  split; [exact Ho' | ].
  destruct e as [m | d | i].
  - destruct (AppMode_eqb (mode s) m) eqn:E.
    + assert (mode s = m) by (destruct (mode s), m; try discriminate; reflexivity).
      subst m. rewrite (setmode_same s Ho). repeat split; assumption.
    + assert (Hch : mode s <> m) by (intros Heq; rewrite Heq in E; destruct m; discriminate E).
      destruct m.
      * destruct (setmode_initial s Ho Hch) as (h' & nh' & E').
        rewrite E'. simpl. repeat split; try lia.
        intros t [<- | []] Hcb. simpl. lia.
      * destruct (internalMode s) eqn:Ei.
        -- rewrite setmode_release; try assumption; try discriminate.
           simpl. repeat split; try lia.
           intros t [<- | []] Hcb. discriminate Hcb.
        -- rewrite setmode_direct; try assumption; try discriminate.
           ++ simpl. repeat split; try lia. intros t [].
           ++ rewrite Ei. discriminate.
        -- rewrite setmode_direct; try assumption; try discriminate.
           ++ simpl. repeat split; try lia. intros t [].
           ++ rewrite Ei. discriminate.
      * destruct (internalMode s) eqn:Ei.
        -- rewrite setmode_release; try assumption; try discriminate.
           simpl. repeat split; try lia.
           intros t [<- | []] Hcb. discriminate Hcb.
        -- rewrite setmode_direct; try assumption; try discriminate.
           ++ simpl. repeat split; try lia. intros t [].
           ++ rewrite Ei. discriminate.
        -- rewrite setmode_direct; try assumption; try discriminate.
           ++ simpl. repeat split; try lia. intros t [].
           ++ rewrite Ei. discriminate.
  - simpl in *. destruct s; simpl in *. repeat split; try assumption; lia.
  - simpl in *.
    destruct Ho as [h nh nw | lid h du nh nw | m0 h du nh nw Hm0 | m0 h nh nw Hm0].
    + simpl in Hlid. discriminate Hlid.
    + rewrite fire_closing. destruct (Nat.eqb h i && Nat.leb du nw) eqn:E.
      * exfalso. apply andb_prop in E. destruct E as [_ E].
        apply Nat.leb_le in E.
        assert (t0 + 500 <= du).
        { apply (Hcl (mkTimer h du CloseLid)); [left | ]; reflexivity. }
        rewrite fire_closing in Hlim.
        destruct (Nat.eqb h i && Nat.leb du nw); simpl in Hlim; lia.
      * repeat split; assumption.
    + rewrite (fire_opening _ _ _ _ _ _ Hm0).
      destruct (Nat.eqb h i && Nat.leb du nw).
      * simpl in *. repeat split; try assumption. intros t [].
      * repeat split; assumption.
    + rewrite fire_no_timer by reflexivity. repeat split; assumption.
Qed.

Lemma closing_window_run (t0 : nat) (tr : list Event) (s : SceneState) :
  closing_window t0 s -> now (run tr s) < t0 + 500 -> isBoxOpen (run tr s) = true.
Proof.
  intros Hw Hlim.
  apply (run_before (closing_window t0) (t0 + 500)
           (fun e s' => closing_window_step t0 e s') tr s Hw Hlim).
Qed.

(** *** A browser that fires timers on time *)

Lemma millisecond_no_timer (s : SceneState) :
  timers s = [] -> millisecond s = elapse 1 s.
Proof. intros H. unfold millisecond. simpl. rewrite H. reflexivity. Qed.

Lemma millisecond_opening (m : AppMode) (h du nh nw : nat) :
  m <> INITIAL ->
  millisecond (st_opening m h du nh nw) =
  if Nat.leb du (nw + 1) then st_open m None nh (nw + 1)
  else st_opening m h du nh (nw + 1).
Proof.
  intros Hm. unfold millisecond.
  change (elapse 1 (st_opening m h du nh nw)) with (st_opening m h du nh (nw + 1)).
  change (timers (st_opening m h du nh (nw + 1)))
    with [mkTimer h du (SetInternalMode m)].
  simpl fold_left. unfold handle.
  rewrite (fire_opening m h h du nh (nw + 1) Hm), Nat.eqb_refl. reflexivity.
Qed.

Lemma millisecond_closing (lid : bool) (h du nh nw : nat) :
  millisecond (st_closing lid h du nh nw) =
  if Nat.leb du (nw + 1) then st_closed (Some h) nh (nw + 1)
  else st_closing lid h du nh (nw + 1).
Proof.
  unfold millisecond.
  change (elapse 1 (st_closing lid h du nh nw)) with (st_closing lid h du nh (nw + 1)).
  change (timers (st_closing lid h du nh (nw + 1))) with [mkTimer h du CloseLid].
  simpl fold_left. unfold handle.
  rewrite (fire_closing lid h h du nh (nw + 1)), Nat.eqb_refl. reflexivity.
Qed.

Lemma advance_S (k : nat) (s : SceneState) :
  advance (S k) s = millisecond (advance k s).
Proof. reflexivity. Qed.

Lemma advance_add (a b : nat) (s : SceneState) :
  advance (a + b) s = advance a (advance b s).
Proof. unfold advance. apply Nat.iter_add. Qed.

Lemma advance_open (k : nat) (m : AppMode) (h : option nat) (nh nw : nat) :
  advance k (st_open m h nh nw) = st_open m h nh (nw + k).
Proof.
  induction k as [ | k IH].
  - simpl. rewrite Nat.add_0_r. reflexivity.
  - rewrite advance_S, IH, millisecond_no_timer by reflexivity.
    unfold elapse, st_open; simpl. rewrite <- Nat.add_assoc, Nat.add_1_r. reflexivity.
Qed.

Lemma advance_closed (k : nat) (h : option nat) (nh nw : nat) :
  advance k (st_closed h nh nw) = st_closed h nh (nw + k).
Proof.
  induction k as [ | k IH].
  - simpl. rewrite Nat.add_0_r. reflexivity.
  - rewrite advance_S, IH, millisecond_no_timer by reflexivity.
    unfold elapse, st_closed; simpl. rewrite <- Nat.add_assoc, Nat.add_1_r. reflexivity.
Qed.

Lemma advance_opening_wait (k : nat) (m : AppMode) (h du nh nw : nat) :
  m <> INITIAL -> nw + k < du ->
  advance k (st_opening m h du nh nw) = st_opening m h du nh (nw + k).
Proof.
  intros Hm. induction k as [ | k IH]; intros Hlt.
  - simpl. rewrite Nat.add_0_r. reflexivity.
  - rewrite advance_S, IH by lia. rewrite (millisecond_opening _ _ _ _ _ Hm).
    destruct (Nat.leb du (nw + k + 1)) eqn:E.
    + apply Nat.leb_le in E. lia.
    + rewrite <- Nat.add_assoc, Nat.add_1_r. reflexivity.
Qed.

Lemma advance_opening_release (k : nat) (m : AppMode) (h nh nw : nat) :
  m <> INITIAL ->
  advance (S k) (st_opening m h (nw + S k) nh nw) = st_open m None nh (nw + S k).
Proof.
  intros Hm. rewrite advance_S, advance_opening_wait by (assumption || lia).
  rewrite (millisecond_opening _ _ _ _ _ Hm).
  destruct (Nat.leb (nw + S k) (nw + k + 1)) eqn:E.
  - rewrite <- Nat.add_assoc, Nat.add_1_r. reflexivity.
  - apply Nat.leb_gt in E. lia.
Qed.

Lemma advance_closing_wait (k : nat) (lid : bool) (h du nh nw : nat) :
  nw + k < du ->
  advance k (st_closing lid h du nh nw) = st_closing lid h du nh (nw + k).
Proof.
  induction k as [ | k IH]; intros Hlt.
  - simpl. rewrite Nat.add_0_r. reflexivity.
  - rewrite advance_S, IH by lia. rewrite millisecond_closing.
    destruct (Nat.leb du (nw + k + 1)) eqn:E.
    + apply Nat.leb_le in E. lia.
    + rewrite <- Nat.add_assoc, Nat.add_1_r. reflexivity.
Qed.

Lemma advance_closing_fire (k : nat) (lid : bool) (h nh nw : nat) :
  advance (S k) (st_closing lid h (nw + S k) nh nw) = st_closed (Some h) nh (nw + S k).
Proof.
  rewrite advance_S, advance_closing_wait by lia.
  rewrite millisecond_closing.
  destruct (Nat.leb (nw + S k) (nw + k + 1)) eqn:E.
  - rewrite <- Nat.add_assoc, Nat.add_1_r. reflexivity.
  - apply Nat.leb_gt in E. lia.
Qed.

(** *** Facts read off the shapes *)

Lemma orchestrated_lid (s : SceneState) :
  orchestrated s -> mode s <> INITIAL -> isBoxOpen s = true.
Proof. intros H Hm. destruct H; try reflexivity; simpl in Hm; contradiction. Qed.

Lemma orchestrated_internal (s : SceneState) :
  orchestrated s -> internalMode s = INITIAL \/ internalMode s = mode s.
Proof. intros H. destruct H; simpl; auto. Qed.

Lemma orchestrated_timers (s : SceneState) :
  orchestrated s ->
  length (timers s) <= 1 /\
  forall t, In t (timers s) ->
    timeout s = Some (handle t) /\ callback t = pending_for (mode s).
Proof.
  intros H. destruct H as [h nh nw | lid h du nh nw | m h du nh nw Hm | m h nh nw Hm];
    simpl; (split; [lia | ]); intros t Hin;
    try contradiction; destruct Hin as [<- | []]; simpl; split; try reflexivity.
  destruct m; [contradiction | reflexivity | reflexivity].
Qed.

(** *** The claims on the orchestrator *)

(** C4.  In every reachable state, when the requested mode changes to
    [m], SCATTERED or TREE, the lid is open at once.  If [internalMode] was
    INITIAL it is still INITIAL after the request, it is INITIAL at the end
    of every run of events (further requests and firings included) that
    ends less than 350 ms after the request, and with timers fired on time
    and no further request it is INITIAL for 349 ms and [m] at 350 ms.  If
    [internalMode] was not INITIAL it is [m] at once. *)
Theorem C4_opening_sequence :
  forall (tr : list Event) (m : AppMode),
    let s := run tr session_start in
    let s' := step (SetMode m) s in
    m <> INITIAL -> mode s <> m ->
    isBoxOpen s' = true /\
    (internalMode s = INITIAL ->
       internalMode s' = INITIAL /\
       (forall tr', now (run tr' s') < now s' + 350 ->
                    internalMode (run tr' s') = INITIAL) /\
       (forall d, d < 350 -> internalMode (advance d s') = INITIAL) /\
       internalMode (advance 350 s') = m) /\
    (internalMode s <> INITIAL -> internalMode s' = m).
Proof.
  intros tr m s s' Hm Hch.
  assert (Ho : orchestrated s) by apply reachable_orchestrated.
  clearbody s. subst s'. split; [ | split].
  - apply orchestrated_lid.
    + apply step_orchestrated. exact Ho.
    + simpl. rewrite render_mode. simpl. exact Hm.
  - intros Him. rewrite (setmode_release m s Ho Hm Hch Him).
    split; [reflexivity | ]. split; [ | split].
    + intros tr' Hlim. apply (release_window_run (now s)); [ | exact Hlim].
      unfold release_window. split; [constructor; exact Hm | ].
      split; [reflexivity | ]. split; [simpl; lia | ].
      intros t m' [<- | []] _. simpl. lia.
    + intros d Hd. rewrite advance_opening_wait; [reflexivity | exact Hm | lia].
    + rewrite (advance_opening_release 349 m _ _ _ Hm). reflexivity.
  - intros Him. rewrite (setmode_direct m s Ho Hm Hch Him). reflexivity.
Qed.

(** C5.  In every reachable state, when the requested mode changes to
    INITIAL, [internalMode] is INITIAL at once and the lid is still open;
    the lid is open at the end of every run of events that ends less than
    500 ms after the request; with timers fired on time and no further
    request it is open for 499 ms and shut at 500 ms. *)
Theorem C5_closing_sequence :
  forall (tr : list Event),
    let s := run tr session_start in
    let s' := step (SetMode INITIAL) s in
    mode s <> INITIAL ->
    internalMode s' = INITIAL /\
    isBoxOpen s' = true /\
    (forall tr', now (run tr' s') < now s' + 500 -> isBoxOpen (run tr' s') = true) /\
    (forall d, d < 500 -> isBoxOpen (advance d s') = true) /\
    isBoxOpen (advance 500 s') = false.
Proof.
  intros tr s s' Hm.
  assert (Ho : orchestrated s) by apply reachable_orchestrated.
  clearbody s. subst s'.
  destruct (setmode_initial s Ho Hm) as (h & nh & E). rewrite E.
  split; [reflexivity | ]. split; [reflexivity | ]. split; [ | split].
  - intros tr' Hlim. apply (closing_window_run (now s)); [ | exact Hlim].
    unfold closing_window. split; [constructor | ].
    split; [reflexivity | ]. split; [simpl; lia | ].
    intros t [<- | []] _. simpl. lia.
  - intros d Hd. rewrite advance_closing_wait; [reflexivity | lia].
  - rewrite (advance_closing_fire 499). reflexivity.
Qed.

(** C6.  In every reachable state at most one timer is pending, and it is
    the one the latest effect run holds the handle of, with the callback of
    the current requested mode.  A change of the requested mode leaves
    pending only the action of the new request, dated from the new request
    (none for a direct switch): what was pending before is gone.  In
    particular, from a state with requested mode INITIAL, SCATTERED then,
    [d < 350] ms later, TREE: the pending release is the one of TREE, due
    350 ms after the second request; [internalMode] is never SCATTERED, it
    is INITIAL until then and TREE from then on. *)
Theorem C6_latest_request_wins :
  forall (tr : list Event),
    let s := run tr session_start in
    (length (timers s) <= 1 /\
     forall t, In t (timers s) ->
       timeout s = Some (handle t) /\ callback t = pending_for (mode s)) /\
    (forall m, mode s <> m ->
       timers (step (SetMode m) s) =
       match m, internalMode s with
       | INITIAL, INITIAL => [mkTimer (nextHandle s) (now s + 500) CloseLid]
       | INITIAL, _ => [mkTimer (S (nextHandle s)) (now s + 500) CloseLid]
       | _, INITIAL => [mkTimer (nextHandle s) (now s + 350) (SetInternalMode m)]
       | _, _ => []
       end) /\
    (forall d, mode s = INITIAL -> d < 350 ->
       let s1 := step (SetMode SCATTERED) s in
       let s2 := step (SetMode TREE) (advance d s1) in
       timers s1 = [mkTimer (nextHandle s) (now s + 350) (SetInternalMode SCATTERED)] /\
       timers s2 = [mkTimer (S (nextHandle s)) (now s + d + 350) (SetInternalMode TREE)] /\
       (forall k, internalMode (advance k s2) <> SCATTERED) /\
       (forall k, k < 350 -> internalMode (advance k s2) = INITIAL) /\
       (forall k, 350 <= k -> internalMode (advance k s2) = TREE)).
Proof.
  intros tr s.
  assert (Ho : orchestrated s) by apply reachable_orchestrated.
  clearbody s. split; [apply orchestrated_timers; exact Ho | ]. split.
  - intros m Hch.
    destruct Ho as [h nh nw | lid h du nh nw | m0 h du nh nw Hm0 | m0 h nh nw Hm0].
    + destruct m; [simpl in Hch; contradiction | | ];
        rewrite setmode_release; try constructor; try discriminate; reflexivity.
    + destruct m; [simpl in Hch; contradiction | | ];
        rewrite setmode_release; try constructor; try discriminate; reflexivity.
    + destruct m.
      * destruct m0; try contradiction; orch_compute; reflexivity.
      * rewrite setmode_release; try constructor; try discriminate; auto.
      * rewrite setmode_release; try constructor; try discriminate; auto.
    + destruct m.
      * destruct m0; try contradiction; destruct h; orch_compute; reflexivity.
      * rewrite setmode_direct; try constructor; try discriminate; auto.
        destruct m0; try contradiction; reflexivity.
      * rewrite setmode_direct; try constructor; try discriminate; auto.
        destruct m0; try contradiction; reflexivity.
  - intros d Hmode Hd s1 s2.
    assert (Him : internalMode s = INITIAL).
    { destruct Ho; try reflexivity; simpl in Hmode; contradiction. }
    assert (E1 : s1 = st_opening SCATTERED (nextHandle s) (now s + 350)
                        (S (nextHandle s)) (now s)).
    { subst s1. apply setmode_release; try assumption; try discriminate.
      rewrite Hmode. discriminate. }
    assert (E2 : s2 = st_opening TREE (S (nextHandle s)) (now s + d + 350)
                        (S (S (nextHandle s))) (now s + d)).
    { subst s2. rewrite E1.
      rewrite advance_opening_wait; [ | discriminate | lia].
      rewrite setmode_release; try discriminate; try reflexivity.
      constructor. discriminate. }
    split; [rewrite E1; reflexivity | ]. split; [rewrite E2; reflexivity | ].
    assert (Hwait : forall k, k < 350 -> internalMode (advance k s2) = INITIAL).
    { intros k Hk. rewrite E2.
      rewrite advance_opening_wait; [reflexivity | discriminate | lia]. }
    assert (Hrel : forall k, 350 <= k -> internalMode (advance k s2) = TREE).
    { intros k Hk. replace k with ((k - 350) + 350) by lia.
      rewrite advance_add, E2.
      rewrite (advance_opening_release 349); [ | discriminate].
      rewrite advance_open. reflexivity. }
    split; [ | split; assumption].
    intros k. destruct (Nat.lt_ge_cases k 350) as [Hk | Hk].
    + rewrite (Hwait k Hk). discriminate.
    + rewrite (Hrel k Hk). discriminate.
Qed.

(** C7.  In every state reached from session start by requests, passing
    time and timer firings, [internalMode <> INITIAL] implies that the lid
    is open.  (No exception is needed: in the lag windows the lid is open
    while [internalMode] is still, or again, INITIAL.) *)
Theorem C7_items_out_implies_lid_open :
  forall (tr : list Event),
    let s := run tr session_start in
    internalMode s <> INITIAL -> isBoxOpen s = true.
Proof.
  intros tr s Him.
  assert (Ho : orchestrated s) by apply reachable_orchestrated.
  clearbody s. destruct Ho; try reflexivity; simpl in Him; contradiction.
Qed.

(** *** Runs of the orchestrator on concrete traces *)

Example opening_run :
  run [SetMode SCATTERED; Elapse 350; Fire 2] session_start
  = st_open SCATTERED None 3 350.
Proof. reflexivity. Qed.

Example early_fire_is_ignored :
  run [SetMode SCATTERED; Elapse 349; Fire 2] session_start
  = st_opening SCATTERED 2 350 3 349.
Proof. reflexivity. Qed.

Example debounce_run :
  run [SetMode SCATTERED; Elapse 100; SetMode TREE; Elapse 250; Fire 2; Fire 3;
       Elapse 100; Fire 3] session_start
  = st_open TREE None 4 450.
Proof. reflexivity. Qed.

Example mount_timer_is_cancelled :
  run [Elapse 100; SetMode SCATTERED; Elapse 400; Fire 1] session_start
  = st_opening SCATTERED 2 450 3 500.
Proof. reflexivity. Qed.

Lemma C4_opening_sequence_witness :
  (isBoxOpen (step (SetMode SCATTERED) session_start) = true /\
   internalMode (step (SetMode SCATTERED) session_start) = INITIAL /\
   internalMode (advance 350 (step (SetMode SCATTERED) session_start)) = SCATTERED) /\
  internalMode
    (step (SetMode TREE)
       (run [SetMode SCATTERED; Elapse 350; Fire 2] session_start)) = TREE.
Proof.
  split.
  - assert (H1 : SCATTERED <> INITIAL) by discriminate.
    assert (H2 : mode (run [] session_start) <> SCATTERED) by discriminate.
    destruct (C4_opening_sequence [] SCATTERED H1 H2) as (Hlid & Hdelay & _).
    assert (H3 : internalMode (run [] session_start) = INITIAL) by reflexivity.
    destruct (Hdelay H3) as (Hnow & _ & _ & Hthen).
    split; [exact Hlid | ]. split; [exact Hnow | exact Hthen].
  - assert (H1 : TREE <> INITIAL) by discriminate.
    assert (H2 : mode (run [SetMode SCATTERED; Elapse 350; Fire 2] session_start) <> TREE).
    { intros H. vm_compute in H. discriminate H. }
    destruct (C4_opening_sequence [SetMode SCATTERED; Elapse 350; Fire 2] TREE H1 H2)
      as (_ & _ & Hdirect).
    apply Hdirect. intros H. vm_compute in H. discriminate H.
Defined.

Lemma C5_closing_sequence_witness :
  let s := run [SetMode SCATTERED; Elapse 350; Fire 2; SetMode TREE] session_start in
  internalMode (step (SetMode INITIAL) s) = INITIAL /\
  isBoxOpen (advance 499 (step (SetMode INITIAL) s)) = true /\
  isBoxOpen (advance 500 (step (SetMode INITIAL) s)) = false.
Proof.
  intros s.
  assert (H1 : mode s <> INITIAL).
  { intros H. vm_compute in H. discriminate H. }
  destruct (C5_closing_sequence
              [SetMode SCATTERED; Elapse 350; Fire 2; SetMode TREE] H1)
    as (Him & _ & _ & Hopen & Hshut).
  split; [exact Him | ]. split; [ | exact Hshut].
  apply Hopen. apply Nat.ltb_lt. reflexivity.
Defined.

Lemma C6_latest_request_wins_witness :
  let s1 := step (SetMode SCATTERED) session_start in
  let s2 := step (SetMode TREE) (advance 100 s1) in
  timers s2 = [mkTimer 3 450 (SetInternalMode TREE)] /\
  internalMode (advance 250 s2) <> SCATTERED /\
  internalMode (advance 350 s2) = TREE.
Proof.
  intros s1 s2.
  destruct (C6_latest_request_wins []) as (_ & _ & Hscen).
  assert (H1 : mode (run [] session_start) = INITIAL) by reflexivity.
  assert (H2 : 100 < 350) by (apply Nat.ltb_lt; reflexivity).
  destruct (Hscen 100 H1 H2) as (_ & Ht & Hnever & _ & Hthen).
  split; [exact Ht | ]. split; [apply Hnever | ].
  apply Hthen. apply Nat.le_refl.
Defined.

Lemma C7_items_out_implies_lid_open_witness :
  isBoxOpen (run [SetMode SCATTERED; Elapse 350; Fire 2] session_start) = true.
Proof.
  apply (C7_items_out_implies_lid_open [SetMode SCATTERED; Elapse 350; Fire 2]).
  intros H. vm_compute in H. discriminate H.
Defined.

(** * Properties of the ornament generator *)

Local Open Scope R_scope.

Lemma PI_bounds : 31415926 / 10000000 < PI < 31415927 / 10000000.
Proof.
  pose proof (PI_2_3_7_ineq 3) as [Hlo Hhi].
  unfold sum_f_R0, tg_alt, PI_2_3_7_tg, Ratan_seq in Hlo, Hhi.
  simpl in Hlo, Hhi.
  split; lra.
Qed.

Lemma sqrt5_bounds : 223606797 / 100000000 < sqrt 5 < 223606798 / 100000000.
Proof.
  split.
  - rewrite <- (sqrt_square (223606797 / 100000000)) by lra.
    apply sqrt_lt_1_alt. split; [nra | lra].
  - rewrite <- (sqrt_square (223606798 / 100000000)) by lra.
    apply sqrt_lt_1_alt. split; [lra | nra].
Qed.

Lemma goldenAngle_bounds : 239996 / 100000 < goldenAngle < 239997 / 100000.
Proof.
  unfold goldenAngle.
  pose proof PI_bounds as [P1 P2]. pose proof sqrt5_bounds as [S1 S2].
  split; nra.
Qed.

Lemma INR_count : INR count = 90.
Proof. unfold count. rewrite INR_IZR_INZ. reflexivity. Qed.

Lemma placement_y_formula (i : nat) : placement_y i = -5 + (2 / 15) * INR i.
Proof. unfold placement_y, hProgress. rewrite INR_count. field. Qed.

Lemma normalizedH_nonneg (i : nat) : 0 <= normalizedH i.
Proof.
  unfold normalizedH. rewrite placement_y_formula.
  pose proof (pos_INR i). lra.
Qed.

(** The radius as a function of the height: slope [-0.425]. *)
Lemma radius_linear_in_height (i : nat) :
  radius i = 485 / 100 - (425 / 1000) * placement_y i.
Proof.
  unfold radius, coneRadius.
  rewrite (Rmax_right _ _ (normalizedH_nonneg i)).
  unfold normalizedH. field.
Qed.

Lemma placement_higher (i j : nat) :
  (i < j)%nat -> placement_y i < placement_y j /\ radius j < radius i.
Proof.
  intros Hij. apply lt_INR in Hij.
  rewrite !radius_linear_in_height, !placement_y_formula. split; lra.
Qed.

Lemma ornaments_nth (typeDraw : nat -> R) (i : nat) :
  (1 <= i)%nat -> (i < count)%nat ->
  nth_error (ornaments typeDraw) i = Some (decoration i (typeDraw i)).
Proof.
  intros H1 H2. destruct i as [ | j]; [lia | ].
  change (nth_error (map (fun k => decoration k (typeDraw k)) (seq 1 (count - 1))) j
          = Some (decoration (S j) (typeDraw (S j)))).
  rewrite nth_error_map, nth_error_seq.
  assert (E : (j <? count - 1)%nat = true) by (apply Nat.ltb_lt; lia).
  rewrite E. reflexivity.
Qed.

Lemma decoration_yaw (i : nat) (ty : OrnamentType) :
  rey (decoration_treeRot i ty) =
  if is_flat_type ty then - theta i + PI / 2 else - theta i.
Proof. destruct ty; reflexivity. Qed.

(** C9.  The golden angle [PI * (3 - sqrt 5)] lies between 2.39996 and
    2.39997.  For every index [1 <= i < count] the [i]-th configuration is
    placed at angle [i * goldenAngle] on the circle of radius [radius i] at
    height [placement_y i]; the radius is an affine function of the height
    with slope [-0.425], so it shrinks as the index and the height grow;
    the yaw of the tree rotation is the negated angle, plus [PI / 2] for
    star, snowflake and goldTree. *)
Theorem C9_golden_spiral_placement :
  forall (typeDraw : nat -> R) (i : nat),
    (1 <= i)%nat -> (i < count)%nat ->
    goldenAngle = PI * (3 - sqrt 5) /\
    239996 / 100000 < goldenAngle < 239997 / 100000 /\
    exists c,
      nth_error (ornaments typeDraw) i = Some c /\
      c_id c = i /\
      c_treePos c =
        mkVector3R (radius i * cos (INR i * goldenAngle)) (placement_y i)
                   (radius i * sin (INR i * goldenAngle)) /\
      radius i = 485 / 100 - (425 / 1000) * placement_y i /\
      (forall j, (i < j)%nat -> placement_y i < placement_y j /\ radius j < radius i) /\
      (c_type c = star \/ c_type c = snowflake \/ c_type c = goldTree ->
         rey (c_treeRot c) = - (INR i * goldenAngle) + PI / 2) /\
      (c_type c <> star -> c_type c <> snowflake -> c_type c <> goldTree ->
         rey (c_treeRot c) = - (INR i * goldenAngle)).
Proof.
  intros typeDraw i H1 H2.
  split; [reflexivity | ]. split; [exact goldenAngle_bounds | ].
  exists (decoration i (typeDraw i)).
  split; [apply ornaments_nth; assumption | ].
  split; [reflexivity | ]. split; [reflexivity | ].
  split; [apply radius_linear_in_height | ].
  split; [intros j Hj; apply placement_higher; exact Hj | ].
  unfold decoration; simpl c_type; simpl c_treeRot.
  rewrite decoration_yaw. fold (theta i). split.
  - intros [E | [E | E]]; rewrite E; reflexivity.
  - intros Hs Hf Hg.
    destruct (pickType (typeDraw i)); try reflexivity; contradiction.
Qed.

Lemma C9_golden_spiral_placement_witness :
  exists c,
    nth_error (ornaments (fun _ => 0)) 5 = Some c /\
    c_id c = 5%nat /\
    radius 5 = 485 / 100 - (425 / 1000) * placement_y 5.
Proof.
  assert (H1 : (1 <= 5)%nat) by (apply Nat.leb_le; reflexivity).
  assert (H2 : (5 < count)%nat) by (apply Nat.ltb_lt; reflexivity).
  destruct (C9_golden_spiral_placement (fun _ => 0) 5 H1 H2)
    as (_ & _ & c & Hn & Hid & _ & Hr & _).
  exists c. split; [exact Hn | ]. split; [exact Hid | exact Hr].
Defined.

Local Close Scope R_scope.

(** * Further properties of the interpolators *)

Local Open Scope Q_scope.

Lemma remaining_cons (rate weight delta : Q) (deltas : list Q) :
  remaining rate weight (delta :: deltas) =
  (1 - Qmin 1 (delta * rate) * weight) * remaining rate weight deltas.
Proof. reflexivity. Qed.

(** For non-negative deltas, a positive rate and a weight in [(0, 1]] the
    factor left lies in [[0, 1]]; it is positive when the weight is below
    1. *)
Lemma remaining_range (rate weight : Q) (deltas : list Q) :
  0 <= rate -> 0 < weight -> weight <= 1 ->
  Forall (fun delta => 0 <= delta) deltas ->
  0 <= remaining rate weight deltas <= 1 /\
  (weight < 1 -> 0 < remaining rate weight deltas).
Proof.
  intros Hr Hw0 Hw1 Hall. induction Hall as [ | delta deltas Hd _ IH].
  - simpl. split; [split; discriminate | reflexivity].
  - rewrite remaining_cons. destruct IH as [[I0 I1] Ipos].
    assert (Hs : 0 <= Qmin 1 (delta * rate) <= 1).
    { apply Qmin_1_range. apply Qmult_le_0_compat; assumption. }
    destruct Hs as [Hs0 Hs1].
    set (s := Qmin 1 (delta * rate)) in *.
    set (r := remaining rate weight deltas) in *.
    assert (Hk0 : 0 <= s * weight) by (apply Qmult_le_0_compat; lra).
    assert (Hk1 : s * weight <= weight).
    { setoid_replace weight with (1 * weight) at 2 by ring.
      apply Qmult_le_compat_r; lra. }
    set (k := s * weight) in *.
    split; [split | ].
    + apply Qmult_le_0_compat; lra.
    + setoid_replace 1 with (1 * 1) at 2 by ring.
      apply Qle_trans with (1 * r).
      * apply Qmult_le_compat_r; lra.
      * lra.
    + intros Hlt. specialize (Ipos Hlt).
      setoid_replace 0 with (0 * r) by ring.
      apply Qmult_lt_compat_r; lra.
Qed.

Section MoreInterpolation.

Variable slerp_between : Quaternion -> Quaternion -> Q -> Quaternion.
Variable setFromEuler : Euler -> Quaternion.

Local Abbreviation voxel_tick'' := (voxel_tick slerp_between).
Local Abbreviation voxel_run'' := (voxel_run slerp_between).
Local Abbreviation ornament_update'' := (ornament_update slerp_between setFromEuler).
Local Abbreviation ornament_run'' := (ornament_run slerp_between setFromEuler).

Lemma voxel_run_cons (d : InstanceData) (f : AppMode * Q)
    (frames : list (AppMode * Q)) (st : VoxelCurrent * Object3D) :
  voxel_run'' d (f :: frames) st =
  voxel_run'' d frames (voxel_tick'' (fst f) d (snd f) (fst st) (snd st)).
Proof. reflexivity. Qed.

Lemma ornament_run_cons (config : OrnamentConfig) (f : AppMode * Q)
    (frames : list (AppMode * Q)) (g : Object3D) :
  ornament_run'' config (f :: frames) g =
  ornament_run'' config frames (ornament_update'' (fst f) config (snd f) g).
Proof. reflexivity. Qed.

(** One standard step on a vector: every offset from the target is
    multiplied by [1 - step]. *)
Lemma Vector3_lerp_offset (p t : Vector3) (s : Q) :
  vx (Vector3_lerp p t s) - vx t == (1 - s * 1) * (vx p - vx t) /\
  vy (Vector3_lerp p t s) - vy t == (1 - s * 1) * (vy p - vy t) /\
  vz (Vector3_lerp p t s) - vz t == (1 - s * 1) * (vz p - vz t).
Proof. simpl. repeat split; ring. Qed.


(** One fountain tick below the rim: the object stays below the rim when
    its target is below it too. *)
Lemma lerp_below (y ty s limit : Q) :
  0 <= s -> s <= 1 -> y < limit -> ty < limit -> lerp y ty s < limit.
Proof.
  intros H0 H1 Hy Ht. unfold lerp.
  assert (E : (1 - s) * y + s * ty == limit + ((1 - s) * (y - limit) + s * (ty - limit)))
    by ring.
  rewrite E.
  assert (Ha : (1 - s) * (y - limit) <= 0).
  { setoid_replace ((1 - s) * (y - limit)) with (- ((1 - s) * (limit - y))) by ring.
    assert (0 <= (1 - s) * (limit - y)) by (apply Qmult_le_0_compat; lra). lra. }
  assert (Hb : s * (ty - limit) <= 0).
  { setoid_replace (s * (ty - limit)) with (- (s * (limit - ty))) by ring.
    assert (0 <= s * (limit - ty)) by (apply Qmult_le_0_compat; lra). lra. }
  destruct (Qlt_le_dec 0 s) as [Hs | Hs].
  - assert (Hc : 0 < s * (limit - ty)) by (apply Qmult_lt_0_compat; lra).
    assert (EB : s * (ty - limit) == - (s * (limit - ty))) by ring.
    rewrite EB. lra.
  - assert (Es : s == 0) by lra.
    assert (E2 : (1 - s) * (y - limit) + s * (ty - limit) == y - limit)
      by (rewrite Es; ring).
    rewrite E2. lra.
Qed.

Lemma lerp_not_below (y ty s limit : Q) :
  0 <= s -> s <= 1 -> limit <= y -> limit <= ty -> limit <= lerp y ty s.
Proof.
  intros H0 H1 Hy Ht. unfold lerp.
  assert (E : (1 - s) * y + s * ty == limit + ((1 - s) * (y - limit) + s * (ty - limit)))
    by ring.
  rewrite E.
  assert (0 <= (1 - s) * (y - limit)) by (apply Qmult_le_0_compat; lra).
  assert (0 <= s * (ty - limit)) by (apply Qmult_le_0_compat; lra).
  lra.
Qed.

(** X2.  The fountain trap.  In SCATTERED mode, an object that is below
    the rim threshold and whose SCATTERED target is below it as well stays
    below it along every run of frames with non-negative deltas: every tick
    takes the fountain branch, X and Z are the initial X and Z times the
    product of the [1 - step / 2], a factor in [(0, 1]] in which the target
    does not occur, and only the Y offset contracts toward the target. *)
Theorem X2_fountain_trap :
  forall (d : InstanceData) (config : OrnamentConfig) (deltas : list Q)
         (cur : VoxelCurrent) (dm g : Object3D),
    Forall (fun delta => 0 <= delta) deltas ->
    let p := currentPosition cur in
    let p' := currentPosition (fst (voxel_run'' d (frames_in SCATTERED deltas) (cur, dm))) in
    let o := position g in
    let o' := position (ornament_run'' config (frames_in SCATTERED deltas) g) in
    (vy p < -2 -> vy (scatterPos d) < -2 ->
       vy p' < -2 /\
       vx p' == remaining 2.5 0.5 deltas * vx p /\
       vz p' == remaining 2.5 0.5 deltas * vz p /\
       vy p' - vy (scatterPos d) == remaining 2.5 1 deltas * (vy p - vy (scatterPos d))) /\
    (vy o < -1 -> vy (o_scatterPos config) < -1 ->
       vy o' < -1 /\
       vx o' == remaining 3 0.5 deltas * vx o /\
       vz o' == remaining 3 0.5 deltas * vz o /\
       vy o' - vy (o_scatterPos config)
         == remaining 3 1 deltas * (vy o - vy (o_scatterPos config))) /\
    (0 < remaining 2.5 0.5 deltas <= 1 /\ 0 < remaining 3 0.5 deltas <= 1).
Proof.
  intros d config deltas cur dm g Hall. cbv zeta. split; [ | split].
  - intros Hy Ht. revert cur dm Hy.
    induction Hall as [ | delta deltas Hd Hall IH]; intros cur dm Hy.
    + simpl. split; [exact Hy | ]. repeat split; ring.
    + unfold frames_in. simpl map. rewrite voxel_run_cons. fold (frames_in SCATTERED deltas).
      cbn [fst snd].
      destruct (voxel_tick'' SCATTERED d delta cur dm) as [cur1 dm1] eqn:E.
      cbn [fst snd].
      assert (Ep : currentPosition cur1 =
                   voxel_move SCATTERED (voxel_step delta) (scatterPos d)
                     (currentPosition cur)).
      { replace cur1 with (fst (voxel_tick'' SCATTERED d delta cur dm))
          by (rewrite E; reflexivity).
        apply voxel_tick_position. }
      destruct (voxel_move_fountain (voxel_step delta) (scatterPos d)
                  (currentPosition cur) Hy) as (Ex & Ey & Ez).
      rewrite <- Ep in Ex, Ey, Ez.
      destruct (voxel_step_range delta Hd) as [Hs0 Hs1].
      assert (Hy1 : vy (currentPosition cur1) < -2).
      { rewrite Ey. apply lerp_below; assumption. }
      destruct (IH cur1 dm1 Hy1) as (Iy & Ix & Iz & Io).
      split; [exact Iy | ].
      rewrite !remaining_cons. fold (voxel_step delta).
      rewrite Ix, Iz, Io, Ex, Ey, Ez. unfold lerp. repeat split; ring.
  - intros Hy Ht. revert g Hy.
    induction Hall as [ | delta deltas Hd Hall IH]; intros g Hy.
    + simpl. split; [exact Hy | ]. repeat split; ring.
    + unfold frames_in. simpl map. rewrite ornament_run_cons.
      fold (frames_in SCATTERED deltas). cbn [fst snd].
      pose proof (ornament_update_position slerp_between setFromEuler
                    SCATTERED config delta g) as Ep.
      change (ornament_targetPos SCATTERED config) with (o_scatterPos config) in Ep.
      destruct (ornament_move_fountain (ornament_step delta) (o_scatterPos config)
                  (position g) Hy) as (Ex & Ey & Ez).
      rewrite <- Ep in Ex, Ey, Ez.
      destruct (ornament_step_range delta Hd) as [Hs0 Hs1].
      assert (Hy1 : vy (position (ornament_update'' SCATTERED config delta g)) < -1).
      { rewrite Ey. apply lerp_below; assumption. }
      destruct (IH _ Hy1) as (Iy & Ix & Iz & Io).
      split; [exact Iy | ].
      rewrite !remaining_cons. fold (ornament_step delta).
      rewrite Ix, Iz, Io, Ex, Ey, Ez. unfold lerp. repeat split; ring.
  - assert (H25 : 0 <= 2.5) by discriminate.
    assert (H3 : 0 <= 3) by discriminate.
    assert (Hw0 : 0 < 0.5) by reflexivity.
    assert (Hw1 : 0.5 <= 1) by discriminate.
    assert (Hw : 0.5 < 1) by reflexivity.
    destruct (remaining_range 2.5 0.5 deltas H25 Hw0 Hw1 Hall) as [[_ A1] A2].
    destruct (remaining_range 3 0.5 deltas H3 Hw0 Hw1 Hall) as [[_ B1] B2].
    split; split; auto.
Qed.

(** X3.  The release is for good when the target is above the rim.  In
    SCATTERED mode, an object at or above the threshold whose SCATTERED
    target is at or above it stays there along every run of frames with
    non-negative deltas, every tick is the standard one, and the three
    offsets from the target contract by the product of the [1 - step]. *)
Theorem X3_fountain_release_is_permanent :
  forall (d : InstanceData) (config : OrnamentConfig) (deltas : list Q)
         (cur : VoxelCurrent) (dm g : Object3D),
    Forall (fun delta => 0 <= delta) deltas ->
    let p := currentPosition cur in
    let p' := currentPosition (fst (voxel_run'' d (frames_in SCATTERED deltas) (cur, dm))) in
    let t := scatterPos d in
    let o := position g in
    let o' := position (ornament_run'' config (frames_in SCATTERED deltas) g) in
    let u := o_scatterPos config in
    (-2 <= vy p -> -2 <= vy t ->
       -2 <= vy p' /\
       vx p' - vx t == remaining 2.5 1 deltas * (vx p - vx t) /\
       vy p' - vy t == remaining 2.5 1 deltas * (vy p - vy t) /\
       vz p' - vz t == remaining 2.5 1 deltas * (vz p - vz t)) /\
    (-1 <= vy o -> -1 <= vy u ->
       -1 <= vy o' /\
       vx o' - vx u == remaining 3 1 deltas * (vx o - vx u) /\
       vy o' - vy u == remaining 3 1 deltas * (vy o - vy u) /\
       vz o' - vz u == remaining 3 1 deltas * (vz o - vz u)).
Proof.
  intros d config deltas cur dm g Hall. cbv zeta. split.
  - intros Hy Ht. revert cur dm Hy.
    induction Hall as [ | delta deltas Hd Hall IH]; intros cur dm Hy.
    + simpl. split; [exact Hy | ]. repeat split; ring.
    + unfold frames_in. simpl map. rewrite voxel_run_cons. fold (frames_in SCATTERED deltas).
      cbn [fst snd].
      destruct (voxel_tick'' SCATTERED d delta cur dm) as [cur1 dm1] eqn:E.
      cbn [fst snd].
      assert (Ep : currentPosition cur1 =
                   Vector3_lerp (currentPosition cur) (scatterPos d) (voxel_step delta)).
      { replace cur1 with (fst (voxel_tick'' SCATTERED d delta cur dm))
          by (rewrite E; reflexivity).
        rewrite voxel_tick_position. apply voxel_move_standard.
        intros [_ Hlt]. apply (Qlt_not_le _ _ Hlt Hy). }
      destruct (Vector3_lerp_offset (currentPosition cur) (scatterPos d)
                  (voxel_step delta)) as (Ex & Ey & Ez).
      destruct (Vector3_lerp_is_lerp (currentPosition cur) (scatterPos d)
                  (voxel_step delta)) as (_ & Ly & _).
      rewrite <- Ep in Ex, Ey, Ez, Ly.
      destruct (voxel_step_range delta Hd) as [Hs0 Hs1].
      assert (Hy1 : -2 <= vy (currentPosition cur1)).
      { rewrite Ly. apply lerp_not_below; assumption. }
      destruct (IH cur1 dm1 Hy1) as (Iy & Ix & Io & Iz).
      split; [exact Iy | ].
      rewrite !remaining_cons. fold (voxel_step delta).
      rewrite Ix, Iz, Io, Ex, Ey, Ez. repeat split; ring.
  - intros Hy Ht. revert g Hy.
    induction Hall as [ | delta deltas Hd Hall IH]; intros g Hy.
    + simpl. split; [exact Hy | ]. repeat split; ring.
    + unfold frames_in. simpl map. rewrite ornament_run_cons.
      fold (frames_in SCATTERED deltas). cbn [fst snd].
      assert (Ep : position (ornament_update'' SCATTERED config delta g) =
                   Vector3_lerp (position g) (o_scatterPos config) (ornament_step delta)).
      { rewrite ornament_update_position. apply ornament_move_standard.
        intros [_ Hlt]. apply (Qlt_not_le _ _ Hlt Hy). }
      destruct (Vector3_lerp_offset (position g) (o_scatterPos config)
                  (ornament_step delta)) as (Ex & Ey & Ez).
      destruct (Vector3_lerp_is_lerp (position g) (o_scatterPos config)
                  (ornament_step delta)) as (_ & Ly & _).
      rewrite <- Ep in Ex, Ey, Ez, Ly.
      destruct (ornament_step_range delta Hd) as [Hs0 Hs1].
      assert (Hy1 : -1 <= vy (position (ornament_update'' SCATTERED config delta g))).
      { rewrite Ly. apply lerp_not_below; assumption. }
      destruct (IH _ Hy1) as (Iy & Ix & Io & Iz).
      split; [exact Iy | ].
      rewrite !remaining_cons. fold (ornament_step delta).
      rewrite Ix, Iz, Io, Ex, Ey, Ez. repeat split; ring.
Qed.

(** The scale of an ornament along a run. *)
Lemma ornament_scale_run :
  forall (config : OrnamentConfig) (frames : list (AppMode * Q)) (g : Object3D)
         (top : Q),
    Forall (fun f => 0 <= snd f) frames ->
    0 < o_scale config -> 0 < vx (scale g) ->
    vx (scale g) <= top -> 0.2 <= top -> o_scale config <= top ->
    let g' := ornament_run'' config frames g in
    0 < vx (scale g') /\ vx (scale g') <= top /\
    (frames <> [] -> scale g' = setScalar (vx (scale g'))).
Proof.
  intros config frames g top Hall Hbase. revert g.
  induction Hall as [ | [m delta] frames Hd Hall IH]; intros g Hpos Htop H02 Hbt g'.
  - subst g'. simpl. split; [exact Hpos | ]. split; [exact Htop | ].
    intros H. contradiction.
  - subst g'. rewrite ornament_run_cons. cbn [fst snd] in *.
    set (g1 := ornament_update'' m config delta g).
    assert (Et : 0 < ornament_targetScale m config <= top).
    { destruct m; simpl; split; try assumption; reflexivity. }
    destruct Et as [Et0 Et1].
    destruct (ornament_step_range delta Hd) as [Hs0 Hs1].
    assert (E1 : vx (scale g1) = lerp (vx (scale g)) (ornament_targetScale m config)
                                   (ornament_step delta)) by reflexivity.
    assert (P1 : 0 < vx (scale g1)).
    { rewrite E1.
      assert (H : lerp (- vx (scale g)) (- ornament_targetScale m config)
                    (ornament_step delta) < 0) by (apply lerp_below; lra).
      unfold lerp in *. lra. }
    assert (T1 : vx (scale g1) <= top).
    { rewrite E1.
      assert (H : - top <= lerp (- vx (scale g)) (- ornament_targetScale m config)
                                (ornament_step delta)) by (apply lerp_not_below; lra).
      unfold lerp in *. lra. }
    destruct (IH g1 P1 T1 H02 Hbt) as (A & B & C).
    split; [exact A | ]. split; [exact B | ]. intros _.
    destruct frames as [ | f frames]; [reflexivity | ].
    apply C. discriminate.
Qed.

(** X4.  An ornament's scale never collapses: along every run of frames,
    in any modes, with non-negative deltas, the current scale stays
    positive when it starts positive and the base scale of the
    configuration is positive, and after the first frame the three scale
    components are equal.  In exact arithmetic the scale never exceeds a
    bound that holds for the start value, for 0.2 and for the base scale:
    [<= top] is an inequality of rational numbers, every frame giving the
    convex combination [(1 - step) * scale + step * target]; in binary64
    that sum can pass a tight bound by a rounding error. *)
Theorem X4_ornament_scale_stays_positive :
  forall (config : OrnamentConfig) (frames : list (AppMode * Q)) (g : Object3D)
         (top : Q),
    Forall (fun f => 0 <= snd f) frames ->
    0 < o_scale config -> 0 < vx (scale g) ->
    vx (scale g) <= top -> 0.2 <= top -> o_scale config <= top ->
    let g' := ornament_run'' config frames g in
    0 < vx (scale g') /\ vx (scale g') <= top /\
    (frames <> [] -> scale g' = setScalar (vx (scale g'))).
Proof. exact ornament_scale_run. Qed.

(** X5.  A frame keeps the number of voxels: with the mesh mounted and as
    many current states as instance data, [useFrame] returns as many
    current states and stores as many matrices; the matrix of voxel [i]
    carries the new position of voxel [i] and the target scale of the
    mode. *)
Theorem X5_frame_keeps_the_voxels :
  forall (m : AppMode) (data : list InstanceData) (delta : Q) (s : VoxelTreeState)
         (mats0 : list Object3D),
    meshRef s = Some mats0 -> length (currents s) = length data ->
    let s' := VoxelTree_useFrame slerp_between m data delta s in
    length (currents s') = length data /\
    exists mats, meshRef s' = Some mats /\ length mats = length data /\
      forall i cur' mat,
        nth_error (currents s') i = Some cur' -> nth_error mats i = Some mat ->
        position mat = currentPosition cur' /\
        quaternion mat = currentQuaternion cur' /\
        scale mat = setScalar (voxel_targetScale m).
Proof.
  intros m data delta s mats0 Hr Hlen. cbv zeta.
  unfold VoxelTree_useFrame. rewrite Hr.
  generalize (dummy s) as dm. generalize (voxel_step delta) as step.
  revert Hlen. generalize (currents s) as curs. clear Hr s mats0.
  induction data as [ | d0 data IH]; intros curs Hlen step dm.
  - destruct curs; [ | discriminate Hlen]. simpl. split; [reflexivity | ].
    exists []. split; [reflexivity | ]. split; [reflexivity | ].
    intros [ | i] c1 m1 H; discriminate H.
  - destruct curs as [ | cur0 curs]; [discriminate Hlen | ].
    injection Hlen as Hlen. simpl voxel_loop.
    specialize (IH curs Hlen step
                  (snd (voxel_iteration slerp_between m step d0 cur0 dm))).
    destruct (voxel_loop slerp_between m step data curs
                (snd (voxel_iteration slerp_between m step d0 cur0 dm)))
      as [[rest mats] dm''] eqn:E.
    unfold voxel_iteration in *. simpl in E, IH |- *. rewrite E. simpl.
    destruct IH as (Il & mats' & Em & Ml & Hn).
    injection Em as <-.
    split; [rewrite Il; reflexivity | ].
    eexists. split; [reflexivity | ]. split; [simpl; rewrite Ml; reflexivity | ].
    intros [ | i] c1 m1 Hc Hm'.
    + injection Hc as <-. injection Hm' as <-. repeat split.
    + apply (Hn i c1 m1); assumption.
Qed.

(** The generated initial positions, for draws in [[0, 1)]. *)
Lemma voxel_initialPos_box (u1 u2 u3 : Q) :
  0 <= u1 < 1 -> 0 <= u2 < 1 -> 0 <= u3 < 1 ->
  let p := voxel_initialPos u1 u2 u3 in
  (-1.4 <= vx p < 1.4) /\ (-5.5 <= vy p < -2.5) /\ (-1.4 <= vz p < 1.4).
Proof. intros [] [] []. simpl. repeat split; lra. Qed.

Lemma ornament_initialPos_box (u1 u2 u3 : Q) :
  0 <= u1 < 1 -> 0 <= u2 < 1 -> 0 <= u3 < 1 ->
  let p := ornament_initialPos u1 u2 u3 in
  (-1.25 <= vx p < 1.25) /\ (-5.5 <= vy p < -3) /\ (-1.25 <= vz p < 1.25).
Proof. intros [] [] []. simpl. repeat split; lra. Qed.

(** X6.  Every generated initial position is inside the box and below the
    rim threshold of its class: for draws in [[0, 1)], a voxel starts with
    |X|, |Z| <= 1.4 and Y in [[-5.5, -2.5)], an ornament is sent to
    |X|, |Z| <= 1.25 and Y in [[-5.5, -3)].  So the first SCATTERED tick of a
    voxel in its start state, and of an ornament resting at its initial
    position, takes the fountain branch: X and Z are lerped toward 0 with
    factor [step * 0.5], not toward the scatter target. *)
Theorem X6_start_positions_are_under_the_rim :
  forall (v : VoxelData) (scatter : Vector3) (initialR scatterR : Quaternion)
         (config : OrnamentConfig) (u1 u2 u3 delta : Q) (dm g : Object3D),
    0 <= u1 < 1 -> 0 <= u2 < 1 -> 0 <= u3 < 1 ->
    let d := instance_of v scatter initialR scatterR u1 u2 u3 in
    let p := currentPosition (voxel_start d) in
    let p' := currentPosition (fst (voxel_tick'' SCATTERED d delta (voxel_start d) dm)) in
    let o' := position (ornament_update'' SCATTERED config delta g) in
    ((-1.4 <= vx p < 1.4) /\ (-5.5 <= vy p < -2.5) /\ (-1.4 <= vz p < 1.4) /\
     vx p' == lerp (vx p) 0 (voxel_step delta * 0.5) /\
     vz p' == lerp (vz p) 0 (voxel_step delta * 0.5)) /\
    (o_initialPos config = ornament_initialPos u1 u2 u3 ->
     position g = o_initialPos config ->
     (-1.25 <= vx (position g) < 1.25) /\ (-5.5 <= vy (position g) < -3) /\
     (-1.25 <= vz (position g) < 1.25) /\
     vx o' == lerp (vx (position g)) 0 (ornament_step delta * 0.5) /\
     vz o' == lerp (vz (position g)) 0 (ornament_step delta * 0.5)).
Proof.
  intros v scatter initialR scatterR config u1 u2 u3 delta dm g H1 H2 H3.
  cbv zeta. split.
  - destruct (voxel_initialPos_box u1 u2 u3 H1 H2 H3) as (Bx & By & Bz).
    change (currentPosition
              (voxel_start (instance_of v scatter initialR scatterR u1 u2 u3)))
      with (voxel_initialPos u1 u2 u3).
    split; [exact Bx | ]. split; [exact By | ]. split; [exact Bz | ].
    rewrite voxel_tick_position.
    change (currentPosition
              (voxel_start (instance_of v scatter initialR scatterR u1 u2 u3)))
      with (voxel_initialPos u1 u2 u3).
    assert (Hy : vy (voxel_initialPos u1 u2 u3) < -2) by (cbv zeta in By; lra).
    destruct (voxel_move_fountain (voxel_step delta)
                (voxel_targetPos SCATTERED
                   (instance_of v scatter initialR scatterR u1 u2 u3))
                (voxel_initialPos u1 u2 u3) Hy) as (Ex & _ & Ez).
    split; assumption.
  - intros Ei Eg.
    destruct (ornament_initialPos_box u1 u2 u3 H1 H2 H3) as (Bx & By & Bz).
    rewrite Eg, Ei.
    split; [exact Bx | ]. split; [exact By | ]. split; [exact Bz | ].
    rewrite ornament_update_position, Eg, Ei.
    assert (Hy : vy (ornament_initialPos u1 u2 u3) < -1) by (cbv zeta in By; lra).
    destruct (ornament_move_fountain (ornament_step delta)
                (ornament_targetPos SCATTERED config)
                (ornament_initialPos u1 u2 u3) Hy) as (Ex & _ & Ez).
    split; assumption.
Qed.

Lemma decoration_scale_range (ty : OrnamentType) (u : Q) :
  0 <= u < 1 -> 0.6 <= decoration_scale ty u <= 1.1.
Proof.
  intros [H0 H1]. unfold decoration_scale.
  destruct ty; simpl; split; try lra; try discriminate.
Qed.

(** X7.  The generated scales and what the frames make of them: for a draw
    in [[0, 1)] the base scale of a decoration is 1.1 for a camera, 0.8 for
    a bulb and in [[0.6, 1)] otherwise.  With such a base scale (or the
    topper's 1), an ornament group that starts at three.js's default scale 1
    keeps, in exact arithmetic, a scale in [(0, 1.1]] along every run of
    frames with non-negative deltas, in any modes.  The upper end is an
    inequality of rational numbers: in binary64 a scale resting at the
    bound 1.1 can pass it by a rounding error. *)
Theorem X7_generated_scale_stays_in_range :
  forall (config : OrnamentConfig) (u : Q) (frames : list (AppMode * Q))
         (g : Object3D),
    0 <= u < 1 ->
    (type config = topper /\ o_scale config = 1 \/
     o_scale config = decoration_scale (type config) u) ->
    Forall (fun f => 0 <= snd f) frames ->
    scale g = setScalar 1 ->
    (is_camera (type config) = true -> decoration_scale (type config) u = 1.1) /\
    (is_bulb (type config) = true -> decoration_scale (type config) u = 0.8) /\
    (is_camera (type config) = false -> is_bulb (type config) = false ->
       0.6 <= decoration_scale (type config) u < 1) /\
    0 < vx (scale (ornament_run'' config frames g)) <= 1.1.
Proof.
  intros config u frames g Hu Hs Hall Hg.
  split; [ | split; [ | split]].
  - intros Hc. unfold decoration_scale. rewrite Hc. reflexivity.
  - intros Hb. unfold decoration_scale. rewrite Hb.
    destruct (type config); try discriminate Hb; reflexivity.
  - intros Hc Hb. unfold decoration_scale. rewrite Hc, Hb. lra.
  - assert (Hrange : 0.6 <= o_scale config <= 1.1).
    { destruct Hs as [[_ E] | E]; rewrite E.
      - split; discriminate.
      - apply decoration_scale_range. exact Hu. }
    assert (Hpos : 0 < o_scale config) by lra.
    assert (Hg1 : vx (scale g) = 1) by (rewrite Hg; reflexivity).
    destruct (ornament_scale_run config frames g 1.1 Hall Hpos) as (A & B & _).
    + rewrite Hg1. reflexivity.
    + rewrite Hg1. discriminate.
    + discriminate.
    + lra.
    + split; assumption.
Qed.

End MoreInterpolation.

Local Close Scope Q_scope.

(** * Further properties of the orchestrator *)

Lemma commit_2_settles (s : SceneState) : settled (commit 2 s).
Proof.
  destruct s as [m im b ld to ts nh nw].
  destruct m, im, ld as [[[] []] | ], to; reflexivity.
Qed.

(** X8.  The effect's own state updates do not loop: from any component
    state, reachable or not, two effect runs are enough to reach a state
    whose dependencies are those of the last run ([commit 2], whose fuel
    bounds the number of effect runs); any further fuel gives the same
    state, which is the one [render] returns, and rendering again changes
    nothing.  One effect run is not always enough. *)
Theorem X8_effect_loop_stabilises :
  forall (s : SceneState) (k : nat),
    settled (commit 2 s) /\
    commit (2 + k) s = commit 2 s /\
    render s = commit 2 s /\
    settled (render s) /\
    commit (3 + k) s = render s /\
    render (render s) = render s /\
    ~ settled (commit 1 (mkSceneState INITIAL TREE false None None [] 0 0)).
Proof.
  intros s k.
  assert (E2 : forall j, commit (2 + j) s = commit 2 s).
  { intros j. rewrite commit_add. apply commit_of_settled. apply commit_2_settles. }
  split; [apply commit_2_settles | ].
  split; [apply E2 | ].
  split; [exact (E2 1%nat) | ].
  split; [apply commit_settles | ].
  split; [apply commit_enough_fuel | ].
  split.
  - unfold render at 1. apply commit_of_settled. apply commit_settles.
  - intros H. vm_compute in H. discriminate H.
Qed.

(** X9.  Requesting the mode that is already requested does nothing: in
    every reachable state the whole component state, the pending timer and
    its due time included, is unchanged, so repeating a request does not
    postpone what is pending. *)
Theorem X9_same_request_is_ignored :
  forall (tr : list Event),
    let s := run tr session_start in
    step (SetMode (mode s)) s = s.
Proof.
  intros tr s. apply setmode_same. apply reachable_orchestrated.
Qed.

(** *** Every pending timer is due within 500 ms *)

Lemma mode_eq_dec (a b : AppMode) : {a = b} + {a <> b}.
Proof. decide equality. Qed.

Lemma step_timely (e : Event) (s : SceneState) :
  orchestrated s -> timely s -> timely (step e s).
Proof.
  intros Ho Ht. destruct e as [m | d | i].
  - destruct (mode_eq_dec (mode s) m) as [E | Hch].
    + subst m. rewrite (setmode_same s Ho). exact Ht.
    + destruct m.
      * destruct (setmode_initial s Ho Hch) as (h & nh & E). rewrite E.
        intros t [<- | []]. simpl. lia.
      * destruct (mode_eq_dec (internalMode s) INITIAL) as [Ei | Ei].
        -- rewrite setmode_release; try assumption; try discriminate.
           intros t [<- | []]. simpl. lia.
        -- rewrite setmode_direct; try assumption; try discriminate.
           intros t [].
      * destruct (mode_eq_dec (internalMode s) INITIAL) as [Ei | Ei].
        -- rewrite setmode_release; try assumption; try discriminate.
           intros t [<- | []]. simpl. lia.
        -- rewrite setmode_direct; try assumption; try discriminate.
           intros t [].
  - intros t Hin. simpl in *. specialize (Ht t Hin). lia.
  - simpl.
    destruct Ho as [h nh nw | lid h du nh nw | m0 h du nh nw Hm0 | m0 h nh nw Hm0].
    + rewrite fire_no_timer by reflexivity. exact Ht.
    + rewrite fire_closing. destruct (Nat.eqb h i && Nat.leb du nw); [ | exact Ht].
      intros t [].
    + rewrite (fire_opening _ _ _ _ _ _ Hm0).
      destruct (Nat.eqb h i && Nat.leb du nw); [ | exact Ht].
      intros t [].
    + rewrite fire_no_timer by reflexivity. exact Ht.
Qed.

Lemma reachable_timely (tr : list Event) : timely (run tr session_start).
Proof.
  assert (H : forall tr s, orchestrated s -> timely s -> timely (run tr s)).
  { clear tr. induction tr as [ | e tr IH]; intros s Ho Ht; [exact Ht | ].
    rewrite run_cons. apply IH.
    - apply step_orchestrated. exact Ho.
    - apply step_timely; assumption. }
  apply H.
  - rewrite session_start_shape. constructor.
  - rewrite session_start_shape. intros t [<- | []]. simpl. lia.
Qed.

Lemma advance_opening_done (k : nat) (m : AppMode) (h du nh nw : nat) :
  m <> INITIAL -> du <= nw + S k ->
  advance (S k) (st_opening m h du nh nw) = st_open m None nh (nw + S k).
Proof.
  intros Hm. induction k as [ | k IH]; intros Hdu.
  - rewrite advance_S. simpl advance. rewrite (millisecond_opening _ _ _ _ _ Hm).
    assert (E : Nat.leb du (nw + 1) = true) by (apply Nat.leb_le; lia).
    rewrite E. reflexivity.
  - rewrite advance_S.
    destruct (Nat.le_gt_cases du (nw + S k)) as [Hle | Hgt].
    + rewrite (IH Hle), millisecond_no_timer by reflexivity.
      unfold elapse, st_open; simpl. rewrite <- Nat.add_assoc, Nat.add_1_r. reflexivity.
    + rewrite advance_opening_wait by (assumption || lia).
      rewrite (millisecond_opening _ _ _ _ _ Hm).
      assert (E : Nat.leb du (nw + S k + 1) = true) by (apply Nat.leb_le; lia).
      rewrite E, <- Nat.add_assoc, Nat.add_1_r. reflexivity.
Qed.

Lemma advance_closing_done (k : nat) (lid : bool) (h du nh nw : nat) :
  du <= nw + S k ->
  advance (S k) (st_closing lid h du nh nw) = st_closed (Some h) nh (nw + S k).
Proof.
  induction k as [ | k IH]; intros Hdu.
  - rewrite advance_S. simpl advance. rewrite millisecond_closing.
    assert (E : Nat.leb du (nw + 1) = true) by (apply Nat.leb_le; lia).
    rewrite E. reflexivity.
  - rewrite advance_S.
    destruct (Nat.le_gt_cases du (nw + S k)) as [Hle | Hgt].
    + rewrite (IH Hle), millisecond_no_timer by reflexivity.
      unfold elapse, st_closed; simpl. rewrite <- Nat.add_assoc, Nat.add_1_r. reflexivity.
    + rewrite advance_closing_wait by lia.
      rewrite millisecond_closing.
      assert (E : Nat.leb du (nw + S k + 1) = true) by (apply Nat.leb_le; lia).
      rewrite E, <- Nat.add_assoc, Nat.add_1_r. reflexivity.
Qed.

(** X10.  The orchestrator always comes to rest.  From every reachable
    state, with no further request and timers fired on time, 500 ms (or
    more) later nothing is pending, the requested mode is unchanged,
    [internalMode] equals it, and the lid is open exactly when it is not
    INITIAL. *)
Theorem X10_orchestrator_comes_to_rest :
  forall (tr : list Event) (k : nat),
    500 <= k ->
    let s := run tr session_start in
    mode (advance k s) = mode s /\ at_rest (advance k s).
Proof.
  intros tr k Hk s.
  assert (Ho : orchestrated s) by apply reachable_orchestrated.
  assert (Ht : timely s) by apply reachable_timely.
  clearbody s. destruct k as [ | k]; [lia | ].
  destruct Ho as [h nh nw | lid h du nh nw | m0 h du nh nw Hm0 | m0 h nh nw Hm0].
  - rewrite advance_closed. split; [reflexivity | ]. repeat split.
  - rewrite advance_closing_done.
    + split; [reflexivity | ]. repeat split.
    + specialize (Ht (mkTimer h du CloseLid) (or_introl eq_refl)). simpl in Ht. lia.
  - rewrite (advance_opening_done _ _ _ _ _ _ Hm0).
    + split; [reflexivity | ]. unfold at_rest. simpl.
      destruct m0; [contradiction | | ]; repeat split.
    + specialize (Ht (mkTimer h du (SetInternalMode m0)) (or_introl eq_refl)).
      simpl in Ht. lia.
  - rewrite advance_open. split; [reflexivity | ]. unfold at_rest. simpl.
    destruct m0; [contradiction | | ]; repeat split.
Qed.

(** *** Handles are never given out twice *)

Lemma setmode_initial_handles (s : SceneState) :
  orchestrated s -> mode s <> INITIAL ->
  exists h nh, step (SetMode INITIAL) s = st_closing true h (now s + 500) nh (now s) /\
               nextHandle s <= h /\ h < nh.
Proof.
  intros H Hm.
  destruct H as [h nh nw | lid h du nh nw | m0 h du nh nw Hm0 | m0 h nh nw Hm0];
    try (simpl in Hm; contradiction).
  - exists nh, (S nh). split; [ | simpl; lia].
    destruct m0; try contradiction; orch_compute; reflexivity.
  - exists (S nh), (S (S nh)). split; [ | simpl; lia].
    destruct m0; try contradiction; destruct h; orch_compute; reflexivity.
Qed.

(** After an event a pending timer is either one that was pending before
    or one with a handle given out by that event. *)
Lemma step_handles (e : Event) (s : SceneState) :
  orchestrated s ->
  nextHandle s <= nextHandle (step e s) /\
  forall t, In t (timers (step e s)) ->
    In t (timers s) \/ (nextHandle s <= handle t /\ handle t < nextHandle (step e s)).
Proof.
  intros Ho. destruct e as [m | d | i].
  - destruct (mode_eq_dec (mode s) m) as [E | Hch].
    + subst m. rewrite (setmode_same s Ho). split; [lia | ]. intros t Hin. left. exact Hin.
    + destruct m.
      * destruct (setmode_initial_handles s Ho Hch) as (h & nh & E & H1 & H2).
        rewrite E. simpl. split; [lia | ]. intros t [<- | []]. right. simpl. lia.
      * destruct (mode_eq_dec (internalMode s) INITIAL) as [Ei | Ei].
        -- rewrite setmode_release; try assumption; try discriminate.
           simpl. split; [lia | ]. intros t [<- | []]. right. simpl. lia.
        -- rewrite setmode_direct; try assumption; try discriminate.
           simpl. split; [lia | ]. intros t [].
      * destruct (mode_eq_dec (internalMode s) INITIAL) as [Ei | Ei].
        -- rewrite setmode_release; try assumption; try discriminate.
           simpl. split; [lia | ]. intros t [<- | []]. right. simpl. lia.
        -- rewrite setmode_direct; try assumption; try discriminate.
           simpl. split; [lia | ]. intros t [].
  - simpl. split; [lia | ]. intros t Hin. left. exact Hin.
  - simpl.
    destruct Ho as [h nh nw | lid h du nh nw | m0 h du nh nw Hm0 | m0 h nh nw Hm0].
    + rewrite fire_no_timer by reflexivity. split; [lia | ]. intros t Hin. left. exact Hin.
    + rewrite fire_closing. destruct (Nat.eqb h i && Nat.leb du nw).
      * simpl. split; [lia | ]. intros t [].
      * split; [lia | ]. intros t Hin. left. exact Hin.
    + rewrite (fire_opening _ _ _ _ _ _ Hm0).
      destruct (Nat.eqb h i && Nat.leb du nw).
      * simpl. split; [lia | ]. intros t [].
      * split; [lia | ]. intros t Hin. left. exact Hin.
    + rewrite fire_no_timer by reflexivity. split; [lia | ]. intros t Hin. left. exact Hin.
Qed.

(** A change of the requested mode leaves only new handles pending. *)
Lemma setmode_change_handles (m : AppMode) (s : SceneState) :
  orchestrated s -> mode s <> m ->
  forall t, In t (timers (step (SetMode m) s)) -> nextHandle s <= handle t.
Proof.
  intros Ho Hch. destruct m.
  - destruct (setmode_initial_handles s Ho Hch) as (h & nh & E & H1 & H2).
    rewrite E. intros t [<- | []]. simpl. lia.
  - destruct (mode_eq_dec (internalMode s) INITIAL) as [Ei | Ei].
    + rewrite setmode_release; try assumption; try discriminate.
      intros t [<- | []]. simpl. lia.
    + rewrite setmode_direct; try assumption; try discriminate. intros t [].
  - destruct (mode_eq_dec (internalMode s) INITIAL) as [Ei | Ei].
    + rewrite setmode_release; try assumption; try discriminate.
      intros t [<- | []]. simpl. lia.
    + rewrite setmode_direct; try assumption; try discriminate. intros t [].
Qed.

Lemma run_handles_from (n : nat) (tr : list Event) (s : SceneState) :
  orchestrated s -> n <= nextHandle s ->
  (forall t, In t (timers s) -> n <= handle t) ->
  forall t, In t (timers (run tr s)) -> n <= handle t.
Proof.
  revert s. induction tr as [ | e tr IH]; intros s Ho Hn Hall; [exact Hall | ].
  rewrite run_cons. destruct (step_handles e s Ho) as [Hmono Hnew].
  apply IH.
  - apply step_orchestrated. exact Ho.
  - lia.
  - intros t Hin. destruct (Hnew t Hin) as [Hold | [Hge _]].
    + apply Hall. exact Hold.
    + lia.
Qed.

Lemma reachable_handles_given (tr : list Event) : handles_given (run tr session_start).
Proof.
  assert (H : forall tr s, orchestrated s -> handles_given s -> handles_given (run tr s)).
  { clear tr. induction tr as [ | e tr IH]; intros s Ho Hg; [exact Hg | ].
    rewrite run_cons. destruct (step_handles e s Ho) as [Hmono Hnew].
    apply IH.
    - apply step_orchestrated. exact Ho.
    - intros t Hin. destruct (Hnew t Hin) as [Hold | [_ Hlt]].
      + specialize (Hg t Hold). lia.
      + exact Hlt. }
  apply H.
  - rewrite session_start_shape. constructor.
  - rewrite session_start_shape. intros t [<- | []]. simpl. lia.
Qed.

(** X11.  A cancelled timer never fires.  When the requested mode changes
    in a reachable state, the handle of the timer that was pending is never
    pending again, in any continuation of the run; a firing event for it,
    at any later time, leaves the component state unchanged. *)
Theorem X11_cancelled_timer_never_fires :
  forall (tr tr' : list Event) (m : AppMode) (t : Timer),
    let s := run tr session_start in
    In t (timers s) -> mode s <> m ->
    let s2 := run tr' (step (SetMode m) s) in
    (forall t', In t' (timers s2) -> handle t' <> handle t) /\
    fire (handle t) s2 = s2.
Proof.
  intros tr tr' m t s Hin Hch s2.
  assert (Ho : orchestrated s) by apply reachable_orchestrated.
  assert (Hg : handle t < nextHandle s) by (apply (reachable_handles_given tr); exact Hin).
  assert (Hfrom : forall t', In t' (timers s2) -> nextHandle s <= handle t').
  { apply run_handles_from.
    - apply step_orchestrated. exact Ho.
    - apply (step_handles (SetMode m) s Ho).
    - apply setmode_change_handles; assumption. }
  assert (Hne : forall t', In t' (timers s2) -> handle t' <> handle t).
  { intros t' Hin'. specialize (Hfrom t' Hin'). lia. }
  split; [exact Hne | ].
  unfold fire.
  destruct (find (fun t0 => Nat.eqb (handle t0) (handle t)) (timers s2)) as [t0 | ] eqn:E;
    [ | reflexivity].
  apply find_some in E. destruct E as [Hin0 Heq].
  apply Nat.eqb_eq in Heq. exfalso. apply (Hne t0 Hin0). exact Heq.
Qed.

(** * Further properties of the generators *)

Local Open Scope R_scope.

Lemma types_length : length types = 25%nat.
Proof. reflexivity. Qed.

Lemma types_without_topper (ty : OrnamentType) : In ty types -> ty <> topper.
Proof.
  unfold types. intros Hin E. subst ty.
  repeat (destruct Hin as [Hin | Hin]; [discriminate Hin | ]). exact Hin.
Qed.

Lemma pickType_in_types (u : R) : 0 <= u < 1 -> In (pickType u) types.
Proof.
  intros [H0 H1]. unfold pickType. apply nth_In. rewrite types_length.
  assert (E25 : INR 25 = 25) by (rewrite INR_IZR_INZ; reflexivity).
  rewrite E25.
  destruct (base_Int_part (u * 25)) as [Hlo Hhi].
  assert (Hge : (-1 < Int_part (u * 25))%Z) by (apply lt_IZR; lra).
  assert (Hlt : (Int_part (u * 25) < 25)%Z) by (apply lt_IZR; lra).
  lia.
Qed.

Lemma INR_types_length : INR (length types) = 25.
Proof. rewrite types_length, INR_IZR_INZ. reflexivity. Qed.

(** For a draw in [[0, 1)] the index is in range and the entry read is
    the one [pickType] returns. *)
Lemma types_at_in_range (u : R) :
  0 <= u < 1 ->
  (0 <= Int_part (u * INR (length types)) < Z.of_nat (length types))%Z /\
  types_at u = Some (pickType u).
Proof.
  intros [H0 H1]. unfold types_at, pickType. rewrite INR_types_length.
  destruct (base_Int_part (u * 25)) as [Hlo Hhi].
  assert (Hge : (-1 < Int_part (u * 25))%Z) by (apply lt_IZR; lra).
  assert (Hlt : (Int_part (u * 25) < 25)%Z) by (apply lt_IZR; lra).
  rewrite types_length. split; [simpl Z.of_nat; lia | ].
  cbv zeta.
  assert (E : (Int_part (u * 25) <? 0)%Z = false) by (apply Z.ltb_ge; lia).
  rewrite E. apply nth_error_nth'. rewrite types_length. lia.
Qed.

(** Outside [[0, 1)] the index is outside the array. *)
Lemma types_at_out_of_range (u : R) : u < 0 \/ 1 <= u -> types_at u = None.
Proof.
  intros H. unfold types_at. rewrite INR_types_length. cbv zeta.
  destruct (base_Int_part (u * 25)) as [Hlo Hhi].
  destruct H as [Hneg | Hbig].
  - assert (Hlt : (Int_part (u * 25) < 0)%Z) by (apply lt_IZR; lra).
    apply Z.ltb_lt in Hlt. rewrite Hlt. reflexivity.
  - assert (Hge : (24 < Int_part (u * 25))%Z) by (apply lt_IZR; lra).
    assert (E : (Int_part (u * 25) <? 0)%Z = false) by (apply Z.ltb_ge; lia).
    rewrite E. apply nth_error_None. rewrite types_length. lia.
Qed.

(** X12.  The generated set of ornaments: whatever the draws, there are
    [count] = 90 configurations and their ids are 0, 1, ..., 89 in this
    order, so the React keys are distinct, and the topper is the
    configuration at index 0 and no other.  For type draws in [[0, 1)] the
    index [Math.floor(draw * types.length)] of every decoration is in
    range, [0 <= index < 25], so the type read from [types] is defined: it
    is the entry at that index and never the topper.  The range of the draw
    is needed: for a number below 0, or 1 or more, the index is outside the
    array and JavaScript reads [undefined]. *)
Theorem X12_ornament_ids_and_types :
  forall (typeDraw : nat -> R),
    length (ornaments typeDraw) = count /\
    map c_id (ornaments typeDraw) = seq 0 count /\
    NoDup (map c_id (ornaments typeDraw)) /\
    ((forall i, 0 <= typeDraw i < 1) ->
     forall i c, nth_error (ornaments typeDraw) i = Some c ->
       (i = 0%nat -> c = topperConfig) /\
       (i <> 0%nat ->
          (0 <= Int_part (typeDraw i * INR (length types))
             < Z.of_nat (length types))%Z /\
          types_at (typeDraw i) = Some (c_type c) /\
          In (c_type c) types /\ c_type c <> topper)) /\
    (forall u, u < 0 \/ 1 <= u -> types_at u = None).
Proof.
  intros typeDraw.
  assert (Eids : map c_id (ornaments typeDraw) = seq 0 count).
  { unfold ornaments. rewrite map_cons, map_map.
    change (fun x : nat => c_id (decoration x (typeDraw x))) with (fun x : nat => x).
    rewrite map_id. reflexivity. }
  split; [ | split; [exact Eids | split; [ | split; [ | exact types_at_out_of_range]]]].
  - rewrite <- (length_map c_id), Eids, length_seq. reflexivity.
  - rewrite Eids. apply seq_NoDup.
  - intros Hdraw i c Hn. split.
    + intros ->. simpl in Hn. injection Hn as <-. reflexivity.
    + intros Hi. destruct i as [ | j]; [contradiction | ].
      assert (Hlt : (S j < count)%nat).
      { assert (Hl : (S j < length (ornaments typeDraw))%nat).
        { apply nth_error_Some. rewrite Hn. discriminate. }
        rewrite <- (length_map c_id), Eids, length_seq in Hl. exact Hl. }
      rewrite ornaments_nth in Hn by lia. injection Hn as <-.
      simpl c_type.
      destruct (types_at_in_range (typeDraw (S j)) (Hdraw (S j))) as [Hidx Hat].
      split; [exact Hidx | ]. split; [exact Hat | ]. split.
      * apply pickType_in_types. apply Hdraw.
      * apply types_without_topper. apply pickType_in_types. apply Hdraw.
Qed.

Lemma radius_formula (i : nat) : radius i = 6975 / 1000 - (17 / 300) * INR i.
Proof. rewrite radius_linear_in_height, placement_y_formula. field. Qed.

(** X13.  Every decoration hangs off the axis, on the cone: for
    [1 <= i < count] the tree position of decoration [i] is at horizontal
    distance [radius i] from the vertical axis, with
    [1.93 < radius i < 6.92], at a height strictly between -5 and 7. *)
Theorem X13_decorations_hang_on_the_cone :
  forall (i : nat),
    (1 <= i)%nat -> (i < count)%nat ->
    let p := decoration_treePos i in
    sqrt (rx p * rx p + rz p * rz p) = radius i /\
    193 / 100 < radius i < 692 / 100 /\
    -5 < ry p < 7.
Proof.
  intros i H1 H2 p.
  assert (Hi1 : 1 <= INR i) by (apply (le_INR 1); exact H1).
  assert (Hi2 : INR i <= 89).
  { replace 89 with (INR 89) by (rewrite INR_IZR_INZ; reflexivity).
    apply le_INR. unfold count in H2. lia. }
  assert (Hr : 193 / 100 < radius i < 692 / 100) by (rewrite radius_formula; lra).
  split; [ | split; [exact Hr | ]].
  - subst p. simpl.
    assert (E : radius i * cos (theta i) * (radius i * cos (theta i))
                + radius i * sin (theta i) * (radius i * sin (theta i))
                = radius i * radius i * ((sin (theta i))² + (cos (theta i))²))
      by (unfold Rsqr; ring).
    rewrite E, sin2_cos2, Rmult_1_r. apply sqrt_square. lra.
  - subst p. simpl. rewrite placement_y_formula. lra.
Qed.

(** X14.  The scatter targets lie in a spherical shell: for a radius draw
    in [[0, 1)] and a latitude draw in [[0, 1]], whatever the longitude
    draw, the distance of the scatter position from the origin is
    [12 + 10 * uR], between 12 and 22, and its third coordinate is that
    distance times [2 * uPhi - 1].  The shell reaches below the rim of the
    box: with the longitude draw 3/4 and the latitude draw 1/2 the scatter
    position is straight below the origin, at height [-(12 + 10 * uR)]. *)
Theorem X14_scatter_targets_lie_in_a_shell :
  forall (uR uTheta uPhi : R),
    0 <= uR < 1 -> 0 <= uPhi <= 1 ->
    let p := scatterPos_of uR uTheta uPhi in
    sqrt (rx p * rx p + ry p * ry p + rz p * rz p) = 12 + uR * 10 /\
    12 <= sqrt (rx p * rx p + ry p * ry p + rz p * rz p) < 22 /\
    rz p = (12 + uR * 10) * (uPhi * 2 - 1) /\
    ry (scatterPos_of uR (3 / 4) (1 / 2)) = - (12 + uR * 10) /\
    ry (scatterPos_of uR (3 / 4) (1 / 2)) < -2.
Proof.
  intros uR uTheta uPhi [HR0 HR1] [HP0 HP1] p.
  set (r := 12 + uR * 10). set (a := uTheta * PI * 2). set (b := acos (uPhi * 2 - 1)).
  assert (E : rx p * rx p + ry p * ry p + rz p * rz p = r * r).
  { subst p. unfold scatterPos_of. simpl. fold r a b.
    assert (Ea := sin2_cos2 a). assert (Eb := sin2_cos2 b). unfold Rsqr in Ea, Eb.
    transitivity (r * r * (sin b * sin b * (sin a * sin a + cos a * cos a)
                           + cos b * cos b)); [ring | ].
    rewrite Ea, Rmult_1_r, Eb. ring. }
  assert (Hs : sqrt (rx p * rx p + ry p * ry p + rz p * rz p) = r).
  { rewrite E. apply sqrt_square. unfold r. lra. }
  assert (Hdown : ry (scatterPos_of uR (3 / 4) (1 / 2)) = - r).
  { unfold scatterPos_of. simpl. fold r.
    replace (1 / 2 * 2 - 1) with 0 by field.
    replace (3 / 4 * PI * 2) with (3 * (PI / 2)) by field.
    rewrite acos_0, sin_PI2, sin_3PI2. ring. }
  split; [exact Hs | ]. split; [rewrite Hs; unfold r; lra | ].
  split; [ | split; [exact Hdown | rewrite Hdown; unfold r; lra]].
  subst p. unfold scatterPos_of. simpl. fold r b. unfold b.
  rewrite cos_acos by lra. reflexivity.
Qed.

Local Close Scope R_scope.

(** * Properties of the voxel generator *)

Local Open Scope Q_scope.

(** [sqrt_le] decides the comparison the source makes on [Math.sqrt]. *)
Lemma sqrt_le_spec (n : Z) (q : Q) :
  (0 <= n)%Z -> (sqrt_le n q = true <-> (sqrt (IZR n) <= Q2R q)%R).
Proof.
  intros Hn. unfold sqrt_le. rewrite andb_true_iff, !Qle_bool_iff.
  assert (En : Q2R (inject_Z n) = IZR n).
  { unfold Q2R, inject_Z. simpl. field. }
  assert (Hn' : (0 <= IZR n)%R) by (apply IZR_le; exact Hn).
  split.
  - intros [H0 H1]. apply Qle_Rle in H0. apply Qle_Rle in H1.
    rewrite RMicromega.Q2R_0 in H0. rewrite En, Q2R_mult in H1.
    rewrite <- (sqrt_square (Q2R q) H0). apply sqrt_le_1; [exact Hn' | nra | exact H1].
  - intros H. pose proof (sqrt_pos (IZR n)) as Hs.
    assert (H0 : (0 <= Q2R q)%R) by lra.
    split.
    + apply Rle_Qle. rewrite RMicromega.Q2R_0. exact H0.
    + apply Rle_Qle. rewrite En, Q2R_mult.
      rewrite <- (sqrt_sqrt (IZR n) Hn'). nra.
Qed.

Lemma In_Zrange (lo hi k : Z) : In k (Zrange lo hi) <-> (lo <= k <= hi)%Z.
Proof.
  unfold Zrange. rewrite in_map_iff. split.
  - intros (j & <- & Hj). apply in_seq in Hj. lia.
  - intros Hk. exists (Z.to_nat (k - lo)). split; [lia | ]. apply in_seq. lia.
Qed.

Lemma scanRange_bounds (y : Z) : (0 <= y <= 15)%Z -> (0 <= scanRange y <= 7)%Z.
Proof.
  intros Hy. unfold scanRange.
  assert (Hy' : (y = 0 \/ y = 1 \/ y = 2 \/ y = 3 \/ y = 4 \/ y = 5 \/ y = 6 \/ y = 7 \/
                 y = 8 \/ y = 9 \/ y = 10 \/ y = 11 \/ y = 12 \/ y = 13 \/ y = 14 \/
                 y = 15)%Z) by lia.
  repeat (destruct Hy' as [-> | Hy']; [vm_compute; split; discriminate | ]).
  subst y. vm_compute; split; discriminate.
Qed.

(** What a cell can push, read off the two branches. *)
Lemma voxel_cell_cases (dr : CellDraws) (y x z : Z) (v : VoxelData) :
  In v (voxel_cell dr y x z) ->
  v_position v = (x, (y - 6)%Z, z) /\
  ((sqrt_le (x * x + z * z) (radiusAtHeight y + (noiseDraw dr - 0.5) * 1.5) = true /\
    sqrt_le (x * x + z * z) 0.5 = false /\
    v_color v = nth_error colors (Z.to_nat (Qfloor (colorDraw dr * 4)))) \/
   (sqrt_le (x * x + z * z) 0.5 = true /\ (y < 3)%Z /\
    v_color v = Some Trunk2A2A2A)).
Proof.
  unfold voxel_cell.
  destruct (sqrt_le (x * x + z * z) (radiusAtHeight y + (noiseDraw dr - 0.5) * 1.5)) eqn:E1;
    destruct (sqrt_le (x * x + z * z) 0.5) eqn:E2; simpl.
  - destruct (y <? 3)%Z eqn:E3; [ | intros []].
    intros [<- | []]. split; [reflexivity | ]. right.
    apply Z.ltb_lt in E3. repeat split; assumption.
  - destruct (negb (Qle_bool (skipDraw dr) 0.15)); [ | intros []].
    intros [<- | []]. split; [reflexivity | ]. left. repeat split.
  - destruct (y <? 3)%Z eqn:E3; [ | intros []].
    intros [<- | []]. split; [reflexivity | ]. right.
    apply Z.ltb_lt in E3. repeat split; assumption.
  - intros [].
Qed.

Lemma voxels_In (draws : Z -> Z -> Z -> CellDraws) (v : VoxelData) :
  In v (voxels draws) <->
  exists y x z, (0 <= y <= 15)%Z /\
    (- scanRange y <= x <= scanRange y)%Z /\ (- scanRange y <= z <= scanRange y)%Z /\
    In v (voxel_cell (draws y x z) y x z).
Proof.
  unfold voxels. rewrite in_flat_map. split.
  - intros (y & Hy & Hv). cbv zeta in Hv. apply in_flat_map in Hv.
    destruct Hv as (x & Hx & Hv). apply in_flat_map in Hv.
    destruct Hv as (z & Hz & Hv).
    apply In_Zrange in Hy. apply In_Zrange in Hx. apply In_Zrange in Hz. exists y, x, z.
    unfold treeHeight in Hy. repeat split; try lia; exact Hv.
  - intros (y & x & z & Hy & Hx & Hz & Hv). exists y. split.
    + apply In_Zrange. unfold treeHeight. lia.
    + cbv zeta. apply in_flat_map. exists x. split; [apply In_Zrange; lia | ].
      apply in_flat_map. exists z. split; [apply In_Zrange; lia | exact Hv].
Qed.

Lemma sqrt_le_half (n : Z) : (0 <= n)%Z -> (sqrt_le n 0.5 = true <-> n = 0%Z).
Proof.
  intros Hn. unfold sqrt_le. rewrite andb_true_iff, !Qle_bool_iff. split.
  - intros [_ H]. unfold Qle in H. simpl in H. lia.
  - intros ->. split; discriminate.
Qed.

Lemma squares_zero (x z : Z) : (x * x + z * z = 0 <-> x = 0 /\ z = 0)%Z.
Proof. split; [nia | intros [-> ->]; reflexivity]. Qed.

Lemma trunk_generated :
  forall (draws : Z -> Z -> Z -> CellDraws) (y : Z),
    (0 <= y < 3)%Z ->
    In (mkVoxelData (0, y - 6, 0)%Z (Some Trunk2A2A2A)) (voxels draws).
Proof.
  intros draws y Hy. apply voxels_In. exists y, 0%Z, 0%Z.
  assert (Hs : (0 <= scanRange y)%Z) by (apply scanRange_bounds; lia).
  split; [lia | ]. split; [lia | ]. split; [lia | ].
  unfold voxel_cell. change (0 * 0 + 0 * 0)%Z with 0%Z.
  change (sqrt_le 0 0.5) with true. simpl negb. rewrite andb_false_r.
  assert (E : (y <? 3)%Z = true) by (apply Z.ltb_lt; lia).
  rewrite E. left. reflexivity.
Qed.

(** X15.  The trunk is always there: whatever the random draws, the
    generator pushes the three trunk voxels (0, -6, 0), (0, -5, 0) and
    (0, -4, 0), coloured ['#2A2A2A']; no draw can skip them. *)
Theorem X15_the_trunk_is_always_generated :
  forall (draws : Z -> Z -> Z -> CellDraws) (y : Z),
    (0 <= y < 3)%Z ->
    In (mkVoxelData (0, y - 6, 0)%Z (Some Trunk2A2A2A)) (voxels draws).
Proof. exact trunk_generated. Qed.

(** X16.  Where the voxels are: whatever the draws, every generated voxel
    sits on the integer grid with X and Z in [[-7, 7]] and Y in [[-6, 9]];
    a voxel is on the central column exactly when it is a trunk voxel, and
    then its Y is at most -4.  For colour draws in [[0, 1)] every voxel has
    a colour, and for noise draws in [[0, 1)] every voxel is inside the
    cone widened by 0.75: [x^2 + z^2 <= (radiusAtHeight + 0.75)^2]. *)
Theorem X16_voxels_stay_in_the_cone :
  forall (draws : Z -> Z -> Z -> CellDraws) (v : VoxelData),
    In v (voxels draws) ->
    let '(x, y, z) := v_position v in
    (-7 <= x <= 7)%Z /\ (-7 <= z <= 7)%Z /\ (-6 <= y <= 9)%Z /\
    ((x = 0 /\ z = 0)%Z <-> v_color v = Some Trunk2A2A2A) /\
    (v_color v = Some Trunk2A2A2A -> (y <= -4)%Z) /\
    ((forall a b c, 0 <= colorDraw (draws a b c) < 1) -> v_color v <> None) /\
    ((forall a b c, 0 <= noiseDraw (draws a b c) < 1) ->
       inject_Z (x * x + z * z)
       <= (radiusAtHeight (y + 6) + 0.75) * (radiusAtHeight (y + 6) + 0.75)).
Proof.
  intros draws v Hin. apply voxels_In in Hin.
  destruct Hin as (y & x & z & Hy & Hx & Hz & Hv).
  destruct (voxel_cell_cases _ _ _ _ _ Hv) as [Ep Hc]. rewrite Ep.
  pose proof (scanRange_bounds y Hy) as Hs.
  assert (Hd : (0 <= x * x + z * z)%Z) by nia.
  replace (y - 6 + 6)%Z with y by lia.
  assert (Hr : 0 <= radiusAtHeight y).
  { unfold radiusAtHeight, maxRadius, treeHeight.
    assert (inject_Z y <= 15) by (unfold Qle, inject_Z; simpl; lia).
    assert (E : inject_Z y / inject_Z 16 == inject_Z y * (1 # 16)) by reflexivity.
    rewrite E. lra. }
  split; [lia | ]. split; [lia | ]. split; [lia | ].
  destruct Hc as [(E1 & E2 & Ec) | (E2 & Hy3 & Ec)].
  - assert (Hnz : (x * x + z * z)%Z <> 0%Z).
    { intros E0. apply (sqrt_le_half _ Hd) in E0. rewrite E0 in E2. discriminate E2. }
    assert (Hnt : v_color v <> Some Trunk2A2A2A).
    { rewrite Ec. destruct (Z.to_nat (Qfloor (colorDraw (draws y x z) * 4)))
        as [ | [ | [ | [ | [ | k]]]]]; simpl; discriminate. }
    split; [ | split; [ | split]].
    + split.
      * intros [Hx0 Hz0]. exfalso. apply Hnz. apply squares_zero. split; assumption.
      * intros E. contradiction.
    + intros E. contradiction.
    + intros Hdraw. rewrite Ec. destruct (Hdraw y x z) as [H0 H1].
      assert (Hf : (0 <= Qfloor (colorDraw (draws y x z) * 4) < 4)%Z).
      { split.
        - assert (Hle : 0 <= colorDraw (draws y x z) * 4) by lra.
          apply Qfloor_resp_le in Hle. exact Hle.
        - assert (Hlt : colorDraw (draws y x z) * 4 < inject_Z 4) by (unfold inject_Z; lra).
          pose proof (Qfloor_le (colorDraw (draws y x z) * 4)) as Hle.
          rewrite Zlt_Qlt. apply (Qle_lt_trans _ _ _ Hle Hlt). }
      apply nth_error_Some. simpl length. lia.
    + intros Hdraw. destruct (Hdraw y x z) as [H0 H1].
      unfold sqrt_le in E1. apply andb_true_iff in E1. destruct E1 as [A B].
      apply Qle_bool_iff in A. apply Qle_bool_iff in B.
      set (r := radiusAtHeight y) in *. set (u := noiseDraw (draws y x z)) in *.
      apply Qle_trans with (1 := B). nra.
  - apply (sqrt_le_half _ Hd) in E2. pose proof E2 as E0.
    apply squares_zero in E2. destruct E2 as [-> ->].
    split; [ | split; [ | split]].
    + split; [intros _; exact Ec | intros _; split; reflexivity].
    + intros _. lia.
    + intros _. rewrite Ec. discriminate.
    + intros _. simpl. set (r := radiusAtHeight y) in *.
      assert (0 <= (r + 0.75) * (r + 0.75)) by nra. exact H.
Qed.

(** *** No two voxels in one cell *)

Lemma NoDup_map_flat_map (A B C : Type) (k : B -> C) (f : A -> list B) (l : list A) :
  NoDup l ->
  (forall a, In a l -> NoDup (map k (f a))) ->
  (forall a a' b b', In a l -> In a' l -> In b (f a) -> In b' (f a') ->
                     k b = k b' -> a = a') ->
  NoDup (map k (flat_map f l)).
Proof.
  induction l as [ | a l IH]; intros Hnd Hin Hsep; [constructor | ].
  simpl. rewrite map_app. inversion Hnd as [ | a0 l0 Hnot Hnd']; subst.
  apply NoDup_app.
  - apply Hin. left. reflexivity.
  - apply IH; [exact Hnd' | | ].
    + intros a' Ha'. apply Hin. right. exact Ha'.
    + intros a1 a2 b1 b2 H1 H2. apply Hsep; right; assumption.
  - intros c Hc Hc'. apply in_map_iff in Hc. destruct Hc as (b & Eb & Hb).
    apply in_map_iff in Hc'. destruct Hc' as (b' & Eb' & Hb').
    apply in_flat_map in Hb'. destruct Hb' as (a' & Ha' & Hb').
    assert (E : a = a').
    { apply (Hsep a a' b b'); [left; reflexivity | right; exact Ha' | exact Hb | exact Hb' | ].
      rewrite Eb, Eb'. reflexivity. }
    subst a'. contradiction.
Qed.

Lemma NoDup_Zrange (lo hi : Z) : NoDup (Zrange lo hi).
Proof.
  unfold Zrange. apply Injective_map_NoDup; [ | apply seq_NoDup].
  intros a b E. lia.
Qed.

Lemma voxel_cell_positions (dr : CellDraws) (y x z : Z) :
  NoDup (map v_position (voxel_cell dr y x z)).
Proof.
  unfold voxel_cell.
  destruct (_ && _); [destruct (negb _) | destruct (_ && _)]; simpl;
    repeat constructor; intros [].
Qed.

(** X17.  No two generated voxels share a grid cell: whatever the draws,
    the positions of the generated voxels are pairwise distinct. *)
Theorem X17_voxel_positions_are_distinct :
  forall (draws : Z -> Z -> Z -> CellDraws),
    NoDup (map v_position (voxels draws)).
Proof.
  intros draws. unfold voxels.
  apply NoDup_map_flat_map; [apply NoDup_Zrange | | ].
  - intros y _. cbv zeta.
    apply NoDup_map_flat_map; [apply NoDup_Zrange | | ].
    + intros x _.
      apply NoDup_map_flat_map; [apply NoDup_Zrange | | ].
      * intros z _. apply voxel_cell_positions.
      * intros z z' b b' _ _ Hb Hb' E.
        apply voxel_cell_cases in Hb. apply voxel_cell_cases in Hb'.
        destruct Hb as [Ep _]. destruct Hb' as [Ep' _].
        rewrite Ep, Ep' in E. injection E as E. exact E.
    + intros x x' b b' _ _ Hb Hb' E.
      apply in_flat_map in Hb. destruct Hb as (z & _ & Hb).
      apply in_flat_map in Hb'. destruct Hb' as (z' & _ & Hb').
      apply voxel_cell_cases in Hb. apply voxel_cell_cases in Hb'.
      destruct Hb as [Ep _]. destruct Hb' as [Ep' _].
      rewrite Ep, Ep' in E. injection E as E1 E2. exact E1.
  - intros y y' b b' _ _ Hb Hb' E. cbv zeta in Hb, Hb'.
    apply in_flat_map in Hb. destruct Hb as (x & _ & Hb).
    apply in_flat_map in Hb. destruct Hb as (z & _ & Hb).
    apply in_flat_map in Hb'. destruct Hb' as (x' & _ & Hb').
    apply in_flat_map in Hb'. destruct Hb' as (z' & _ & Hb').
    apply voxel_cell_cases in Hb. apply voxel_cell_cases in Hb'.
    destruct Hb as [Ep _]. destruct Hb' as [Ep' _].
    rewrite Ep, Ep' in E. injection E as E1 E2 E3. lia.
Qed.

Local Close Scope Q_scope.

(** * Properties of the animated helpers of [Ornaments.tsx] *)

Local Open Scope Q_scope.

Section LidFacts.

Variable Math_PI : Q.

Local Abbreviation useFrame' := (IntroGiftBox_useFrame Math_PI).
Local Abbreviation lid_run' := (lid_run Math_PI).

Lemma lid_run_cons (isOpen : bool) (delta : Q) (deltas : list Q)
    (lidRef : option LidState) :
  lid_run' isOpen (delta :: deltas) lidRef =
  lid_run' isOpen deltas (useFrame' isOpen delta lidRef).
Proof. reflexivity. Qed.

Lemma lid_run_unmounted (isOpen : bool) (deltas : list Q) :
  lid_run' isOpen deltas None = None.
Proof. induction deltas as [ | delta deltas IH]; [reflexivity | exact IH]. Qed.

Lemma lid_run_offsets (isOpen : bool) (deltas : list Q) (lid : LidState) :
  exists lid',
    lid_run' isOpen deltas (Some lid) = Some lid' /\
    lid_rotation_x lid' - lid_targetRotation Math_PI isOpen
      == unclamped 3 deltas * (lid_rotation_x lid - lid_targetRotation Math_PI isOpen) /\
    lid_position_y lid' - lid_targetY isOpen
      == unclamped 3 deltas * (lid_position_y lid - lid_targetY isOpen) /\
    lid_position_z lid' - lid_targetZ isOpen
      == unclamped 3 deltas * (lid_position_z lid - lid_targetZ isOpen).
Proof.
  revert lid. induction deltas as [ | delta deltas IH]; intros lid.
  - exists lid. split; [reflexivity | ]. simpl. repeat split; ring.
  - rewrite lid_run_cons. simpl useFrame'.
    destruct (IH (mkLidState
                    (lerp (lid_rotation_x lid) (lid_targetRotation Math_PI isOpen) (delta * 3))
                    (lerp (lid_position_y lid) (lid_targetY isOpen) (delta * 3))
                    (lerp (lid_position_z lid) (lid_targetZ isOpen) (delta * 3))))
      as (lid' & Er & Ex & Ey & Ez).
    exists lid'. split; [exact Er | ].
    simpl in Ex, Ey, Ez. unfold unclamped. simpl fold_right. fold (unclamped 3 deltas).
    rewrite Ex, Ey, Ez. unfold lerp. repeat split; ring.
Qed.

(** X18.  The lid's factor [delta * 3] is not clamped.  Along every run of
    frames of a mounted lid each of the three animated coordinates keeps an
    offset from its target equal to the initial offset times the product of
    the [1 - 3 * delta]: for a frame with [0 <= delta <= 1/3] that factor is
    in [[0, 1]], for [delta > 1/3] it is negative (the lid passes its
    target), for [delta > 2/3] it is below -1 (the lid ends farther from the
    target than it was; [delta = 1] gives -2). *)
Theorem X18_lid_factor_is_not_clamped :
  forall (isOpen : bool) (deltas : list Q) (lid : LidState),
    (exists lid',
       lid_run' isOpen deltas (Some lid) = Some lid' /\
       lid_rotation_x lid' - lid_targetRotation Math_PI isOpen
         == unclamped 3 deltas * (lid_rotation_x lid - lid_targetRotation Math_PI isOpen) /\
       lid_position_y lid' - lid_targetY isOpen
         == unclamped 3 deltas * (lid_position_y lid - lid_targetY isOpen) /\
       lid_position_z lid' - lid_targetZ isOpen
         == unclamped 3 deltas * (lid_position_z lid - lid_targetZ isOpen)) /\
    (forall delta, (0 <= delta <= 1 / 3 -> 0 <= unclamped 3 [delta] <= 1) /\
                   (1 / 3 < delta -> unclamped 3 [delta] < 0) /\
                   (2 / 3 < delta -> unclamped 3 [delta] < -1)) /\
    unclamped 3 [1] == -2.
Proof.
  intros isOpen deltas lid.
  split; [apply lid_run_offsets | ]. split; [ | reflexivity].
  intros delta. unfold unclamped. simpl fold_right.
  assert (E13 : 1 / 3 == 1 # 3) by reflexivity.
  assert (E23 : 2 / 3 == 2 # 3) by reflexivity.
  rewrite E13, E23. repeat split; intros; lra.
Qed.

End LidFacts.

(** *** Confetti *)

Lemma confetti_run_cons (delta : Q) (deltas : list Q) (p : Confetti) :
  confetti_run (delta :: deltas) p = confetti_run deltas (fst (confetti_update delta p)).
Proof. reflexivity. Qed.

Lemma confetti_update_floor (delta : Q) (p : Confetti) :
  -7 <= vy (k_position (fst (confetti_update delta p))).
Proof.
  unfold confetti_update.
  destruct (Qlt_le_dec (vy (addScaledVector (k_position p) (k_velocity p) (delta * 15)))
              (-7)) as [Hlt | Hge]; simpl.
  - discriminate.
  - exact Hge.
Qed.

(** X19.  The floor.  After a frame the stored height of a confetti
    particle is never below -7, whatever the delta and the velocity; so
    along every run a particle that starts at or above -7, or has gone
    through one frame, is at or above -7.  The matrix of the frame is
    filled before the floor test: in a frame in which the particle crosses
    the floor it is drawn at the height it fell to, below -7, while -7 is
    stored and its velocity is set to zero. *)
Theorem X19_confetti_floor :
  forall (deltas : list Q) (delta : Q) (p : Confetti),
    (deltas <> [] \/ -7 <= vy (k_position p) ->
     -7 <= vy (k_position (confetti_run deltas p))) /\
    let fallen := vy (k_position p) + vy (k_velocity p) * (delta * 15) in
    (fallen < -7 ->
     vy (m_position (snd (confetti_update delta p))) == fallen /\
     vy (k_position (fst (confetti_update delta p))) == -7 /\
     k_velocity (fst (confetti_update delta p)) = mkVector3 0 0 0) /\
    (-7 <= fallen ->
     m_position (snd (confetti_update delta p))
       = k_position (fst (confetti_update delta p))).
Proof.
  intros deltas delta p. split; [ | split].
  - revert p. induction deltas as [ | d deltas IH]; intros p H.
    + destruct H as [H | H]; [contradiction | exact H].
    + rewrite confetti_run_cons. apply IH. right. apply confetti_update_floor.
  - intros Hf. unfold confetti_update.
    destruct (Qlt_le_dec (vy (addScaledVector (k_position p) (k_velocity p) (delta * 15)))
                (-7)) as [Hlt | Hge]; simpl.
    + repeat split; reflexivity.
    + exfalso. simpl in Hge. apply (Qlt_not_le _ _ Hf Hge).
  - intros Hf. unfold confetti_update.
    destruct (Qlt_le_dec (vy (addScaledVector (k_position p) (k_velocity p) (delta * 15)))
                (-7)) as [Hlt | Hge]; simpl.
    + exfalso. simpl in Hlt. apply (Qlt_not_le _ _ Hlt Hf).
    + reflexivity.
Qed.

(** A particle lying on the floor: at height -7, with no horizontal
    velocity and not moving up. *)
Lemma confetti_landed_step (delta : Q) (p : Confetti) :
  0 <= delta ->
  vy (k_position p) == -7 -> vx (k_velocity p) == 0 -> vz (k_velocity p) == 0 ->
  vy (k_velocity p) <= 0 ->
  let q := fst (confetti_update delta p) in
  Vector3_eq (k_position q) (k_position p) /\
  vx (k_velocity q) == 0 /\ vz (k_velocity q) == 0 /\ vy (k_velocity q) <= 0.
Proof.
  intros Hd Hy Hvx Hvz Hvy. cbv zeta. unfold confetti_update.
  assert (Hprod : vy (k_velocity p) * (delta * 15) <= 0).
  { setoid_replace (vy (k_velocity p) * (delta * 15))
      with (- ((- vy (k_velocity p)) * (delta * 15))) by ring.
    assert (0 <= (- vy (k_velocity p)) * (delta * 15))
      by (apply Qmult_le_0_compat; lra).
    lra. }
  destruct (Qlt_le_dec (vy (addScaledVector (k_position p) (k_velocity p) (delta * 15)))
              (-7)) as [Hlt | Hge]; simpl in *.
  - unfold Vector3_eq; simpl. rewrite Hvx, Hvz, Hy.
    repeat split; try ring; try reflexivity. discriminate.
  - unfold Vector3_eq; simpl. rewrite Hvx, Hvz.
    repeat split; try ring; try lra.
Qed.

(** X20.  A landed particle stays where it landed.  Once a frame has put a
    particle on the floor (it crossed -7 in that frame), every later run of
    frames with non-negative deltas leaves its stored position unchanged and
    at height -7. *)
Theorem X20_landed_confetti_stays :
  forall (delta0 : Q) (p : Confetti) (deltas : list Q),
    vy (k_position p) + vy (k_velocity p) * (delta0 * 15) < -7 ->
    Forall (fun delta => 0 <= delta) deltas ->
    let landed := fst (confetti_update delta0 p) in
    Vector3_eq (k_position (confetti_run deltas landed)) (k_position landed) /\
    vy (k_position (confetti_run deltas landed)) == -7.
Proof.
  intros delta0 p deltas Hcross Hall landed.
  assert (Hinv : vy (k_position landed) == -7 /\ vx (k_velocity landed) == 0 /\
                 vz (k_velocity landed) == 0 /\ vy (k_velocity landed) <= 0).
  { subst landed. unfold confetti_update.
    destruct (Qlt_le_dec (vy (addScaledVector (k_position p) (k_velocity p) (delta0 * 15)))
                (-7)) as [Hlt | Hge]; simpl.
    - repeat split; try reflexivity. discriminate.
    - exfalso. simpl in Hge. apply (Qlt_not_le _ _ Hcross Hge). }
  clearbody landed. clear Hcross p delta0.
  revert landed Hinv. induction Hall as [ | delta deltas Hd Hall IH]; intros q Hinv.
  - simpl. split; [repeat split; reflexivity | apply Hinv].
  - destruct Hinv as (Hy & Hvx & Hvz & Hvy).
    rewrite confetti_run_cons.
    destruct (confetti_landed_step delta q Hd Hy Hvx Hvz Hvy) as (Ep & Ax & Az & Ay).
    destruct Ep as (Ex & Ey & Ez).
    assert (Hy' : vy (k_position (fst (confetti_update delta q))) == -7)
      by (rewrite Ey; exact Hy).
    destruct (IH _ (conj Hy' (conj Ax (conj Az Ay)))) as ((Ix & Iy & Iz) & I7).
    split; [ | exact I7].
    repeat split; [rewrite Ix; exact Ex | rewrite Iy; exact Ey | rewrite Iz; exact Ez].
Qed.

Local Close Scope Q_scope.

Local Open Scope R_scope.

(** X21.  The fairy lights float near where they were generated.  At every
    time the position shown for a particle differs from its generated
    position by at most 0.3 in X and Z and 0.5 in Y, and the scale shown
    lies in [[0.4, 0.8]]; for draws in [[0, 1)] the generated position has X
    and Z in [[-7.5, 7.5)] and Y in [[-2, 12)], so every light is shown
    with X and Z in [[-7.8, 7.8]] and Y in [[-2.5, 12.5]]. *)
Theorem X21_fairy_lights_stay_close :
  forall (time u1 u2 u3 u4 u5 : R) (p : FairyParticle),
    let shown := fairy_shown time p in
    (Rabs (rx (fst shown) - rx (f_position p)) <= 3 / 10 /\
     Rabs (ry (fst shown) - ry (f_position p)) <= 5 / 10 /\
     Rabs (rz (fst shown) - rz (f_position p)) <= 3 / 10 /\
     4 / 10 <= snd shown <= 8 / 10) /\
    (0 <= u1 < 1 -> 0 <= u2 < 1 -> 0 <= u3 < 1 ->
     let q := fst (fairy_shown time (fairy_particle u1 u2 u3 u4 u5)) in
     -78 / 10 <= rx q <= 78 / 10 /\ -25 / 10 <= ry q <= 125 / 10 /\
     -78 / 10 <= rz q <= 78 / 10).
Proof.
  intros time u1 u2 u3 u4 u5 p. cbv zeta. split.
  - unfold fairy_shown. simpl.
    pose proof (SIN_bound (time * f_speed p + f_offset p)) as [A1 A2].
    pose proof (COS_bound (time * f_speed p * (5 / 10) + f_offset p)) as [B1 B2].
    pose proof (SIN_bound (time * f_speed p * (3 / 10) + f_offset p)) as [C1 C2].
    pose proof (SIN_bound (time * 2 + f_offset p)) as [D1 D2].
    repeat split; try (apply Rabs_le; split; lra); lra.
  - intros [] [] []. unfold fairy_shown, fairy_particle. simpl.
    pose proof (SIN_bound (time * (u4 * (5 / 10) + 2 / 10) + u5 * 100)) as [A1 A2].
    pose proof (COS_bound (time * (u4 * (5 / 10) + 2 / 10) * (5 / 10) + u5 * 100))
      as [B1 B2].
    pose proof (SIN_bound (time * (u4 * (5 / 10) + 2 / 10) * (3 / 10) + u5 * 100))
      as [C1 C2].
    repeat split; lra.
Qed.

(** *** The faceted star *)

Lemma star_angle_0 : star_angle 0 = 0.
Proof. unfold star_angle, numPoints. simpl. field. Qed.

Lemma star_angle_5 : star_angle 5 = 2 * PI.
Proof.
  unfold star_angle, numPoints.
  replace (INR 5) with 5 by (rewrite INR_IZR_INZ; reflexivity). field.
Qed.

Lemma on_circle (a r : R) : sin a * r * (sin a * r) + cos a * r * (cos a * r) = r * r.
Proof.
  pose proof (sin2_cos2 a) as E. unfold Rsqr in E.
  transitivity (r * r * (sin a * sin a + cos a * cos a)); [ring | ].
  rewrite E. ring.
Qed.

(** X22.  The star is well formed for every choice of the radii and the
    depth: the geometry has 60 vertices (20 triangles); each vertex is the
    front apex, the back apex, or a point of the plane Z = 0 at distance
    [outerRadius] or [innerRadius] from the axis (squared distances); the
    outline is closed (in exact arithmetic, where [sin (2 * PI) = 0]): the
    outer vertex that ends point 4 is the outer vertex (0, outerRadius, 0)
    that starts point 0. *)
Theorem X22_star_geometry_is_well_formed :
  forall (outerRadius innerRadius depth : R),
    length (star_vertices outerRadius innerRadius depth) = 60%nat /\
    (forall v, In v (star_vertices outerRadius innerRadius depth) ->
       v = mkVector3R 0 0 depth \/ v = mkVector3R 0 0 (- depth) \/
       (rz v = 0 /\
        (rx v * rx v + ry v * ry v = outerRadius * outerRadius \/
         rx v * rx v + ry v * ry v = innerRadius * innerRadius))) /\
    nth_error (star_point outerRadius innerRadius depth 4) 5
      = Some (mkVector3R 0 outerRadius 0) /\
    nth_error (star_point outerRadius innerRadius depth 0) 1
      = Some (mkVector3R 0 outerRadius 0).
Proof.
  intros o i d. split; [reflexivity | ]. split; [ | split].
  - intros v Hin. unfold star_vertices in Hin. apply in_flat_map in Hin.
    destruct Hin as (k & _ & Hv). unfold star_point in Hv.
    repeat (destruct Hv as [<- | Hv];
            [first [ left; reflexivity
                   | right; left; reflexivity
                   | right; right; split;
                     [reflexivity | simpl; first [left; apply on_circle
                                                 | right; apply on_circle]]] | ]).
    destruct Hv.
  - unfold star_point. simpl nth_error.
    change (4 + 1)%nat with 5%nat. rewrite star_angle_5, sin_2PI, cos_2PI.
    f_equal. f_equal; ring.
  - unfold star_point. simpl nth_error.
    rewrite star_angle_0, sin_0, cos_0. f_equal. f_equal; ring.
Qed.

Local Close Scope R_scope.

(** * Properties of the wiring *)

Local Open Scope Q_scope.

Lemma Vector3_lerp_at_target (p t : Vector3) (s : Q) :
  Vector3_eq p t -> Vector3_eq (Vector3_lerp p t s) t.
Proof.
  intros (Ex & Ey & Ez). unfold Vector3_eq; simpl.
  rewrite Ex, Ey, Ez. repeat split; ring.
Qed.

Lemma lerp_at_target (x t s : Q) : x == t -> lerp x t s == t.
Proof. intros E. unfold lerp. rewrite E. ring. Qed.

Section WiringFacts.

Variable slerp_between : Quaternion -> Quaternion -> Q -> Quaternion.
Variable setFromEuler : Euler -> Quaternion.
Variable Math_PI : Q.
Variable d : InstanceData.
Variable config : OrnamentConfig.

Local Abbreviation world_step' := (world_step slerp_between setFromEuler Math_PI d config).
Local Abbreviation world_run' := (world_run slerp_between setFromEuler Math_PI d config).

Lemma world_run_cons (ev : WorldEvent) (evs : list WorldEvent) (w : World) :
  world_run' (ev :: evs) w = world_run' evs (world_step' ev w).
Proof. reflexivity. Qed.

Lemma world_step_now_mono (ev : WorldEvent) (w : World) :
  (now (w_scene w) <= now (w_scene (world_step' ev w)))%nat.
Proof.
  destruct ev as [e | delta]; simpl.
  - apply step_now_mono.
  - apply Nat.le_refl.
Qed.

Lemma world_run_now_mono (evs : list WorldEvent) (w : World) :
  (now (w_scene w) <= now (w_scene (world_run' evs w)))%nat.
Proof.
  revert w. induction evs as [ | ev evs IH]; intros w; [apply Nat.le_refl | ].
  rewrite world_run_cons.
  pose proof (world_step_now_mono ev w). specialize (IH (world_step' ev w)). lia.
Qed.

Lemma world_run_before (P : World -> Prop) (limit : nat) :
  (forall ev w, P w -> (now (w_scene (world_step' ev w)) < limit)%nat ->
                P (world_step' ev w)) ->
  forall evs w, P w -> (now (w_scene (world_run' evs w)) < limit)%nat ->
                P (world_run' evs w).
Proof.
  intros Hstep evs. induction evs as [ | ev evs IH]; intros w HP Hlim; [exact HP | ].
  rewrite world_run_cons in *. apply IH; [ | exact Hlim].
  apply Hstep; [exact HP | ].
  pose proof (world_run_now_mono evs (world_step' ev w)). lia.
Qed.

(** A frame in INITIAL mode leaves resting items at rest. *)
Lemma frame_keeps_items_at_rest (delta : Q) (w : World) :
  internalMode (w_scene w) = INITIAL ->
  items_at_rest d config w -> items_at_rest d config (world_step' (Frame delta) w).
Proof.
  intros Him [Hv Ho]. unfold items_at_rest, world_step.
  cbn [w_voxel w_ornament w_scene]. rewrite Him. split.
  - rewrite voxel_tick_position.
    rewrite voxel_move_standard by (intros [E _]; discriminate E).
    apply Vector3_lerp_at_target. exact Hv.
  - rewrite ornament_update_position.
    rewrite ornament_move_standard by (intros [E _]; discriminate E).
    apply Vector3_lerp_at_target. exact Ho.
Qed.

(** X23.  Nothing leaves the box while the lid opens.  Take a reachable
    state whose [internalMode] is INITIAL, a request for SCATTERED or TREE
    made in it, and a voxel and an ornament resting at their INITIAL
    positions.  Along every run of frames (any deltas), further requests,
    passing time and timer firings that ends less than 350 ms after the
    request, the two items are still exactly at their INITIAL positions,
    [internalMode] is INITIAL and the lid is open. *)
Theorem X23_items_rest_while_the_lid_opens :
  forall (tr : list Event) (m : AppMode) (evs : list WorldEvent)
         (vox : VoxelCurrent * Object3D) (orn : Object3D) (lid : option LidState),
    let s := run tr session_start in
    m <> INITIAL -> mode s <> m -> internalMode s = INITIAL ->
    let w0 := mkWorld (step (SetMode m) s) vox orn lid in
    items_at_rest d config w0 ->
    let w := world_run' evs w0 in
    (now (w_scene w) < now s + 350)%nat ->
    items_at_rest d config w /\
    internalMode (w_scene w) = INITIAL /\
    isBoxOpen (w_scene w) = true.
Proof.
  intros tr m evs vox orn lid s Hm Hch Him w0 Hrest w Hlim.
  assert (Ho : orchestrated s) by apply reachable_orchestrated.
  clearbody s.
  set (P := fun w : World =>
              release_window (now s) (w_scene w) /\
              closing_window (now s) (w_scene w) /\
              items_at_rest d config w).
  assert (HP0 : P w0).
  { subst w0 P. cbv beta. cbn [w_scene]. rewrite (setmode_release m s Ho Hm Hch Him).
    split; [ | split; [ | exact Hrest]].
    - split; [constructor; exact Hm | ]. split; [reflexivity | ].
      split; [simpl; lia | ]. intros t m' [<- | []] _. simpl. lia.
    - split; [constructor; exact Hm | ]. split; [reflexivity | ].
      split; [simpl; lia | ]. intros t [<- | []] Hcb. discriminate Hcb. }
  assert (Hstep : forall ev w1, P w1 ->
                    (now (w_scene (world_step' ev w1)) < now s + 350)%nat ->
                    P (world_step' ev w1)).
  { intros ev w1 (Hr & Hc & Hi) Hl. destruct ev as [e | delta].
    - simpl in *. split; [ | split; [ | exact Hi]].
      + apply release_window_step; assumption.
      + apply closing_window_step; [exact Hc | lia].
    - split; [exact Hr | ]. split; [exact Hc | ].
      apply frame_keeps_items_at_rest; [apply Hr | exact Hi]. }
  destruct (world_run_before P (now s + 350) Hstep evs w0 HP0 Hlim) as (Hr & Hc & Hi).
  split; [exact Hi | ]. split; [apply Hr | apply Hc].
Qed.

Lemma step_stays_closed (e : Event) (s : SceneState) :
  (forall m, e <> SetMode m) ->
  orchestrated s -> mode s = INITIAL -> isBoxOpen s = false ->
  orchestrated (step e s) /\ mode (step e s) = INITIAL /\ isBoxOpen (step e s) = false /\
  internalMode (step e s) = INITIAL.
Proof.
  intros Hne Ho Hm Hlid.
  destruct e as [m | k | i]; [exfalso; apply (Hne m); reflexivity | | ].
  - destruct Ho as [h nh nw | lid h du nh nw | m0 h du nh nw Hm0 | m0 h nh nw Hm0];
      simpl in *; try discriminate Hlid; try contradiction.
    + repeat split. constructor.
    + subst lid. repeat split. constructor.
  - simpl.
    destruct Ho as [h nh nw | lid h du nh nw | m0 h du nh nw Hm0 | m0 h nh nw Hm0];
      simpl in Hm, Hlid; try discriminate Hlid; try contradiction.
    + rewrite fire_no_timer by reflexivity. repeat split. constructor.
    + subst lid. rewrite fire_closing.
      destruct (Nat.eqb h i && Nat.leb du nw); repeat split; constructor.
Qed.

(** X24.  Without a request the box stays closed.  From session start,
    with a voxel in its start state and the lid mounted, as long as no
    request is made the lid flag stays shut and [internalMode] stays
    INITIAL through frames, passing time and the firing of the timer
    scheduled at mount; no frame moves the voxel, whatever the deltas; and
    every frame lerps the lid toward its closed pose, never toward the open
    one: the lid after the run is the mounted lid taken through the
    closed-lid frame of each delta, in order. *)
Theorem X24_the_box_stays_closed_without_request :
  forall (evs : list WorldEvent) (dm orn : Object3D),
    no_request evs ->
    let w := world_run' evs (mkWorld session_start (voxel_start d, dm) orn (Some lid_mounted)) in
    isBoxOpen (w_scene w) = false /\
    internalMode (w_scene w) = INITIAL /\
    Vector3_eq (currentPosition (fst (w_voxel w))) (initialPos d) /\
    w_lid w = lid_run Math_PI false (frame_deltas evs) (Some lid_mounted).
Proof.
  intros evs dm orn Hno.
  set (P := fun w : World =>
              orchestrated (w_scene w) /\ mode (w_scene w) = INITIAL /\
              isBoxOpen (w_scene w) = false /\ internalMode (w_scene w) = INITIAL /\
              Vector3_eq (currentPosition (fst (w_voxel w))) (initialPos d)).
  assert (H : forall evs w, no_request evs -> P w ->
                P (world_run' evs w) /\
                w_lid (world_run' evs w)
                  = lid_run Math_PI false (frame_deltas evs) (w_lid w)).
  { clear evs Hno. induction evs as [ | ev evs IH]; intros w Hno HP;
      [split; [exact HP | reflexivity] | ].
    rewrite world_run_cons.
    assert (Hno' : no_request evs).
    { intros m Hin. apply (Hno m). right. exact Hin. }
    destruct HP as (Ho & Hm & Hlid & Him & Hv).
    destruct ev as [e | delta].
    - assert (Hne : forall m, e <> SetMode m).
      { intros m E. apply (Hno m). left. rewrite E. reflexivity. }
      destruct (step_stays_closed e (w_scene w) Hne Ho Hm Hlid) as (A & B & C & D).
      apply (IH (world_step' (Browser e) w) Hno').
      unfold P, world_step. cbn [w_voxel w_ornament w_scene w_lid].
      exact (conj A (conj B (conj C (conj D Hv)))).
    - assert (HP1 : P (world_step' (Frame delta) w)).
      { unfold P, world_step. cbn [w_voxel w_ornament w_scene w_lid].
        rewrite Him.
        refine (conj Ho (conj Hm (conj Hlid (conj eq_refl _)))).
        rewrite voxel_tick_position.
        rewrite voxel_move_standard by (intros [E _]; discriminate E).
        apply Vector3_lerp_at_target. exact Hv. }
      destruct (IH (world_step' (Frame delta) w) Hno' HP1) as [HP2 El].
      split; [exact HP2 | ]. rewrite El.
      unfold world_step. cbn [w_lid]. rewrite Hlid. reflexivity. }
  intros w.
  assert (HP : P (mkWorld session_start (voxel_start d, dm) orn (Some lid_mounted))).
  { unfold P. cbn [w_scene w_voxel fst]. rewrite session_start_shape.
    split; [constructor | ]. do 3 (split; [reflexivity | ]).
    unfold Vector3_eq; simpl; repeat split; reflexivity. }
  destruct (H evs _ Hno HP) as ((_ & _ & Hlid & Him & Hv) & El).
  exact (conj Hlid (conj Him (conj Hv El))).
Qed.

End WiringFacts.

Local Close Scope Q_scope.

(** * Examples for the further properties *)

Local Open Scope Q_scope.


Lemma X2_fountain_trap_witness :
  vy (currentPosition
        (fst (voxel_run sample_between sunk_instance
                (frames_in SCATTERED [1 # 10; 1]) (sample_voxel, sample_dummy)))) < -2 /\
  vx (position (ornament_run sample_between sample_setFromEuler sunk_config
                  (frames_in SCATTERED [1 # 10; 1]) sample_group))
    == remaining 3 0.5 [1 # 10; 1] * 1.
Proof.
  assert (Hall : Forall (fun delta => 0 <= delta) [1 # 10; 1])
    by (repeat constructor; discriminate).
  destruct (X2_fountain_trap sample_between sample_setFromEuler sunk_instance
              sunk_config [1 # 10; 1] sample_voxel sample_dummy sample_group Hall)
    as (Hv & Ho & _).
  split.
  - apply Hv; reflexivity.
  - apply Ho; reflexivity.
Defined.

Lemma X3_fountain_release_witness :
  -2 <= vy (currentPosition
              (fst (voxel_run sample_between sample_instance
                      (frames_in SCATTERED [1 # 10; 1]) (raised_voxel, sample_dummy)))) /\
  -1 <= vy (position (ornament_run sample_between sample_setFromEuler sample_config
                        (frames_in SCATTERED [1 # 10; 1]) raised_group)).
Proof.
  assert (Hall : Forall (fun delta => 0 <= delta) [1 # 10; 1])
    by (repeat constructor; discriminate).
  destruct (X3_fountain_release_is_permanent sample_between sample_setFromEuler
              sample_instance sample_config [1 # 10; 1] raised_voxel sample_dummy
              raised_group Hall) as (Hv & Ho).
  split.
  - apply Hv; discriminate.
  - apply Ho; discriminate.
Defined.

Lemma X4_ornament_scale_witness :
  0 < vx (scale (ornament_run sample_between sample_setFromEuler sample_config
                   [(TREE, 1 # 10); (INITIAL, 2)] sample_group)) /\
  vx (scale (ornament_run sample_between sample_setFromEuler sample_config
               [(TREE, 1 # 10); (INITIAL, 2)] sample_group)) <= 1.
Proof.
  assert (Hall : Forall (fun f : AppMode * Q => 0 <= snd f) [(TREE, 1 # 10); (INITIAL, 2)])
    by (repeat constructor; discriminate).
  assert (H1 : 0 < o_scale sample_config) by reflexivity.
  assert (H2 : 0 < vx (scale sample_group)) by reflexivity.
  assert (H3 : vx (scale sample_group) <= 1) by discriminate.
  assert (H4 : 0.2 <= 1) by discriminate.
  assert (H5 : o_scale sample_config <= 1) by discriminate.
  destruct (X4_ornament_scale_stays_positive sample_between sample_setFromEuler
              sample_config [(TREE, 1 # 10); (INITIAL, 2)] sample_group 1
              Hall H1 H2 H3 H4 H5) as (A & B & _).
  split; assumption.
Defined.

Lemma X5_frame_keeps_the_voxels_witness :
  length (currents (VoxelTree_useFrame sample_between TREE
                      [sample_instance; sunk_instance] (1 # 60) sample_tree)) = 2%nat.
Proof.
  assert (H1 : meshRef sample_tree = Some [sample_dummy; sample_dummy]) by reflexivity.
  assert (H2 : length (currents sample_tree) = length [sample_instance; sunk_instance])
    by reflexivity.
  destruct (X5_frame_keeps_the_voxels sample_between TREE
              [sample_instance; sunk_instance] (1 # 60) sample_tree
              [sample_dummy; sample_dummy] H1 H2) as (Hl & _).
  exact Hl.
Defined.

Lemma X6_start_positions_witness :
  vy (ornament_initialPos (1 # 2) (1 # 2) (1 # 2)) < -3 /\
  vx (position (ornament_update sample_between sample_setFromEuler SCATTERED
                  drawn_config (1 # 60) drawn_group))
    == lerp (vx (position drawn_group)) 0 (ornament_step (1 # 60) * 0.5).
Proof.
  assert (Hu : 0 <= 1 # 2 < 1) by (split; [discriminate | reflexivity]).
  destruct (X6_start_positions_are_under_the_rim sample_between sample_setFromEuler
              (mkVoxelData (0, 0, 0)%Z (Some DeepForest)) (mkVector3 10 15 10)
              identityQ identityQ drawn_config (1 # 2) (1 # 2) (1 # 2) (1 # 60)
              sample_dummy drawn_group Hu Hu Hu) as (_ & Ho).
  destruct (Ho eq_refl eq_refl) as (_ & (_ & Hy) & _ & Ex & _).
  split; [exact Hy | exact Ex].
Defined.

Lemma X7_generated_scale_witness :
  0 < vx (scale (ornament_run sample_between sample_setFromEuler drawn_config
                   [(INITIAL, 1 # 60); (TREE, 5)] drawn_group)) <= 1.1.
Proof.
  assert (Hu : 0 <= 1 # 2 < 1) by (split; [discriminate | reflexivity]).
  assert (Hall : Forall (fun f : AppMode * Q => 0 <= snd f) [(INITIAL, 1 # 60); (TREE, 5)])
    by (repeat constructor; discriminate).
  destruct (X7_generated_scale_stays_in_range sample_between sample_setFromEuler
              drawn_config (1 # 2) [(INITIAL, 1 # 60); (TREE, 5)] drawn_group Hu
              (or_intror eq_refl) Hall eq_refl) as (_ & _ & _ & H).
  exact H.
Defined.

Local Close Scope Q_scope.

Lemma X10_orchestrator_comes_to_rest_witness :
  at_rest (advance 500 (run [SetMode SCATTERED; Elapse 100] session_start)).
Proof.
  assert (H : 500 <= 500) by apply Nat.le_refl.
  destruct (X10_orchestrator_comes_to_rest [SetMode SCATTERED; Elapse 100] 500 H)
    as [_ Hr].
  exact Hr.
Defined.

Lemma X11_cancelled_timer_witness :
  let s2 := run [Elapse 400] (step (SetMode TREE) (run [SetMode SCATTERED] session_start)) in
  fire 2 s2 = s2.
Proof.
  intros s2.
  assert (Hin : In (mkTimer 2 350 (SetInternalMode SCATTERED))
                   (timers (run [SetMode SCATTERED] session_start)))
    by (left; reflexivity).
  assert (Hch : mode (run [SetMode SCATTERED] session_start) <> TREE).
  { intros H. vm_compute in H. discriminate H. }
  destruct (X11_cancelled_timer_never_fires [SetMode SCATTERED] [Elapse 400] TREE
              (mkTimer 2 350 (SetInternalMode SCATTERED)) Hin Hch) as [_ Hf].
  exact Hf.
Defined.

Local Open Scope R_scope.

Lemma X12_ornament_ids_and_types_witness :
  In (c_type (decoration 3 0)) types.
Proof.
  assert (Hc : nth_error (ornaments (fun _ => 0)) 3 = Some (decoration 3 0)).
  { apply (ornaments_nth (fun _ => 0) 3).
    - apply Nat.leb_le. reflexivity.
    - apply Nat.ltb_lt. reflexivity. }
  destruct (X12_ornament_ids_and_types (fun _ => 0)) as (_ & _ & _ & Ht & _).
  assert (Hd : forall i : nat, 0 <= (fun _ : nat => 0) i < 1) by (intros i; lra).
  destruct (Ht Hd 3%nat (decoration 3 0) Hc) as [_ Hn].
  assert (H3 : 3%nat <> 0%nat) by discriminate.
  destruct (Hn H3) as (_ & _ & Hin & _). exact Hin.
Defined.

Lemma X13_decorations_hang_witness :
  193 / 100 < radius 5 < 692 / 100.
Proof.
  assert (H1 : (1 <= 5)%nat) by (apply Nat.leb_le; reflexivity).
  assert (H2 : (5 < count)%nat) by (apply Nat.ltb_lt; reflexivity).
  destruct (X13_decorations_hang_on_the_cone 5 H1 H2) as (_ & Hr & _).
  exact Hr.
Defined.

Lemma X14_scatter_shell_witness :
  rz (scatterPos_of (1 / 2) 0 (1 / 2)) = (12 + 1 / 2 * 10) * (1 / 2 * 2 - 1).
Proof.
  assert (H1 : 0 <= 1 / 2 < 1) by lra.
  assert (H2 : 0 <= 1 / 2 <= 1) by lra.
  destruct (X14_scatter_targets_lie_in_a_shell (1 / 2) 0 (1 / 2) H1 H2)
    as (_ & _ & Hz & _).
  exact Hz.
Defined.

Local Close Scope R_scope.

Lemma X15_the_trunk_witness :
  In (mkVoxelData (0, -6, 0)%Z (Some Trunk2A2A2A)) (voxels sample_draws).
Proof.
  assert (H : (0 <= 0 < 3)%Z) by lia.
  exact (X15_the_trunk_is_always_generated sample_draws 0%Z H).
Defined.

Lemma X16_voxels_stay_witness :
  ((0 = 0 /\ 0 = 0)%Z <-> Some Trunk2A2A2A = Some Trunk2A2A2A) /\ (-6 <= -4)%Z.
Proof.
  assert (H : (0 <= 0 < 3)%Z) by lia.
  pose proof (X16_voxels_stay_in_the_cone sample_draws
                (mkVoxelData (0, -6, 0)%Z (Some Trunk2A2A2A))
                (trunk_generated sample_draws 0%Z H)) as Hb.
  simpl in Hb. destruct Hb as (_ & _ & _ & Hiff & Hy & _).
  split; [exact Hiff | ]. apply Hy. reflexivity.
Defined.

Local Open Scope Q_scope.

Lemma X18_lid_witness :
  unclamped 3 [1 # 4] <= 1 /\ unclamped 3 [1 # 2] < 0 /\ unclamped 3 [1] < -1.
Proof.
  destruct (X18_lid_factor_is_not_clamped (314159 # 100000) true [1] lid_mounted)
    as (_ & Hf & _).
  destruct (Hf (1 # 4)) as (Ha & _). destruct (Hf (1 # 2)) as (_ & Hb & _).
  destruct (Hf 1) as (_ & _ & Hc).
  split; [ | split].
  - apply Ha. split; discriminate.
  - apply Hb. reflexivity.
  - apply Hc. reflexivity.
Defined.

Lemma X19_confetti_floor_witness :
  -7 <= vy (k_position (confetti_run [1 # 10; 1 # 60] sample_confetti)) /\
  vy (m_position (snd (confetti_update (1 # 10) sample_confetti)))
    == -6.9 + -1 * ((1 # 10) * 15).
Proof.
  destruct (X19_confetti_floor [1 # 10; 1 # 60] (1 # 10) sample_confetti)
    as (Hfloor & Hcross & _).
  split.
  - apply Hfloor. left. discriminate.
  - apply Hcross. reflexivity.
Defined.

Lemma X20_landed_confetti_witness :
  vy (k_position (confetti_run [1 # 60; 1 # 60; 1 # 60]
                    (fst (confetti_update (1 # 10) sample_confetti)))) == -7.
Proof.
  assert (Hc : vy (k_position sample_confetti)
               + vy (k_velocity sample_confetti) * ((1 # 10) * 15) < -7) by reflexivity.
  assert (Hall : Forall (fun delta => 0 <= delta) [1 # 60; 1 # 60; 1 # 60])
    by (repeat constructor; discriminate).
  destruct (X20_landed_confetti_stays (1 # 10) sample_confetti
              [1 # 60; 1 # 60; 1 # 60] Hc Hall) as [_ H7].
  exact H7.
Defined.

Local Close Scope Q_scope.

Local Open Scope R_scope.

Lemma X21_fairy_lights_witness :
  -25 / 10 <= ry (fst (fairy_shown 3 (fairy_particle (1 / 2) (1 / 2) (1 / 2) 0 0)))
    <= 125 / 10.
Proof.
  destruct (X21_fairy_lights_stay_close 3 (1 / 2) (1 / 2) (1 / 2) 0 0
              (fairy_particle (1 / 2) (1 / 2) (1 / 2) 0 0)) as (_ & Hbox).
  assert (Hu : 0 <= 1 / 2 < 1) by lra.
  destruct (Hbox Hu Hu Hu) as (_ & Hy & _).
  exact Hy.
Defined.

Lemma X22_star_geometry_witness :
  mkVector3R 0 0 (3 / 10) = mkVector3R 0 0 (3 / 10) \/
  mkVector3R 0 0 (3 / 10) = mkVector3R 0 0 (- (3 / 10)) \/
  (rz (mkVector3R 0 0 (3 / 10)) = 0 /\
   (rx (mkVector3R 0 0 (3 / 10)) * rx (mkVector3R 0 0 (3 / 10))
    + ry (mkVector3R 0 0 (3 / 10)) * ry (mkVector3R 0 0 (3 / 10)) = 1 * 1 \/
    rx (mkVector3R 0 0 (3 / 10)) * rx (mkVector3R 0 0 (3 / 10))
    + ry (mkVector3R 0 0 (3 / 10)) * ry (mkVector3R 0 0 (3 / 10))
      = 382 / 1000 * (382 / 1000))).
Proof.
  destruct (X22_star_geometry_is_well_formed 1 (382 / 1000) (3 / 10)) as (_ & Hv & _).
  apply Hv. unfold star_vertices. apply in_flat_map. exists 0%nat. split.
  - left. reflexivity.
  - left. reflexivity.
Defined.

Local Close Scope R_scope.

Local Open Scope Q_scope.

Lemma X23_items_rest_witness :
  isBoxOpen
    (w_scene
       (world_run sample_between sample_setFromEuler (314159 # 100000)
          sample_instance sample_config
          [Frame (1 # 60); Browser (Elapse 100); Frame (1 # 2);
           Browser (SetMode TREE); Browser (Elapse 249)]
          (mkWorld (step (SetMode SCATTERED) (run [] session_start))
             (voxel_start sample_instance, sample_dummy) sample_group None)))
  = true.
Proof.
  assert (Hm : SCATTERED <> INITIAL) by discriminate.
  assert (Hch : mode (run [] session_start) <> SCATTERED).
  { intros H. vm_compute in H. discriminate H. }
  assert (Him : internalMode (run [] session_start) = INITIAL) by (vm_compute; reflexivity).
  assert (Hrest : items_at_rest sample_instance sample_config
                    (mkWorld (step (SetMode SCATTERED) (run [] session_start))
                       (voxel_start sample_instance, sample_dummy) sample_group None)).
  { split; unfold Vector3_eq; simpl; repeat split; reflexivity. }
  destruct (X23_items_rest_while_the_lid_opens sample_between sample_setFromEuler
              (314159 # 100000) sample_instance sample_config [] SCATTERED
              [Frame (1 # 60); Browser (Elapse 100); Frame (1 # 2);
               Browser (SetMode TREE); Browser (Elapse 249)]
              (voxel_start sample_instance, sample_dummy) sample_group None
              Hm Hch Him Hrest) as (_ & _ & Hlid).
  - vm_compute. lia.
  - exact Hlid.
Defined.

Lemma X24_the_box_stays_closed_witness :
  isBoxOpen
    (w_scene
       (world_run sample_between sample_setFromEuler (314159 # 100000)
          sample_instance sample_config
          [Frame (1 # 60); Browser (Elapse 500); Browser (Fire 1); Frame 1]
          (mkWorld session_start (voxel_start sample_instance, sample_dummy)
             sample_group (Some lid_mounted))))
  = false.
Proof.
  assert (Hno : no_request
                  [Frame (1 # 60); Browser (Elapse 500); Browser (Fire 1); Frame 1]).
  { intros m [H | [H | [H | [H | []]]]]; discriminate H. }
  destruct (X24_the_box_stays_closed_without_request sample_between sample_setFromEuler
              (314159 # 100000) sample_instance sample_config
              [Frame (1 # 60); Browser (Elapse 500); Browser (Fire 1); Frame 1]
              sample_dummy sample_group Hno) as (Hlid & _).
  exact Hlid.
Defined.

Local Close Scope Q_scope.
